(** * Trade-events finder: extraction, prompts, session state, file names

    A shallow embedding of the text-processing core of the application
    (services/geminiService, utils/reportGenerator, App) together with the
    ECMAScript built-ins it relies on (String.prototype.split / trim / match,
    JSON.parse, ToBoolean), and the properties of the specification that are
    stated about them. *)

From Stdlib Require Import Ascii String DecimalPos.
From Stdlib Require Import List NArith ZArith Bool Lia.
From Stdlib Require Import SpecFloat.
Import ListNotations.

Set Warnings "-register-all".
Local Open Scope N_scope.

(* ================================================================== *)
(** * ECMAScript strings *)
(* ================================================================== *)

Module JS.

(** A JavaScript string is a finite sequence of UTF-16 code units. *)
Definition codeunit := N.
Definition jsstring := list codeunit.

(** ASCII text written as a Rocq string literal, one code unit per byte. *)
Definition u (s : string) : jsstring :=
  map N_of_ascii (list_ascii_of_string s).

Definition dq : codeunit := 34.     (* the double quote *)
Definition nl : codeunit := 10.     (* line feed *)

Fixpoint eqb (a b : jsstring) : bool :=
  match a, b with
  | [], [] => true
  | x :: a', y :: b' => (x =? y) && eqb a' b'
  | _, _ => false
  end.

(** WhiteSpace and LineTerminator code units: what [String.prototype.trim]
    strips and what the regular-expression class [\s] matches. *)
Definition isWhiteSpace (c : codeunit) : bool :=
  (c =? 9) || (c =? 10) || (c =? 11) || (c =? 12) || (c =? 13) || (c =? 32)
  || (c =? 160) || (c =? 5760)
  || ((8192 <=? c) && (c <=? 8202))
  || (c =? 8232) || (c =? 8233) || (c =? 8239) || (c =? 8287)
  || (c =? 12288) || (c =? 65279).

Fixpoint trimStart (s : jsstring) : jsstring :=
  match s with
  | c :: t => if isWhiteSpace c then trimStart t else s
  | [] => []
  end.

Definition trimEnd (s : jsstring) : jsstring := rev (trimStart (rev s)).

(** [String.prototype.trim] *)
Definition trim (s : jsstring) : jsstring := trimEnd (trimStart s).

(** [s.startsWith(p)] *)
Fixpoint startsWith (p s : jsstring) : bool :=
  match p, s with
  | [], _ => true
  | x :: p', y :: s' => (x =? y) && startsWith p' s'
  | _ :: _, [] => false
  end.

(** The first occurrence of [sep] in [s], scanning from the left: the text
    before it and the text after it. *)
Fixpoint breakOn (sep s : jsstring) : option (jsstring * jsstring) :=
  if startsWith sep s then Some ([], skipn (length sep) s)
  else match s with
       | [] => None
       | c :: t =>
           match breakOn sep t with
           | Some (a, b) => Some (c :: a, b)
           | None => None
           end
       end.

(** [s.includes(sep)] *)
Definition includes (sep s : jsstring) : bool :=
  match breakOn sep s with
  | Some _ => true
  | None => false
  end.

(** [String.prototype.split] with a non-empty separator and no limit:
    the pieces between successive non-overlapping occurrences, found left
    to right.  Every step consumes at least the separator, so [fuel] above
    the length of the text is never used up. *)
Fixpoint split_fuel (fuel : nat) (sep s : jsstring) : list jsstring :=
  match fuel with
  | O => [s]
  | S f =>
      match breakOn sep s with
      | None => [s]
      | Some (a, rest) => a :: split_fuel f sep rest
      end
  end.

Definition split (sep s : jsstring) : list jsstring :=
  split_fuel (S (length s)) sep s.

(** [sep] occurs in [s]. *)
Definition Occurs (sep s : jsstring) : Prop :=
  exists pre post, s = pre ++ sep ++ post.

(** [sep] occurs in [s] first at offset [length pre]. *)
Definition FirstAt (sep pre s : jsstring) : Prop :=
  (exists post, s = pre ++ sep ++ post) /\
  forall i, (i < length pre)%nat -> startsWith sep (skipn i s) = false.

(** Completion records of the language: a normal value or a thrown
    exception. *)
Inductive exn := SyntaxError | TypeError | RangeError | ExternalFailure.

Inductive completion (A : Type) :=
| Normal (a : A)
| Throw (e : exn).
Arguments Normal {A} a.
Arguments Throw {A} e.

Definition bind {A B} (c : completion A) (k : A -> completion B)
  : completion B :=
  match c with
  | Normal a => k a
  | Throw e => Throw e
  end.

(** [try { c } catch (e) { h }] *)
Definition tryCatch {A} (c : completion A) (h : exn -> completion A)
  : completion A :=
  match c with
  | Normal a => Normal a
  | Throw e => h e
  end.

(** Member access [a[i].m(...)] on an array element: reading a method of
    [undefined] throws a TypeError. *)
Definition index {A} (a : list A) (i : nat) : completion A :=
  match nth_error a i with
  | Some x => Normal x
  | None => Throw TypeError
  end.

End JS.

Declare Scope js_scope.
Delimit Scope js_scope with js.
Notation "x <- c ;; k" := (JS.bind c (fun x => k))
  (at level 61, c at next level, right associativity) : js_scope.

(* ================================================================== *)
(** * Regular expressions (the backtracking matcher of the language) *)
(* ================================================================== *)

Module RegExp.
Import JS.

(** The fragment of the pattern language the program uses: literal
    characters, character classes, a class under [*] (greedy) or [*?]
    (lazy), concatenation and capturing groups. *)
Inductive regex :=
| Eps
| Chr (c : codeunit)
| Class (p : codeunit -> bool)
| Star (greedy : bool) (p : codeunit -> bool)
| Cat (r1 r2 : regex)
| Group (r : regex).

(** [\s] and [[\s\S]] *)
Definition space : codeunit -> bool := isWhiteSpace.
Definition any : codeunit -> bool := fun c => isWhiteSpace c || negb (isWhiteSpace c).

(** A run of literal characters. *)
Fixpoint lit (s : jsstring) : regex :=
  match s with
  | [] => Eps
  | c :: t => Cat (Chr c) (lit t)
  end.

Section Matcher.
Variable A : Type.

(** [p*] and [p*?] against [s] with continuation [k] on what is left:
    the greedy form tries the longest run first and gives characters
    back one at a time, the lazy form tries the shortest first. *)
Fixpoint star (greedy : bool) (p : codeunit -> bool) (s : jsstring)
         (k : jsstring -> option A) : option A :=
  match s with
  | [] => k []
  | c :: t =>
      if p c then
        if greedy then
          match star greedy p t k with
          | Some r => Some r
          | None => k s
          end
        else
          match k s with
          | Some r => Some r
          | None => star greedy p t k
          end
      else k s
  end.

(** The matcher in continuation-passing style; [caps] collects the text
    of the capturing groups closed so far, in order. *)
Fixpoint run (r : regex) (s : jsstring) (caps : list jsstring)
         (k : jsstring -> list jsstring -> option A) : option A :=
  match r with
  | Eps => k s caps
  | Chr c =>
      match s with
      | x :: t => if x =? c then k t caps else None
      | [] => None
      end
  | Class p =>
      match s with
      | x :: t => if p x then k t caps else None
      | [] => None
      end
  | Star g p => star g p s (fun s' => k s' caps)
  | Cat r1 r2 => run r1 s caps (fun s' caps' => run r2 s' caps' k)
  | Group r1 =>
      run r1 s caps
          (fun s' caps' =>
             k s' (caps' ++ [firstn (length s - length s') s]))
  end.
End Matcher.
Arguments star {A} greedy p s k.
Arguments run {A} r s caps k.

(** A match: element 0 is the matched text, the others the groups. *)
Definition matchResult := (jsstring * list jsstring)%type.

(** A match anchored at the start of [s]. *)
Definition matchAt (r : regex) (s : jsstring) : option matchResult :=
  run r s [] (fun s' caps => Some (firstn (length s - length s') s, caps)).

(** [s.match(r)] for a pattern without the [g] flag: the match at the
    leftmost position where one exists, or [null]. *)
Fixpoint match_ (r : regex) (s : jsstring) : option matchResult :=
  match matchAt r s with
  | Some m => Some m
  | None =>
      match s with
      | [] => None
      | _ :: t => match_ r t
      end
  end.

(** [s.replace(/[class]/g, by)] for a one-character class pattern: every
    code unit of the class is replaced, the others are kept. *)
Definition replaceClass (p : codeunit -> bool) (by_ : jsstring) (s : jsstring)
  : jsstring :=
  flat_map (fun c => if p c then by_ else [c]) s.

(** What the patterns denote, independently of the search order. *)
Inductive Matches : regex -> jsstring -> Prop :=
| M_Eps : Matches Eps []
| M_Chr c : Matches (Chr c) [c]
| M_Class p c : p c = true -> Matches (Class p) [c]
| M_Star g p w : Forall (fun c => p c = true) w -> Matches (Star g p) w
| M_Cat r1 r2 w1 w2 :
    Matches r1 w1 -> Matches r2 w2 -> Matches (Cat r1 r2) (w1 ++ w2)
| M_Group r w : Matches r w -> Matches (Group r) w.

End RegExp.

(* ================================================================== *)
(** * JSON.parse *)
(* ================================================================== *)

Module JSON.
Import JS.

(** The values [JSON.parse] produces.  A number keeps the text of its
    literal (the run-time rounds it to a double; nothing below looks at a
    numeric value).  An object keeps its properties in the order in which
    it lists them (see [setProperty]), a repeated key overwriting the
    earlier value where it stands. *)
Inductive value :=
| JNull
| JBool (b : bool)
| JNumber (literal : jsstring)
| JString (s : jsstring)
| JArray (elements : list value)
| JObject (properties : list (jsstring * value)).

Definition isDigit (c : codeunit) : bool := (48 <=? c) && (c <=? 57).

(** An array index: a key that is the canonical decimal text of an integer
    from 0 to 2^32 - 2 (digits only, no leading zero but for the text 0). *)
Definition arrayIndex (k : jsstring) : option N :=
  match k with
  | [] => None
  | c :: t =>
      if forallb isDigit k
         && (negb (c =? 48) || match t with [] => true | _ :: _ => false end)
      then
        let n := fold_left (fun a d => 10 * a + (d - 48)) k 0 in
        if n <=? 4294967294 then Some n else None
      else None
  end.

Definition hasProperty (o : list (jsstring * value)) (k : jsstring) : bool :=
  existsb (fun kv => JS.eqb (fst kv) k) o.

(** The value of an existing property is replaced where the property is. *)
Fixpoint replaceValue (o : list (jsstring * value)) (k : jsstring) (v : value)
  : list (jsstring * value) :=
  match o with
  | [] => []
  | (k', v') :: o' =>
      if JS.eqb k' k then (k', v) :: o' else (k', v') :: replaceValue o' k v
  end.

(** A new array index goes before the first property that is not an array
    index or is a greater one. *)
Fixpoint insertIndex (o : list (jsstring * value)) (n : N) (k : jsstring)
         (v : value) : list (jsstring * value) :=
  match o with
  | [] => [(k, v)]
  | (k', v') :: o' =>
      match arrayIndex k' with
      | Some n' =>
          if n' <? n then (k', v') :: insertIndex o' n k v else (k, v) :: o
      | None => (k, v) :: o
      end
  end.

(** [o[k] = v] on an ordinary object.  The properties are kept in the order
    in which the object lists them: the array indices first, in ascending
    order, then the other keys in the order of their creation; a property
    that exists keeps its place. *)
Definition setProperty (o : list (jsstring * value)) (k : jsstring) (v : value)
  : list (jsstring * value) :=
  if hasProperty o k then replaceValue o k v
  else match arrayIndex k with
       | Some n => insertIndex o n k v
       | None => o ++ [(k, v)]
       end.

(** [o[k]], [None] standing for [undefined]. *)
Fixpoint getProperty (o : list (jsstring * value)) (k : jsstring)
  : option value :=
  match o with
  | [] => None
  | (k', v) :: o' => if JS.eqb k' k then Some v else getProperty o' k
  end.

(** JSON white space: tab, line feed, carriage return, space. *)
Definition isWs (c : codeunit) : bool :=
  (c =? 9) || (c =? 10) || (c =? 13) || (c =? 32).

Fixpoint skipWs (s : jsstring) : jsstring :=
  match s with
  | c :: t => if isWs c then skipWs t else s
  | [] => []
  end.

Fixpoint skipDigits (s : jsstring) : jsstring :=
  match s with
  | c :: t => if isDigit c then skipDigits t else s
  | [] => []
  end.

Definition hexDigit (c : codeunit) : option N :=
  if (48 <=? c) && (c <=? 57) then Some (c - 48)
  else if (65 <=? c) && (c <=? 70) then Some (c - 55)
  else if (97 <=? c) && (c <=? 102) then Some (c - 87)
  else None.

Definition hex4 (a b c d : codeunit) : option codeunit :=
  match hexDigit a, hexDigit b, hexDigit c, hexDigit d with
  | Some x, Some y, Some z, Some w => Some (((x * 16 + y) * 16 + z) * 16 + w)
  | _, _, _, _ => None
  end.

(** The single-character escapes after a backslash. *)
Definition escape (c : codeunit) : option codeunit :=
  if c =? 34 then Some 34            (* quote *)
  else if c =? 92 then Some 92       (* backslash *)
  else if c =? 47 then Some 47       (* slash *)
  else if c =? 98 then Some 8        (* backspace *)
  else if c =? 102 then Some 12      (* form feed *)
  else if c =? 110 then Some 10      (* line feed *)
  else if c =? 114 then Some 13      (* carriage return *)
  else if c =? 116 then Some 9       (* tab *)
  else None.

(** The characters of a string literal after its opening quote, up to and
    including the closing quote. *)
Fixpoint stringBody (s : jsstring) (acc : jsstring)
  : option (jsstring * jsstring) :=
  match s with
  | [] => None
  | c :: t =>
      if c =? 34 then Some (rev acc, t)
      else if c =? 92 then
        match t with
        | [] => None
        | e :: t' =>
            if e =? 117 then
              match t' with
              | h1 :: h2 :: h3 :: h4 :: t'' =>
                  match hex4 h1 h2 h3 h4 with
                  | Some cu => stringBody t'' (cu :: acc)
                  | None => None
                  end
              | _ => None
              end
            else
              match escape e with
              | Some cu => stringBody t' (cu :: acc)
              | None => None
              end
        end
      else if c <? 32 then None
      else stringBody t (c :: acc)
  end.

(** A number literal at the head of [s]: what follows it. *)
Definition numberRest (s : jsstring) : option jsstring :=
  let s1 := match s with c :: t => if c =? 45 then t else s | [] => s end in
  let afterInt :=
    match s1 with
    | c :: t =>
        if c =? 48 then Some t
        else if isDigit c then Some (skipDigits t)
        else None
    | [] => None
    end in
  match afterInt with
  | None => None
  | Some s2 =>
      let afterFrac :=
        match s2 with
        | c :: t =>
            if c =? 46 then
              match t with
              | d :: _ => if isDigit d then Some (skipDigits t) else None
              | [] => None
              end
            else Some s2
        | [] => Some s2
        end in
      match afterFrac with
      | None => None
      | Some s3 =>
          match s3 with
          | c :: t =>
              if (c =? 101) || (c =? 69) then
                let t1 := match t with
                          | g :: t' => if (g =? 43) || (g =? 45) then t' else t
                          | [] => t
                          end in
                match t1 with
                | d :: _ => if isDigit d then Some (skipDigits t1) else None
                | [] => None
                end
              else Some s3
          | [] => Some s3
          end
      end
  end.

Inductive presult :=
| POk (v : value) (rest : jsstring)
| PErr
| PFuel.

(** A value that is not an array or an object: a string, [true], [false],
    [null] or a number. *)
Definition parseLiteral (s : jsstring) : presult :=
  match s with
  | [] => PErr
  | c :: t =>
      if c =? 34 then
        match stringBody t [] with
        | Some (str, rest) => POk (JString str) rest
        | None => PErr
        end
      else if startsWith (u "true") s then POk (JBool true) (skipn 4 s)
      else if startsWith (u "false") s then POk (JBool false) (skipn 5 s)
      else if startsWith (u "null") s then POk JNull (skipn 4 s)
      else
        match numberRest s with
        | Some rest => POk (JNumber (firstn (length s - length rest) s)) rest
        | None => PErr
        end
  end.

(** Recursive descent over the JSON grammar.  [parseValue] reads one value
    after optional white space; [parseElements] reads the elements of an
    array and its closing bracket, [parseMembers] the members of an object
    and its closing brace. *)
Fixpoint parseValue (fuel : nat) (s : jsstring) : presult :=
  match fuel with
  | O => PFuel
  | S f =>
      match skipWs s with
      | [] => PErr
      | c :: t =>
          if c =? 123 then                              (* { *)
            match skipWs t with
            | c' :: t' =>
                if c' =? 125 then POk (JObject []) t'
                else parseMembers f (c' :: t') []
            | [] => PErr
            end
          else if c =? 91 then                          (* [ *)
            match skipWs t with
            | c' :: t' =>
                if c' =? 93 then POk (JArray []) t'
                else parseElements f (c' :: t') []
            | [] => PErr
            end
          else parseLiteral (c :: t)
      end
  end

with parseElements (fuel : nat) (s : jsstring) (acc : list value) : presult :=
  match fuel with
  | O => PFuel
  | S f =>
      match parseValue f s with
      | POk v rest =>
          match skipWs rest with
          | c :: t =>
              if c =? 44 then parseElements f t (v :: acc)         (* , *)
              else if c =? 93 then POk (JArray (rev (v :: acc))) t (* ] *)
              else PErr
          | [] => PErr
          end
      | PErr => PErr
      | PFuel => PFuel
      end
  end

with parseMembers (fuel : nat) (s : jsstring) (acc : list (jsstring * value))
  : presult :=
  match fuel with
  | O => PFuel
  | S f =>
      match skipWs s with
      | c :: t =>
          if c =? 34 then
            match stringBody t [] with
            | Some (key, rest) =>
                match skipWs rest with
                | c1 :: t1 =>
                    if c1 =? 58 then                               (* : *)
                      match parseValue f t1 with
                      | POk v rest2 =>
                          match skipWs rest2 with
                          | c2 :: t2 =>
                              if c2 =? 44 then
                                parseMembers f t2 (setProperty acc key v)
                              else if c2 =? 125 then
                                POk (JObject (setProperty acc key v)) t2
                              else PErr
                          | [] => PErr
                          end
                      | PErr => PErr
                      | PFuel => PFuel
                      end
                    else PErr
                | [] => PErr
                end
            | None => PErr
            end
          else PErr
      | [] => PErr
      end
  end.

(** Fuel that the descent never uses up on [s]. *)
Definition fuelFor (s : jsstring) : nat := 2 * length s + 2.

(** [JSON.parse(text)]: one value, white space around it, nothing else;
    anything else is a SyntaxError. *)
Definition parse (text : jsstring) : completion value :=
  match parseValue (fuelFor text) text with
  | POk v rest =>
      match skipWs rest with
      | [] => Normal v
      | _ :: _ => Throw SyntaxError
      end
  | PErr => Throw SyntaxError
  | PFuel => Throw RangeError
  end.

End JSON.

(* ================================================================== *)
(** * types.ts *)
(* ================================================================== *)

Module Types.
Import JS.

Record WebSource := { web_uri : jsstring; web_title : jsstring }.

Record ReviewSnippet := { reviewText : jsstring; sourceUri : jsstring }.

Record PlaceAnswerSource := { reviewSnippets : option (list ReviewSnippet) }.

Record MapsSource := {
  maps_uri : jsstring;
  maps_title : jsstring;
  placeAnswerSources : option (list PlaceAnswerSource)
}.

Record GroundingChunk := {
  web : option WebSource;
  maps : option MapsSource
}.

(** [EventDetail] is an interface: it exists for the type checker only.
    At run time [structuredEvents] holds whatever value was assigned to
    it, so the field is a JSON value here and the interface is the
    predicate [isEventDetail]. *)
Definition isString (o : option JSON.value) : bool :=
  match o with
  | Some (JSON.JString _) => true
  | _ => false
  end.

Definition isOptionalString (o : option JSON.value) : bool :=
  match o with
  | None => true
  | Some (JSON.JString _) => true
  | Some _ => false
  end.

Definition isEventDetail (v : JSON.value) : bool :=
  match v with
  | JSON.JObject o =>
      isString (JSON.getProperty o (u "eventName"))
      && isString (JSON.getProperty o (u "date"))
      && isString (JSON.getProperty o (u "location"))
      && isString (JSON.getProperty o (u "type"))
      && isOptionalString (JSON.getProperty o (u "description"))
      && isOptionalString (JSON.getProperty o (u "url"))
  | _ => false
  end.

(** [EventDetail[]] *)
Definition isEventDetailArray (v : JSON.value) : bool :=
  match v with
  | JSON.JArray xs => forallb isEventDetail xs
  | _ => false
  end.

Record SearchResult := {
  sr_text : jsstring;
  structuredEvents : JSON.value;
  sr_groundingChunks : list GroundingChunk
}.

Record MapResult := {
  mr_text : jsstring;
  mr_groundingChunks : list GroundingChunk
}.

Record AnalysisResult := { ar_text : jsstring }.

Inductive SearchStatus := idle | loading | success | error.

End Types.

(* ================================================================== *)
(** * services/geminiService *)
(* ================================================================== *)

Module GeminiService.
Import JS Types.
Local Open Scope js_scope.

(** ** The external model call *)

(** A JavaScript number is an IEEE 754 binary64 value. *)
Definition number := spec_float.

Record LatLng := { latitude : number; longitude : number }.

Inductive Tool := googleSearch | googleMaps.

Record Config := {
  tools : list Tool;
  responseModalities : option (list jsstring);
  thinkingBudget : option N;
  toolConfig : option LatLng      (* toolConfig.retrievalConfig.latLng *)
}.

Record Request := {
  model : jsstring;
  contents : jsstring;
  config : Config
}.

(** What the program reads of a reply: [response.text] and
    [response.candidates?.[0]?.groundingMetadata?.groundingChunks], either
    of which may be undefined. *)
Record Response := {
  text : option jsstring;
  groundingChunks : option (list GroundingChunk)
}.

(** [ai.models.generateContent]: the service replies or the call throws. *)
Definition Service := Request -> completion Response.

(** [x || dflt] on an optional string: undefined and the empty string are
    falsy. *)
Definition orString (x : option jsstring) (dflt : jsstring) : jsstring :=
  match x with
  | Some (c :: t) => c :: t
  | Some [] | None => dflt
  end.

(** [x || []] on an optional array: every array is truthy. *)
Definition orArray {A} (x : option (list A)) : list A :=
  match x with
  | Some a => a
  | None => []
  end.

Definition quoted (s : jsstring) : jsstring := dq :: s ++ [dq].

(** A template literal written line by line: a line feed before each line
    and the closing line of the literal after the last. *)
Definition template (lines : list jsstring) (closing : jsstring) : jsstring :=
  flat_map (fun l => nl :: l) lines ++ nl :: closing.

(** ** searchTradeEvents *)

Definition delimiter : jsstring := u "___JSON_START___".

Definition globalInstruction : jsstring := u "Search for events globally.".

Definition filterInstruction (location : jsstring) : jsstring :=
  u "CRITICAL INSTRUCTION: The user is ONLY interested in events taking place in or near "
  ++ quoted location
  ++ u ". FILTER OUT ALL events that are not in this location.".

(** [location && location.trim() !== ""] *)
Definition hasLocation (location : option jsstring) : bool :=
  match location with
  | None => false
  | Some [] => false
  | Some l => negb (JS.eqb (trim l) [])
  end.

Definition locationInstruction (location : option jsstring) : jsstring :=
  match location with
  | Some l => if hasLocation location then filterInstruction l
              else globalInstruction
  | None => globalInstruction
  end.

(** The part of the prompt before the location instruction. *)
Definition promptHead (today productQuery : jsstring) : jsstring :=
  flat_map (fun l => nl :: l)
    [ u "    Current Date: " ++ today ++ u ".";
      u "    I am an exporter dealing in: " ++ quoted productQuery ++ u ".";
      u "    ";
      u "    1. First, identify the specific Export Promotion Council (EPC) in India relevant to this product. Start response with "
        ++ quoted (u "Relevant EPC: [EPC Name]") ++ u ".";
      u "    2. Then, find UPCOMING trade events, exhibitions, buyer-seller meets, and delegation meetings relevant to this product sector.";
      u "    ";
      u "    STRICT TIME CONSTRAINT:";
      u "    - ONLY list events happening AFTER " ++ today ++ u ".";
      u "    - DO NOT list events that have already passed.";
      u "    " ]
  ++ nl :: u "    ".

(** The part of the prompt after the location instruction. *)
Definition promptTail : jsstring :=
  template
    [ u "    ";
      u "    Please provide the output in two distinct parts separated by the delimiter "
        ++ quoted delimiter ++ u ".";
      u "    ";
      u "    PART 1: Descriptive List";
      u "    Provide a structured list of at least 5 relevant upcoming events.";
      u "    For each event, include:";
      u "    1. Event Name";
      u "    2. Date & Location (Be specific about the city/country)";
      u "    3. Brief Description (Focus on why it matters for this specific product)";
      u "    4. Key link/website (if available)";
      [];
      u "    DO NOT include any JSON code blocks in PART 1.";
      [];
      u "    ___JSON_START___";
      [];
      u "    PART 2: JSON Data";
      u "    Strictly output a JSON array of the found events.";
      u "    Structure: [{" ++ quoted (u "eventName") ++ u ": " ++ quoted (u "...")
        ++ u ", " ++ quoted (u "date") ++ u ": " ++ quoted (u "...")
        ++ u ", " ++ quoted (u "location") ++ u ": " ++ quoted (u "...")
        ++ u ", " ++ quoted (u "type") ++ u ": "
        ++ quoted (u "Exhibition/Delegation/etc")
        ++ u ", " ++ quoted (u "description") ++ u ": " ++ quoted (u "...")
        ++ u ", " ++ quoted (u "url") ++ u ": " ++ quoted (u "...")
        ++ u "}]" ]
    (u "  ").

Definition searchPrompt (today productQuery : jsstring)
           (location : option jsstring) : jsstring :=
  promptHead today productQuery ++ locationInstruction location ++ promptTail.

Definition searchRequest (today productQuery : jsstring)
           (location : option jsstring) : Request :=
  {| model := u "gemini-3-flash-preview";
     contents := searchPrompt today productQuery location;
     config := {| tools := [googleSearch];
                  responseModalities := Some [u "TEXT"];
                  thinkingBudget := None;
                  toolConfig := None |} |}.

(** [/\[\s*\{[\s\S]*\}\s*\]/] *)
Definition arrayPattern : RegExp.regex :=
  RegExp.Cat (RegExp.Chr 91)                               (* [ *)
 (RegExp.Cat (RegExp.Star true RegExp.space)
 (RegExp.Cat (RegExp.Chr 123)                              (* { *)
 (RegExp.Cat (RegExp.Star true RegExp.any)
 (RegExp.Cat (RegExp.Chr 125)                              (* } *)
 (RegExp.Cat (RegExp.Star true RegExp.space)
             (RegExp.Chr 93)))))).                         (* ] *)

(** [/```json\s*([\s\S]*?)\s*```/] *)
Definition codeBlockPattern : RegExp.regex :=
  RegExp.Cat (RegExp.lit (u "```json"))
 (RegExp.Cat (RegExp.Star true RegExp.space)
 (RegExp.Cat (RegExp.Group (RegExp.Star false RegExp.any))
 (RegExp.Cat (RegExp.Star true RegExp.space)
             (RegExp.lit (u "```"))))).

(** [m[i]] on a match array. *)
Definition matchItem (m : RegExp.matchResult) (i : nat) : option jsstring :=
  nth_error (fst m :: snd m) i.

(** The split of the reply: [displayText] and [jsonPart]. *)
Definition splitResponse (fullText : jsstring)
  : completion (jsstring * jsstring) :=
  let parts := split delimiter fullText in
  p0 <- index parts 0 ;;
  let displayText := trim p0 in
  jsonPart <- (if (1 <? length parts)%nat
               then p1 <- index parts 1 ;; Normal (trim p1)
               else Normal []) ;;
  Normal (displayText, jsonPart).

(** The [else] branch of the extraction: the contents of the first
    fenced block labelled json anywhere in the full text, parsed; a failed
    parse is caught and leaves the empty array. *)
Definition codeBlockFallback (structuredEvents : JSON.value)
           (fullText : jsstring) : completion JSON.value :=
  match RegExp.match_ codeBlockPattern fullText with
  | Some codeBlockMatch =>
      match matchItem codeBlockMatch 1 with
      | Some (c :: t) =>
          tryCatch (JSON.parse (c :: t)) (fun _ => Normal structuredEvents)
      | Some [] | None => Normal structuredEvents
      end
  | None => Normal structuredEvents
  end.

(** The value [structuredEvents] holds after the extraction.  It starts as
    the empty array; when the array pattern matches in [jsonPart] the match
    is parsed, and a failed parse is caught, logged, and leaves the empty
    array; only when the pattern does not match is the fenced block
    looked for. *)
Definition extractEvents (jsonPart fullText : jsstring)
  : completion JSON.value :=
  let structuredEvents := JSON.JArray [] in
  match RegExp.match_ arrayPattern jsonPart with
  | Some jsonMatch =>
      (* jsonMatch[0], the matched text *)
      tryCatch (JSON.parse (fst jsonMatch)) (fun _ => Normal structuredEvents)
  | None => codeBlockFallback structuredEvents fullText
  end.

(** From the reply to the result: the statements between the call and the
    [return]. *)
Definition processResponse (response : Response) : completion SearchResult :=
  let fullText := orString (text response) (u "No results found.") in
  parts <- splitResponse fullText ;;
  let '(displayText, jsonPart) := parts in
  events <- extractEvents jsonPart fullText ;;
  let chunks := orArray (groundingChunks response) in
  Normal {| sr_text := displayText;
            structuredEvents := events;
            sr_groundingChunks := chunks |}.

(** The outer handler logs the error and throws it again. *)
Definition searchTradeEvents (ai : Service) (today productQuery : jsstring)
           (location : option jsstring) : completion SearchResult :=
  tryCatch
    (response <- ai (searchRequest today productQuery location) ;;
     processResponse response)
    (fun e => Throw e).

(** ** analyzeStrategicFit *)

Definition analysisPrompt (eventsText userProfile : jsstring) : jsstring :=
  template
    [ u "    You are a Senior Trade Consultant for Kinetick International.";
      u "    ";
      u "    Context (List of found events and identified EPC):";
      u "    " ++ eventsText;
      u "    ";
      u "    User Profile/Goal:";
      u "    " ++ userProfile;
      u "    ";
      u "    Task:";
      u "    Analyze the events listed above.";
      u "    1. Recommend the top 2-3 events that strongly align with the User Profile.";
      u "    2. Explain the " ++ quoted (u "Strategic Value")
        ++ u " of attending these specific events (e.g., networking, market entry, competitor analysis).";
      u "    3. **Actionable Calendar Plan**: Create a strategic timeline for the top recommended events.";
      u "       - Work backwards from the event date.";
      u "       - Suggest specific dates/windows for: ";
      u "         * Booth Booking (Early bird deadlines)";
      u "         * Visa Application (Based on location processing times)";
      u "         * Sample Shipment & Customs paperwork";
      u "         * Flight/Hotel bookings";
      u "    4. Provide a brief preparation tip for the selected events.";
      u "    ";
      u "    Use a professional, analytical tone." ]
    (u "  ").

Definition analyzeStrategicFit (ai : Service) (eventsText userProfile : jsstring)
  : completion AnalysisResult :=
  tryCatch
    (response <- ai {| model := u "gemini-3-pro-preview";
                       contents := analysisPrompt eventsText userProfile;
                       config := {| tools := [];
                                    responseModalities := None;
                                    thinkingBudget := Some 32768;
                                    toolConfig := None |} |} ;;
     Normal {| ar_text := orString (text response)
                                   (u "Could not generate analysis.") |})
    (fun e => Throw e).

(** ** findEventLocation *)

(** ToBoolean on an optional number: undefined, +0, -0 and NaN are
    falsy. *)
Definition truthy (x : option number) : bool :=
  match x with
  | None => false
  | Some (S754_zero _) => false
  | Some S754_nan => false
  | Some (S754_infinity _) => true
  | Some (S754_finite _ _ _) => true
  end.

Definition locationPrompt (eventName : jsstring) : jsstring :=
  u "Where is the " ++ quoted eventName
  ++ u " taking place? Provide the address and venue details.".

(** The [config] object handed to the call. *)
Definition locationConfig (userLat userLng : option number) : Config :=
  let config := {| tools := [googleMaps];
                   responseModalities := None;
                   thinkingBudget := None;
                   toolConfig := None |} in
  match userLat, userLng with
  | Some lat, Some lng =>
      if truthy userLat && truthy userLng
      then {| tools := tools config;
              responseModalities := responseModalities config;
              thinkingBudget := thinkingBudget config;
              toolConfig := Some {| latitude := lat; longitude := lng |} |}
      else config
  | _, _ => config
  end.

Definition findEventLocation (ai : Service) (eventName : jsstring)
           (userLat userLng : option number) : completion MapResult :=
  tryCatch
    (response <- ai {| model := u "gemini-2.5-flash";
                       contents := locationPrompt eventName;
                       config := locationConfig userLat userLng |} ;;
     Normal {| mr_text := orString (text response) (u "Location not found.");
               mr_groundingChunks := orArray (groundingChunks response) |})
    (fun e => Throw e).

End GeminiService.

(* ================================================================== *)
(** * utils/reportGenerator *)
(* ================================================================== *)

Module ReportGenerator.
Import JS.

Definition isAlnum (c : codeunit) : bool :=
  ((97 <=? c) && (c <=? 122))          (* a-z *)
  || ((65 <=? c) && (c <=? 90))        (* A-Z *)
  || ((48 <=? c) && (c <=? 57)).       (* 0-9 *)

(** [/[^a-z0-9]/gi]: with the [i] flag and without the [u] flag a code
    unit above 127 never case-folds to an ASCII letter, so the class
    [a-z0-9] matches exactly the ASCII letters of both cases and the
    digits, and its complement everything else. *)
Definition notAlnum (c : codeunit) : bool := negb (isAlnum c).

Definition underscore : codeunit := 95.

Fixpoint digits (d : Decimal.uint) : jsstring :=
  match d with
  | Decimal.Nil => []
  | Decimal.D0 d' => 48 :: digits d'
  | Decimal.D1 d' => 49 :: digits d'
  | Decimal.D2 d' => 50 :: digits d'
  | Decimal.D3 d' => 51 :: digits d'
  | Decimal.D4 d' => 52 :: digits d'
  | Decimal.D5 d' => 53 :: digits d'
  | Decimal.D6 d' => 54 :: digits d'
  | Decimal.D7 d' => 55 :: digits d'
  | Decimal.D8 d' => 56 :: digits d'
  | Decimal.D9 d' => 57 :: digits d'
  end.

(** Number-to-string conversion of a time value: an integer number of
    milliseconds, printed in decimal. *)
Definition timeToString (t : Z) : jsstring :=
  match Z.to_int t with
  | Decimal.Pos d => digits d
  | Decimal.Neg d => 45 :: digits d
  end.

(** [product.replace(/[^a-z0-9]/gi, '_').substring(0, 20)] *)
Definition safeName (product : jsstring) : jsstring :=
  firstn 20 (RegExp.replaceClass notAlnum [underscore] product).

(** [now] is [new Date().getTime()]. *)
Definition getFileName (now : Z) (product ext : jsstring) : jsstring :=
  u "Kinetick_Trade_Report_" ++ safeName product ++ u "_"
    ++ timeToString now ++ u "." ++ ext.

(** The names the two generators save under: [getFileName(productQuery,
    'docx')] in generateWordDocument, [getFileName(productQuery, 'pdf')]
    in generatePDFDocument. *)
Definition wordFileName (now : Z) (productQuery : jsstring) : jsstring :=
  getFileName now productQuery (u "docx").

Definition pdfFileName (now : Z) (productQuery : jsstring) : jsstring :=
  getFileName now productQuery (u "pdf").

End ReportGenerator.

(* ================================================================== *)
(** * App: the session state and its handlers *)
(* ================================================================== *)

Module App.
Import JS Types GeminiService.

Record State := {
  productQuery : jsstring;
  locationQuery : jsstring;
  searchStatus : SearchStatus;
  searchResult : option SearchResult;
  analysisStatus : SearchStatus;
  analysisResult : option AnalysisResult;
  userProfile : jsstring;
  mapStatus : SearchStatus;
  mapResult : option MapResult;
  selectedEventForMap : jsstring;
  selectedType : jsstring
}.

Definition initial : State :=
  {| productQuery := []; locationQuery := [];
     searchStatus := idle; searchResult := None;
     analysisStatus := idle; analysisResult := None; userProfile := [];
     mapStatus := idle; mapResult := None; selectedEventForMap := [];
     selectedType := u "All" |}.

(** The state setters a handler calls, in the order it calls them. *)
Inductive Update :=
| setSearchStatus (s : SearchStatus)
| setSearchResult (r : option SearchResult)
| setAnalysisStatus (s : SearchStatus)
| setAnalysisResult (r : option AnalysisResult)
| setMapStatus (s : SearchStatus)
| setMapResult (r : option MapResult)
| setSelectedEventForMap (e : jsstring)
| setSelectedType (t : jsstring).

Definition apply (st : State) (upd : Update) : State :=
  let '{| productQuery := pq; locationQuery := lq; searchStatus := ss;
          searchResult := sr; analysisStatus := ast; analysisResult := ar;
          userProfile := up; mapStatus := ms; mapResult := mr;
          selectedEventForMap := se; selectedType := sty |} := st in
  match upd with
  | setSearchStatus s =>
      Build_State pq lq s sr ast ar up ms mr se sty
  | setSearchResult r =>
      Build_State pq lq ss r ast ar up ms mr se sty
  | setAnalysisStatus s =>
      Build_State pq lq ss sr s ar up ms mr se sty
  | setAnalysisResult r =>
      Build_State pq lq ss sr ast r up ms mr se sty
  | setMapStatus s =>
      Build_State pq lq ss sr ast ar up s mr se sty
  | setMapResult r =>
      Build_State pq lq ss sr ast ar up ms r se sty
  | setSelectedEventForMap e =>
      Build_State pq lq ss sr ast ar up ms mr e sty
  | setSelectedType t =>
      Build_State pq lq ss sr ast ar up ms mr se t
  end.

Definition run (st : State) (upds : list Update) : State :=
  fold_left apply upds st.

(** What the handlers reach outside the component: the model service, the
    date of the day, and the browser's geolocation. *)
Inductive Geolocation :=
| geoUnavailable                          (* no geolocation in navigator *)
| geoRejected                             (* denied, or the 5 s timeout *)
| geoPosition (lat lng : number).

Record Env := {
  ai : Service;
  today : jsstring;
  geolocation : Geolocation
}.

Definition handleSearch (env : Env) (st : State) : list Update :=
  match productQuery st with
  | [] => []
  | _ :: _ =>
      [ setSearchStatus loading;
        setSearchResult None;
        setAnalysisResult None;
        setMapResult None;
        setSelectedType (u "All") ]
      ++ match searchTradeEvents (ai env) (today env) (productQuery st)
                                 (Some (locationQuery st)) with
         | Normal result => [setSearchResult (Some result);
                             setSearchStatus success]
         | Throw _ => [setSearchStatus error]
         end
  end.

(** The setters [handleSearch] calls before the request goes out. *)
Definition beforeSearch : list Update :=
  [ setSearchStatus loading;
    setSearchResult None;
    setAnalysisResult None;
    setMapResult None;
    setSelectedType (u "All") ].

Definition handleAnalysis (env : Env) (st : State) : list Update :=
  match searchResult st, userProfile st with
  | Some sr, _ :: _ =>
      [ setAnalysisStatus loading ]
      ++ match analyzeStrategicFit (ai env) (sr_text sr) (userProfile st) with
         | Normal result => [setAnalysisResult (Some result);
                             setAnalysisStatus success]
         | Throw _ => [setAnalysisStatus error]
         end
  | _, _ => []
  end.

Definition handleMapSearch (env : Env) (eventName : jsstring) (st : State)
  : list Update :=
  [ setSelectedEventForMap eventName;
    setMapStatus loading;
    setMapResult None ]
  ++ (let '(lat, lng) :=
        match geolocation env with
        | geoPosition la lo => (Some la, Some lo)
        | geoUnavailable | geoRejected => (None, None)
        end in
      match findEventLocation (ai env) eventName lat lng with
      | Normal result => [setMapResult (Some result); setMapStatus success]
      | Throw _ => [setMapStatus error]
      end).

End App.

(* ================================================================== *)
(** * The shapes the extractor looks for, in words *)
(* ================================================================== *)

Module Shapes.
Import JS.

Definition Blank (w : jsstring) : Prop :=
  Forall (fun c => isWhiteSpace c = true) w.

(** A piece of text of the form  [ { ... } ]  with optional white space
    after the opening bracket and before the closing one. *)
Definition ArrayShaped (w : jsstring) : Prop :=
  exists ws1 body ws2,
    Blank ws1 /\ Blank ws2 /\
    w = [91] ++ ws1 ++ [123] ++ body ++ [125] ++ ws2 ++ [93].

(** [s] has an array-shaped piece somewhere. *)
Definition HasArray (s : jsstring) : Prop :=
  exists pre w post, s = pre ++ w ++ post /\ ArrayShaped w.

(** ** A structured array as the model is asked to write it *)

(** A code unit that stands for itself inside a JSON string literal: not a
    control character, not the quote, not the backslash. *)
Definition plainChar (c : codeunit) : bool :=
  (32 <=? c) && negb (c =? 34) && negb (c =? 92).

Definition Plain (s : jsstring) : Prop :=
  Forall (fun c => plainChar c = true) s.

(** An object whose values are all strings, as its list of members. *)
Definition Fields := list (jsstring * jsstring).

Definition WellFormed (o : Fields) : Prop :=
  NoDup (map fst o) /\
  Forall (fun kv => Plain (fst kv) /\ Plain (snd kv)) o.

(** The same, as a check that can be run. *)
Fixpoint distinct (ks : list jsstring) : bool :=
  match ks with
  | [] => true
  | k :: ks' => negb (existsb (JS.eqb k) ks') && distinct ks'
  end.

Definition wellFormed (o : Fields) : bool :=
  distinct (map fst o)
  && forallb (fun kv => forallb plainChar (fst kv) && forallb plainChar (snd kv)) o.

Fixpoint join (sep : codeunit) (l : list jsstring) : jsstring :=
  match l with
  | [] => []
  | x :: l' =>
      match l' with
      | [] => x
      | _ :: _ => x ++ sep :: join sep l'
      end
  end.

(** The compact JSON text of a member, an object, an array of objects. *)
Definition memberText (kv : jsstring * jsstring) : jsstring :=
  GeminiService.quoted (fst kv) ++ 58 :: GeminiService.quoted (snd kv).

Definition objectText (o : Fields) : jsstring :=
  123 :: join 44 (map memberText o) ++ [125].

Definition arrayText (objs : list Fields) : jsstring :=
  91 :: join 44 (map objectText objs) ++ [93].


Definition addMember (acc : list (jsstring * JSON.value))
           (kv : jsstring * jsstring) : list (jsstring * JSON.value) :=
  JSON.setProperty acc (fst kv) (JSON.JString (snd kv)).

Definition properties (o : Fields) : list (jsstring * JSON.value) :=
  fold_left addMember o [].

Definition objectValue (o : Fields) : JSON.value :=
  JSON.JObject (properties o).


Definition arrayValue (objs : list Fields) : JSON.value :=
  JSON.JArray (map objectValue objs).

(** The object has the four fields an event record must have. *)
Definition HasRequired (o : Fields) : Prop :=
  In (u "eventName") (map fst o) /\ In (u "date") (map fst o) /\
  In (u "location") (map fst o) /\ In (u "type") (map fst o).

(** A code unit of the product string as it appears in the file name. *)
Definition sanitize (c : codeunit) : codeunit :=
  if ReportGenerator.isAlnum c then c else ReportGenerator.underscore.

End Shapes.

(* ================================================================== *)
(** * Sample inputs *)
(* ================================================================== *)

Module Examples.
Import JS Types GeminiService App.

(** Sample texts are written with single quotes standing for the double
    quotes of JSON. *)
Definition q (s : string) : jsstring :=
  map (fun c => if c =? 39 then dq else c) (u s).

(** A reply without the delimiter. *)
Definition narrativeOnly : jsstring :=
  u "  Relevant EPC: APEDA. 1. Gulfood 2027, Dubai  ".

(** A reply with the delimiter twice and a fenced block after the second. *)
Definition beforeFirst : jsstring := u "Relevant EPC: APEDA ".
Definition between : jsstring := u " no array here ".
Definition afterSecond : jsstring :=
  q " ```json [{'eventName':'Anuga','date':'Oct 2027','location':'Cologne','type':'Exhibition'}] ```".
Definition twoDelimiters : jsstring :=
  beforeFirst ++ delimiter ++ between ++ delimiter ++ afterSecond.

Definition anuga : JSON.value :=
  JSON.JObject [ (u "eventName", JSON.JString (u "Anuga"));
                 (u "date", JSON.JString (u "Oct 2027"));
                 (u "location", JSON.JString (u "Cologne"));
                 (u "type", JSON.JString (u "Exhibition")) ].

(** A well-formed fenced block in the narrative and, after the delimiter,
    an array with a trailing comma. *)
Definition fencedNarrative : jsstring :=
  q "```json [{'eventName':'Anuga','date':'Oct 2027','location':'Cologne','type':'Exhibition'}] ```".
Definition trailingCommaPart : jsstring := q "[{'eventName':'Anuga',}]".
Definition fencedThenMalformed : jsstring :=
  fencedNarrative ++ u " ___JSON_START___ " ++ trailingCommaPart.

(** A truncated object after the delimiter. *)
Definition truncatedPart : jsstring := q "[{'eventName':'Anuga','date':}]".

(** An array whose elements are not event records. *)
Definition offShapePart : jsstring := q "[{'name':'Anuga','eventName':7}, 12, {}]".
Definition offShapeText : jsstring :=
  u "Relevant EPC: APEDA ___JSON_START___ " ++ offShapePart.
Definition offShapeValue : JSON.value :=
  JSON.JArray [ JSON.JObject [ (u "name", JSON.JString (u "Anuga"));
                               (u "eventName", JSON.JNumber (u "7")) ];
                JSON.JNumber (u "12");
                JSON.JObject [] ].

(** An event record with one more field than the interface has. *)
Definition extraFieldPart : jsstring :=
  q "[{'eventName':'Anuga','date':'Oct 2027','location':'Cologne','type':'Exhibition','booth':'B12'}]".

Definition extraFieldObject : Shapes.Fields :=
  [ (u "eventName", u "Anuga"); (u "date", u "Oct 2027");
    (u "location", u "Cologne"); (u "type", u "Exhibition");
    (u "booth", u "B12") ].

(** A fenced block that holds a number. *)
Definition fencedNumber : jsstring := u "```json 42 ```".

(** Coordinates: 0 degrees north, 32 degrees east, and 25 north, 32 east. *)
Definition zero : number := S754_zero false.
Definition thirtyTwo : number := S754_finite false 4503599627370496 (-47).
Definition twentyFive : number := S754_finite false 7036874417766400 (-48).

(** A session that already holds a search, an analysis and a venue. *)
Definition oldSearch : SearchResult :=
  {| sr_text := u "Relevant EPC: APEDA"; structuredEvents := JSON.JArray [anuga];
     sr_groundingChunks := [] |}.
Definition oldAnalysis : AnalysisResult := {| ar_text := u "Attend Anuga." |}.
Definition oldVenue : MapResult :=
  {| mr_text := u "Koelnmesse, Cologne"; mr_groundingChunks := [] |}.

Definition session : State :=
  {| productQuery := u "Tea"; locationQuery := [];
     searchStatus := success; searchResult := Some oldSearch;
     analysisStatus := success; analysisResult := Some oldAnalysis;
     userProfile := u "First-time exporter";
     mapStatus := success; mapResult := Some oldVenue;
     selectedEventForMap := u "Anuga"; selectedType := u "Exhibition" |}.

(** A service that answers, and one whose every call fails. *)
Definition answering : Service :=
  fun _ => Normal {| text := Some twoDelimiters; groundingChunks := None |}.
Definition failing : Service := fun _ => Throw ExternalFailure.

Definition envOk : Env :=
  {| ai := answering; today := u "November 2, 2026";
     geolocation := geoUnavailable |}.
Definition envDown : Env :=
  {| ai := failing; today := u "November 2, 2026";
     geolocation := geoPosition zero thirtyTwo |}.

End Examples.

(* ================================================================== *)
(** * More of the pattern language: alternation, end of input, replace *)
(* ================================================================== *)

Module Pattern.
Import JS.

(** Patterns built over [RegExp.regex] with the two constructs the
    remaining patterns of the program need: [p|q] and the [$] assertion
    (without the [m] flag: the end of the input). *)
Inductive pattern :=
| Re (r : RegExp.regex)
| EndOfInput
| Alt (p q : pattern)
| Seq (p q : pattern).

Section Matcher.
Variable A : Type.

Fixpoint run (p : pattern) (s : jsstring) (caps : list jsstring)
         (k : jsstring -> list jsstring -> option A) : option A :=
  match p with
  | Re r => RegExp.run r s caps k
  | EndOfInput =>
      match s with
      | [] => k [] caps
      | _ :: _ => None
      end
  | Alt p1 p2 =>
      match run p1 s caps k with
      | Some x => Some x
      | None => run p2 s caps k
      end
  | Seq p1 p2 => run p1 s caps (fun s' caps' => run p2 s' caps' k)
  end.
End Matcher.
Arguments run {A} p s caps k.

Definition matchAt (p : pattern) (s : jsstring) : option RegExp.matchResult :=
  run p s [] (fun s' caps => Some (firstn (length s - length s') s, caps)).

(** [s.match(p)] without the [g] flag. *)
Fixpoint match_ (p : pattern) (s : jsstring) : option RegExp.matchResult :=
  match matchAt p s with
  | Some m => Some m
  | None =>
      match s with
      | [] => None
      | _ :: t => match_ p t
      end
  end.

(** The class [.]: every code unit but the four line terminators. *)
Definition dot (c : codeunit) : bool :=
  negb ((c =? 10) || (c =? 13) || (c =? 8232) || (c =? 8233)).

(** [\d] and [[\d-]] *)
Definition digit (c : codeunit) : bool := (48 <=? c) && (c <=? 57).
Definition digitOrDash (c : codeunit) : bool := digit c || (c =? 45).

(** A literal character under the [i] flag (without [u]).  Both sides are
    canonicalized by upper-casing, and a code unit above 127 is never
    canonicalized to one below 128: against an ASCII pattern character only
    the ASCII letters fold. *)
Definition foldCase (c : codeunit) : codeunit :=
  if (97 <=? c) && (c <=? 122) then c - 32 else c.

Definition chrI (x : codeunit) : RegExp.regex :=
  RegExp.Class (fun c => foldCase c =? foldCase x).

Fixpoint litI (s : jsstring) : RegExp.regex :=
  match s with
  | [] => RegExp.Eps
  | c :: t => RegExp.Cat (chrI c) (litI t)
  end.

(** [m[i]] where the group took part in the match, the empty string
    otherwise: what [$i] stands for in a replacement. *)
Definition group (m : RegExp.matchResult) (i : nat) : jsstring :=
  nth i (fst m :: snd m) [].

(** [s.replace(r, by)] for a pattern with the [g] flag: the matches are
    looked for from left to right, each search starting where the last
    match ended (one code unit further after an empty match); the text
    between matches is kept.  [skip] counts the code units of the current
    match still to be passed over. *)
Fixpoint replaceFrom (r : RegExp.regex) (by_ : RegExp.matchResult -> jsstring)
         (skip : nat) (s : jsstring) : jsstring :=
  match s with
  | [] =>
      match skip with
      | O =>
          match RegExp.matchAt r [] with
          | Some m => by_ m
          | None => []
          end
      | S _ => []
      end
  | c :: t =>
      match skip with
      | S k => replaceFrom r by_ k t
      | O =>
          match RegExp.matchAt r (c :: t) with
          | Some m =>
              by_ m ++ match length (fst m) with
                       | O => c :: replaceFrom r by_ 0 t
                       | S n => replaceFrom r by_ n t
                       end
          | None => c :: replaceFrom r by_ 0 t
          end
      end
  end.

Definition replaceAll (r : RegExp.regex) (by_ : RegExp.matchResult -> jsstring)
           (s : jsstring) : jsstring :=
  replaceFrom r by_ 0 s.

End Pattern.

(* ================================================================== *)
(** * utils/reportGenerator: the text of the report *)
(* ================================================================== *)

Module ReportContent.
Import JS.

(** [/\*\*(.*?)\*\*/g] *)
Definition boldPattern : RegExp.regex :=
  RegExp.Cat (RegExp.lit (u "**"))
 (RegExp.Cat (RegExp.Group (RegExp.Star false Pattern.dot))
             (RegExp.lit (u "**"))).

(** The three replacements of [cleanText], in the order they are made. *)
Definition stripBold (text : jsstring) : jsstring :=
  Pattern.replaceAll boldPattern (fun m => Pattern.group m 1) text.

Definition stripHashes2 (text : jsstring) : jsstring :=
  Pattern.replaceAll (RegExp.lit (u "##")) (fun _ => []) text.

Definition stripHashes3 (text : jsstring) : jsstring :=
  Pattern.replaceAll (RegExp.lit (u "###")) (fun _ => []) text.

Definition cleanText (text : jsstring) : jsstring :=
  trim (stripHashes3 (stripHashes2 (stripBold text))).

(** [/Relevant EPC: (.*?)(?:\n|$)/i] *)
Definition epcPattern : Pattern.pattern :=
  Pattern.Seq (Pattern.Re (Pattern.litI (u "Relevant EPC: ")))
 (Pattern.Seq (Pattern.Re (RegExp.Group (RegExp.Star false Pattern.dot)))
              (Pattern.Alt (Pattern.Re (RegExp.Chr 10)) Pattern.EndOfInput)).

(** [epcMatch ? epcMatch[1].trim() : "See Analysis"], in both generators. *)
Definition inferredEPC (eventsText : jsstring) : jsstring :=
  match Pattern.match_ epcPattern eventsText with
  | Some epcMatch => trim (Pattern.group epcMatch 1)
  | None => u "See Analysis"
  end.

(** The three paragraphs [createParagraphs] makes: [new Paragraph({})], a
    paragraph with [heading: HEADING_2] and the text, a paragraph with one
    12pt run of the text. *)
Inductive Paragraph :=
| EmptyLine
| Heading2 (text : jsstring)
| Body (text : jsstring).

Definition paragraphOf (line : jsstring) : Paragraph :=
  let cleanLine := cleanText line in
  match cleanLine with
  | [] => EmptyLine
  | _ :: _ =>
      if startsWith (u "##") (trim line) then Heading2 cleanLine
      else Body cleanLine
  end.

Definition createParagraphs (text : jsstring) : list Paragraph :=
  map paragraphOf (split [nl] text).

(** The body of a section of the PDF: for each line that is not blank, the
    call [addText(line, 11, line.startsWith('##'))], which prints
    [cleanText(line)], in bold or not. *)
Definition pdfBody (text : jsstring) : list (jsstring * bool) :=
  map (fun line => (cleanText line, startsWith (u "##") line))
      (filter (fun line => negb (JS.eqb (trim line) [])) (split [nl] text)).

End ReportContent.

(* ================================================================== *)
(** * App: what is derived from the narrative for display *)
(* ================================================================== *)

Module AppView.
Import JS Types.

(** [/^[\d-]+\.\s\*\*(.*?)\*\*/]; the pattern opens with [^] and is used
    without flags, so it is tried at the start of the line only. *)
Definition namePattern : RegExp.regex :=
  RegExp.Cat (RegExp.Class Pattern.digitOrDash)
 (RegExp.Cat (RegExp.Star true Pattern.digitOrDash)
 (RegExp.Cat (RegExp.Chr 46)
 (RegExp.Cat (RegExp.Class RegExp.space)
 (RegExp.Cat (RegExp.lit (u "**"))
 (RegExp.Cat (RegExp.Group (RegExp.Star false Pattern.dot))
             (RegExp.lit (u "**"))))))).

(** What one line adds to [potentialEvents]: [match[1]] when the line
    matches and the group is not empty. *)
Definition nameOfLine (line : jsstring) : list jsstring :=
  match RegExp.matchAt namePattern line with
  | Some m =>
      match Pattern.group m 1 with
      | [] => []
      | c :: t => [c :: t]
      end
  | None => []
  end.

Definition extractLikelyEventNames (text : jsstring) : list jsstring :=
  flat_map nameOfLine (split [nl] text).

(** [relevantEPC]: null without a search result or without a match. *)
Definition relevantEPC (searchResult : option SearchResult) : option jsstring :=
  match searchResult with
  | None => None
  | Some sr =>
      match Pattern.match_ ReportContent.epcPattern (sr_text sr) with
      | Some m => Some (trim (Pattern.group m 1))
      | None => None
      end
  end.


End AppView.

(* ================================================================== *)
(** * components/GroundingSources *)
(* ================================================================== *)

Module Sources.
Import JS Types.

Inductive SourceType := web_ | map_.

Record Link := { href : jsstring; label : jsstring }.

(** [type === 'web' ? c.web : c.maps], as the pair of the uri and title. *)
Definition dataOf (type : SourceType) (c : GroundingChunk)
  : option (jsstring * jsstring) :=
  match type with
  | web_ => option_map (fun w => (web_uri w, web_title w)) (web c)
  | map_ => option_map (fun m => (maps_uri m, maps_title m)) (maps c)
  end.

Definition isValid (type : SourceType) (c : GroundingChunk) : bool :=
  match dataOf type c with
  | Some _ => true
  | None => false
  end.

(** What the component renders: nothing ([null]), or a heading and the
    links, one for each chunk that has data of the requested kind. *)
Definition GroundingSources (chunks : list GroundingChunk) (type : SourceType)
  : option (jsstring * list Link) :=
  match chunks with
  | [] => None
  | _ :: _ =>
      let validChunks := filter (isValid type) chunks in
      match validChunks with
      | [] => None
      | _ :: _ =>
          Some (match type with
                | web_ => u "Verified Sources"
                | map_ => u "Location Data"
                end,
                flat_map (fun chunk =>
                            match dataOf type chunk with
                            | None => []
                            | Some (uri, title) =>
                                [{| href := uri;
                                    label := GeminiService.orString (Some title)
                                                                    (u "Source") |}]
                            end)
                         validChunks)
      end
  end.

End Sources.

(* ================================================================== *)
(** * More sample inputs *)
(* ================================================================== *)

Module Samples.
Import JS.



End Samples.

(* ================================================================== *)
(** * Words for the properties of this code *)
(* ================================================================== *)

Module Props.
Import JS.

(** No white space at either end. *)
Definition Trimmed (s : jsstring) : Prop :=
  (forall c t, s = c :: t -> isWhiteSpace c = false) /\
  (forall t c, s = t ++ [c] -> isWhiteSpace c = false).

(** No line terminator inside. *)
Definition OneLine (s : jsstring) : Prop :=
  Forall (fun c => Pattern.dot c = true) s.

Definition star_ : codeunit := 42.     (* the asterisk *)
Definition hash : codeunit := 35.      (* the number sign *)
Definition colon : codeunit := 58.

(** A line of a narrative, as the model is asked to write it: a numbered
    title in bold (a number of digits and dashes, a full stop, one white
    space other than the line feed, the name between double asterisks)
    with something behind it, or a line that does not open with a number
    and a full stop. *)
Inductive Line :=
| Title (number : jsstring) (blank : codeunit) (name rest : jsstring)
| Other (number rest : jsstring).

Definition lineText (l : Line) : jsstring :=
  match l with
  | Title number blank name rest =>
      number ++ [46; blank] ++ u "**" ++ name ++ u "**" ++ rest
  | Other number rest => number ++ rest
  end.

Definition GoodLine (l : Line) : Prop :=
  match l with
  | Title number blank name rest =>
      number <> [] /\ Forall (fun c => Pattern.digitOrDash c = true) number /\
      isWhiteSpace blank = true /\ blank <> nl /\
      name <> [] /\ ~ In star_ name /\ OneLine name /\ ~ In nl rest
  | Other number rest =>
      Forall (fun c => Pattern.digitOrDash c = true) number /\
      ~ In nl rest /\
      match rest with
      | [] => True
      | c :: _ => Pattern.digitOrDash c = false /\ c <> 46
      end
  end.

Definition nameOf (l : Line) : list jsstring :=
  match l with
  | Title _ _ name _ => [name]
  | Other _ _ => []
  end.

(** The texts of the paragraphs that have one. *)
Definition paragraphTexts (ps : list ReportContent.Paragraph) : list jsstring :=
  flat_map (fun p => match p with
                     | ReportContent.EmptyLine => []
                     | ReportContent.Heading2 t => [t]
                     | ReportContent.Body t => [t]
                     end) ps.

(** A text with bold spans: pieces of plain text, each followed by a span
    between double asterisks, and a last piece of plain text; and the same
    text without the asterisks. *)
Definition withBold (spans : list (jsstring * jsstring)) (last : jsstring)
  : jsstring :=
  flat_map (fun ab => fst ab ++ u "**" ++ snd ab ++ u "**") spans ++ last.

Definition withoutBold (spans : list (jsstring * jsstring)) (last : jsstring)
  : jsstring :=
  flat_map (fun ab => fst ab ++ snd ab) spans ++ last.

(** Neither an asterisk nor a number sign. *)
Definition NoMarks (s : jsstring) : Prop := ~ In star_ s /\ ~ In hash s.

(** A case variant of a text. *)
Definition SameUpToCase (a b : jsstring) : Prop :=
  Forall2 (fun x y => Pattern.foldCase x = Pattern.foldCase y) a b.

(** [s] opens with a case variant of [p]. *)
Fixpoint startsWithI (p s : jsstring) : bool :=
  match p, s with
  | [], _ => true
  | x :: p', c :: s' =>
      (Pattern.foldCase c =? Pattern.foldCase x) && startsWithI p' s'
  | _ :: _, [] => false
  end.

(** The label the narrative is asked to put before the council. *)
Definition epcLabel : jsstring := u "Relevant EPC: ".

(** The words every location filter opens with. *)
Definition filterOpening : jsstring :=
  u "CRITICAL INSTRUCTION: The user is ONLY interested in events taking place in or near ".

(** Some beginning of [m], neither empty nor the whole, ends [a]. *)
Definition endsWithBeginning (m a : jsstring) : bool :=
  existsb (fun k => startsWith (rev (firstn k m)) (rev a))
          (seq 1 (length m - 1)).

(** Some ending of [m], neither empty nor the whole, opens [b], or [b]
    opens it. *)
Definition opensWithEnding (m b : jsstring) : bool :=
  existsb (fun k => startsWith (skipn k m) b || startsWith b (skipn k m))
          (seq 1 (length m - 1)).

(** A line terminator other than the line feed. *)
Definition OtherTerminator (c : codeunit) : Prop :=
  Pattern.dot c = false /\ c <> nl.

End Props.

(* ================================================================== *)
(** * Properties of the string operations *)
(* ================================================================== *)

Import JS.

Lemma eqb_eq (a b : jsstring) : JS.eqb a b = true <-> a = b.
Proof.
  revert b; induction a as [|x a IH]; intros [|y b]; simpl;
    try (split; [discriminate | discriminate]); try tauto.
  rewrite andb_true_iff, N.eqb_eq, IH.
  split; [intros [-> ->]; reflexivity | intros H; inversion H; auto].
Qed.

Lemma startsWith_iff (p s : jsstring) :
  startsWith p s = true <-> exists t, s = p ++ t.
Proof.
  revert s; induction p as [|x p IH]; intros s; simpl.
  - split; [exists s; reflexivity | reflexivity].
  - destruct s as [|y s].
    + split; [discriminate | intros [t H]; discriminate].
    + rewrite andb_true_iff, N.eqb_eq, IH. split.
      * intros [-> [t ->]]. exists t; reflexivity.
      * intros [t H]. inversion H; subst. split; [reflexivity | exists t; reflexivity].
Qed.

Lemma startsWith_app (p t : jsstring) : startsWith p (p ++ t) = true.
Proof. apply startsWith_iff. exists t; reflexivity. Qed.

Lemma skipn_length_app (A : Type) (p t : list A) : skipn (length p) (p ++ t) = t.
Proof. induction p; simpl; auto. Qed.

Lemma breakOn_unfold (sep s : jsstring) :
  breakOn sep s =
  if startsWith sep s then Some ([], skipn (length sep) s)
  else match s with
       | [] => None
       | c :: t => match breakOn sep t with
                   | Some (a, b) => Some (c :: a, b)
                   | None => None
                   end
       end.
Proof. destruct s; reflexivity. Qed.

(** What [breakOn] returns is an occurrence, and the leftmost one. *)
Lemma breakOn_Some (sep s a b : jsstring) :
  breakOn sep s = Some (a, b) -> FirstAt sep a s /\ s = a ++ sep ++ b.
Proof.
  revert a b; induction s as [|c s IH]; intros a b; rewrite breakOn_unfold.
  - destruct (startsWith sep []) eqn:E; [|discriminate].
    intros H; inversion H; subst; clear H.
    apply startsWith_iff in E. destruct E as [t E].
    symmetry in E. apply app_eq_nil in E. destruct E as [-> ->].
    simpl. split; [split; [exists []; reflexivity | simpl; intros; lia] | reflexivity].
  - destruct (startsWith sep (c :: s)) eqn:E.
    + intros H; inversion H; subst; clear H.
      apply startsWith_iff in E. destruct E as [t E]. rewrite E.
      rewrite skipn_length_app. simpl.
      split; [split; [exists t; reflexivity | simpl; intros; lia] | reflexivity].
    + destruct (breakOn sep s) as [[a' b']|] eqn:B; [|discriminate].
      intros H; inversion H; subst; clear H.
      destruct (IH a' b eq_refl) as [[_ Hfirst] Heq].
      split; [split|].
      * exists b. simpl. f_equal. exact Heq.
      * intros [|i] Hi; simpl; [exact E|]. apply Hfirst. simpl in Hi; lia.
      * simpl. f_equal. exact Heq.
Qed.

Lemma breakOn_None (sep s : jsstring) :
  breakOn sep s = None <-> ~ Occurs sep s.
Proof.
  split.
  - induction s as [|c s IH]; rewrite breakOn_unfold.
    + destruct (startsWith sep []) eqn:E; [discriminate|].
      intros _ [pre [post H]].
      destruct pre; simpl in H; [|discriminate].
      assert (startsWith sep [] = true) by (apply startsWith_iff; eauto).
      congruence.
    + destruct (startsWith sep (c :: s)) eqn:E; [discriminate|].
      destruct (breakOn sep s) as [[a b]|] eqn:B; [discriminate|].
      intros _ [pre [post H]].
      destruct pre as [|x pre]; simpl in H.
      * assert (startsWith sep (c :: s) = true) by (apply startsWith_iff; eauto).
        congruence.
      * inversion H; subst. apply IH; [reflexivity|]. exists pre, post; reflexivity.
  - intros Hn. destruct (breakOn sep s) as [[a b]|] eqn:B; [|reflexivity].
    exfalso. apply Hn. apply breakOn_Some in B. destruct B as [_ ->].
    exists a, b; reflexivity.
Qed.

(** The leftmost occurrence is the one [breakOn] returns. *)
Lemma breakOn_FirstAt (sep pre post : jsstring) :
  FirstAt sep pre (pre ++ sep ++ post) ->
  breakOn sep (pre ++ sep ++ post) = Some (pre, post).
Proof.
  induction pre as [|c pre IH]; intros [_ Hfirst]; rewrite breakOn_unfold.
  - simpl. rewrite startsWith_app, skipn_length_app. reflexivity.
  - assert (E : startsWith sep ((c :: pre) ++ sep ++ post) = false)
      by (apply (Hfirst 0%nat); simpl; lia).
    rewrite E. simpl. rewrite IH; [reflexivity|].
    split; [exists post; reflexivity|].
    intros i Hi. apply (Hfirst (S i)). simpl; lia.
Qed.

Lemma breakOn_shorter (sep s a b : jsstring) :
  sep <> [] -> breakOn sep s = Some (a, b) -> (length b < length s)%nat.
Proof.
  intros Hsep B. apply breakOn_Some in B. destruct B as [_ ->].
  rewrite !length_app. destruct sep; [congruence|]. simpl. lia.
Qed.

(** Fuel above the length of the text is never used up. *)
Lemma split_fuel_enough (sep : jsstring) :
  sep <> [] ->
  forall n m s, (length s < n)%nat -> (length s < m)%nat ->
                split_fuel n sep s = split_fuel m sep s.
Proof.
  intros Hsep. induction n as [|n IH]; intros m s Hn Hm; [lia|].
  destruct m as [|m]; [lia|]. simpl.
  destruct (breakOn sep s) as [[a b]|] eqn:B; [|reflexivity].
  pose proof (breakOn_shorter sep s a b Hsep B).
  f_equal. apply IH; lia.
Qed.

Lemma split_unfold (sep s : jsstring) :
  sep <> [] ->
  split sep s = match breakOn sep s with
                | None => [s]
                | Some (a, rest) => a :: split sep rest
                end.
Proof.
  intros Hsep. unfold split at 1. simpl.
  destruct (breakOn sep s) as [[a b]|] eqn:B; [|reflexivity].
  pose proof (breakOn_shorter sep s a b Hsep B).
  f_equal. apply split_fuel_enough; auto; lia.
Qed.

Lemma split_nonempty (sep s : jsstring) : split sep s <> [].
Proof.
  unfold split. simpl. destruct (breakOn sep s) as [[a b]|]; discriminate.
Qed.

Lemma delimiter_nonempty : GeminiService.delimiter <> [].
Proof. discriminate. Qed.

(* ================================================================== *)
(** * The matcher finds exactly what the patterns denote *)
(* ================================================================== *)

Section MatcherCorrect.
Import RegExp.
Variable A : Type.

Lemma star_sound g p s (k : jsstring -> option A) x :
  star g p s k = Some x ->
  exists w s', s = w ++ s' /\ Forall (fun c => p c = true) w /\ k s' = Some x.
Proof.
  induction s as [|c t IH]; simpl.
  - intros H. exists [], []. auto.
  - destruct (p c) eqn:Pc.
    + assert (Hrec : star g p t k = Some x ->
                     exists w s', c :: t = w ++ s' /\
                                  Forall (fun c => p c = true) w /\ k s' = Some x).
      { intros H. destruct (IH H) as [w [s' [-> [Hw Hk]]]].
        exists (c :: w), s'. auto. }
      assert (Hhere : k (c :: t) = Some x ->
                      exists w s', c :: t = w ++ s' /\
                                   Forall (fun c => p c = true) w /\ k s' = Some x).
      { intros H. exists [], (c :: t). auto. }
      destruct g.
      * destruct (star true p t k) eqn:E; intros H.
        -- inversion H; subst. auto.
        -- auto.
      * destruct (k (c :: t)) eqn:E; intros H.
        -- inversion H; subst. auto.
        -- auto.
    + intros H. exists [], (c :: t). auto.
Qed.

Lemma star_here g p s (k : jsstring -> option A) :
  k s <> None -> star g p s k <> None.
Proof.
  destruct s as [|c t]; simpl; auto.
  intros H. destruct (p c); auto.
  destruct g.
  - destruct (star true p t k); [discriminate | exact H].
  - destruct (k (c :: t)); [discriminate | congruence].
Qed.

Lemma star_complete g p w s (k : jsstring -> option A) :
  Forall (fun c => p c = true) w -> k s <> None -> star g p (w ++ s) k <> None.
Proof.
  induction 1 as [|c w Pc Hw IH]; intros Hk; simpl.
  - apply star_here; exact Hk.
  - rewrite Pc. specialize (IH Hk). destruct g.
    + destruct (star true p (w ++ s) k); [discriminate | congruence].
    + destruct (k (c :: w ++ s)); [discriminate | exact IH].
Qed.

(** Whatever the matcher hands to its continuation lies behind a word of
    the pattern. *)
Lemma run_sound r :
  forall s caps (k : jsstring -> list jsstring -> option A) x,
    run r s caps k = Some x ->
    exists w s' caps', s = w ++ s' /\ Matches r w /\ k s' caps' = Some x.
Proof.
  induction r as [| c | p | g p | r1 IH1 r2 IH2 | r IH]; intros s caps k x; simpl.
  - intros H. exists [], s, caps. repeat split; auto. constructor.
  - destruct s as [|y t]; [discriminate|].
    destruct (N.eqb_spec y c); [|discriminate]. subst.
    intros H. exists [c], t, caps. repeat split; auto. constructor.
  - destruct s as [|y t]; [discriminate|].
    destruct (p y) eqn:Py; [|discriminate].
    intros H. exists [y], t, caps. repeat split; auto. constructor; exact Py.
  - intros H. apply star_sound in H. destruct H as [w [s' [-> [Hw Hk]]]].
    exists w, s', caps. repeat split; auto. constructor; exact Hw.
  - intros H. apply IH1 in H. destruct H as [w1 [s1 [caps1 [-> [M1 H]]]]].
    apply IH2 in H. destruct H as [w2 [s2 [caps2 [-> [M2 H]]]]].
    exists (w1 ++ w2), s2, caps2. rewrite <- app_assoc.
    repeat split; auto. constructor; assumption.
  - intros H. apply IH in H. destruct H as [w [s' [caps' [-> [M H]]]]].
    exists w, s'. eexists. repeat split; [|exact H]. constructor; exact M.
Qed.

(** If a word of the pattern is followed by text the continuation accepts,
    the matcher succeeds. *)
Lemma run_complete r w :
  Matches r w ->
  forall s caps (k : jsstring -> list jsstring -> option A),
    (forall caps', k s caps' <> None) -> run r (w ++ s) caps k <> None.
Proof.
  induction 1 as [| c | p c Pc | g p w Hw | r1 r2 w1 w2 M1 IH1 M2 IH2 | r w M IH];
    intros s caps k Hk; simpl.
  - apply Hk.
  - rewrite N.eqb_refl. apply Hk.
  - rewrite Pc. apply Hk.
  - apply star_complete; [exact Hw | apply Hk].
  - rewrite <- app_assoc. apply IH1. intros caps'. apply IH2. exact Hk.
  - apply IH. intros caps'. apply Hk.
Qed.

End MatcherCorrect.

Lemma firstn_length_diff (A : Type) (w s : list A) :
  firstn (length (w ++ s) - length s) (w ++ s) = w.
Proof.
  rewrite length_app. replace (length w + length s - length s)%nat with (length w) by lia.
  rewrite firstn_app, Nat.sub_diag, firstn_all. simpl. apply app_nil_r.
Qed.

Lemma matchAt_sound r s m :
  RegExp.matchAt r s = Some m ->
  exists post, s = fst m ++ post /\ RegExp.Matches r (fst m).
Proof.
  unfold RegExp.matchAt. intros H.
  apply run_sound in H. destruct H as [w [s' [caps' [-> [M H]]]]].
  inversion H; subst; clear H. simpl. rewrite firstn_length_diff.
  exists s'. auto.
Qed.

Lemma matchAt_complete r w post :
  RegExp.Matches r w -> RegExp.matchAt r (w ++ post) <> None.
Proof.
  intros M. unfold RegExp.matchAt. apply run_complete; [exact M | discriminate].
Qed.

(** [s.match(r)] returns a piece of [s] that the pattern denotes ... *)
Lemma match_sound r s m :
  RegExp.match_ r s = Some m ->
  exists pre post, s = pre ++ fst m ++ post /\ RegExp.Matches r (fst m).
Proof.
  induction s as [|c t IH]; simpl.
  - destruct (RegExp.matchAt r []) eqn:E; [|discriminate].
    intros H; inversion H; subst. apply matchAt_sound in E.
    destruct E as [post [E M]]. exists [], post. auto.
  - destruct (RegExp.matchAt r (c :: t)) eqn:E.
    + intros H; inversion H; subst. apply matchAt_sound in E.
      destruct E as [post [E M]]. exists [], post. auto.
    + intros H. destruct (IH H) as [pre [post [-> M]]].
      exists (c :: pre), post. auto.
Qed.

(** ... and returns [null] only when no piece of [s] is one. *)
Lemma match_complete r pre w post :
  RegExp.Matches r w -> RegExp.match_ r (pre ++ w ++ post) <> None.
Proof.
  intros M. induction pre as [|c pre IH]; simpl.
  - pose proof (matchAt_complete r w post M) as H.
    destruct (w ++ post); simpl;
      destruct (RegExp.matchAt r _); congruence.
  - destruct (RegExp.matchAt r (c :: pre ++ w ++ post)); [discriminate | exact IH].
Qed.

Lemma match_None_iff r s :
  RegExp.match_ r s = None <->
  forall pre w post, s = pre ++ w ++ post -> ~ RegExp.Matches r w.
Proof.
  split.
  - intros H pre w post -> M. exact (match_complete r pre w post M H).
  - intros H. destruct (RegExp.match_ r s) as [m|] eqn:E; [|reflexivity].
    apply match_sound in E. destruct E as [pre [post [E M]]].
    exfalso. exact (H pre (fst m) post E M).
Qed.

(* ================================================================== *)
(** * JSON.parse: the descent terminates within its fuel *)
(* ================================================================== *)

Section ParserFacts.
Import JSON.

Lemma skipWs_length s : (length (skipWs s) <= length s)%nat.
Proof. induction s as [|c t IH]; simpl; [lia|]. destruct (isWs c); simpl; lia. Qed.

Lemma skipWs_cons s c t : skipWs s = c :: t -> (length t < length s)%nat.
Proof. intros H. pose proof (skipWs_length s) as L. rewrite H in L. simpl in L. lia. Qed.

Lemma skipDigits_length s : (length (skipDigits s) <= length s)%nat.
Proof. induction s as [|c t IH]; simpl; [lia|]. destruct (isDigit c); simpl; lia. Qed.

Lemma stringBody_shorter n :
  forall s acc str rest,
    (length s <= n)%nat -> stringBody s acc = Some (str, rest) ->
    (length rest < length s)%nat.
Proof.
  induction n as [|n IH]; intros s acc str rest Hn.
  - destruct s; [discriminate | simpl in Hn; lia].
  - destruct s as [|c t]; [discriminate|]. simpl in Hn. simpl.
    destruct (c =? 34).
    { intros H; inversion H; subst. lia. }
    destruct (c =? 92).
    { destruct t as [|e t']; [discriminate|]. simpl in Hn.
      destruct (e =? 117).
      - destruct t' as [|h1 [|h2 [|h3 [|h4 t'']]]]; try discriminate.
        destruct (hex4 h1 h2 h3 h4); [|discriminate].
        intros H. apply IH in H; simpl in *; lia.
      - destruct (escape e); [|discriminate].
        intros H. apply IH in H; simpl in *; lia. }
    destruct (c <? 32); [discriminate|].
    intros H. apply IH in H; lia.
Qed.

Lemma numberRest_shorter s rest :
  numberRest s = Some rest -> (length rest < length s)%nat.
Proof.
  unfold numberRest.
  set (s1 := match s with c :: t => if c =? 45 then t else s | [] => s end).
  assert (L1 : (length s1 <= length s)%nat).
  { subst s1. destruct s as [|c t]; simpl; [lia|]. destruct (c =? 45); simpl; lia. }
  clearbody s1.
  destruct s1 as [|c t]; [discriminate|]. simpl in L1.
  set (afterInt := if c =? 48 then Some t
                   else if isDigit c then Some (skipDigits t) else None).
  assert (L2 : forall s2, afterInt = Some s2 -> (length s2 < length s)%nat).
  { subst afterInt. intros s2. pose proof (skipDigits_length t) as SD.
    destruct (c =? 48); [intros H; inversion H; subst; lia|].
    destruct (isDigit c); [intros H; inversion H; subst; lia | discriminate]. }
  clearbody afterInt.
  destruct afterInt as [s2|]; [|discriminate].
  specialize (L2 s2 eq_refl).
  set (afterFrac := match s2 with
                    | c0 :: t0 =>
                        if c0 =? 46 then
                          match t0 with
                          | d :: _ => if isDigit d then Some (skipDigits t0) else None
                          | [] => None
                          end
                        else Some s2
                    | [] => Some s2
                    end).
  assert (L3 : forall s3, afterFrac = Some s3 -> (length s3 <= length s2)%nat).
  { subst afterFrac. intros s3. destruct s2 as [|c0 t0].
    - intros H; inversion H; subst; lia.
    - destruct (c0 =? 46).
      + destruct t0 as [|d t1]; [discriminate|].
        destruct (isDigit d); [|discriminate].
        pose proof (skipDigits_length (d :: t1)) as SD.
        intros H; inversion H; subst. simpl in *; lia.
      + intros H; inversion H; subst; lia. }
  clearbody afterFrac.
  destruct afterFrac as [s3|]; [|discriminate].
  specialize (L3 s3 eq_refl).
  destruct s3 as [|c3 t3].
  - intros H; inversion H; subst. simpl in *; lia.
  - destruct ((c3 =? 101) || (c3 =? 69)).
    + set (t1 := match t3 with
                 | g :: t' => if (g =? 43) || (g =? 45) then t' else t3
                 | [] => t3
                 end).
      assert (L4 : (length t1 <= length t3)%nat).
      { subst t1. destruct t3 as [|g t']; simpl; [lia|].
        destruct ((g =? 43) || (g =? 45)); simpl; lia. }
      clearbody t1.
      destruct t1 as [|d t4]; [discriminate|].
      destruct (isDigit d); [|discriminate].
      pose proof (skipDigits_length (d :: t4)) as SD.
      intros H; inversion H; subst. simpl in *; lia.
    + intros H; inversion H; subst. simpl in *; lia.
Qed.

Lemma skipn_shorter (k : nat) (s : jsstring) :
  (0 < k)%nat -> s <> [] -> (length (skipn k s) < length s)%nat.
Proof.
  intros Hk Hs. rewrite length_skipn. destruct s; [congruence|]. cbn [length]. lia.
Qed.

Lemma parseLiteral_shorter s v r :
  parseLiteral s = POk v r -> (length r < length s)%nat.
Proof.
  unfold parseLiteral. destruct s as [|c t]; [discriminate|].
  destruct (c =? 34).
  { destruct (stringBody t []) as [[str rest]|] eqn:E; [|discriminate].
    intros H; inversion H; subst.
    apply (stringBody_shorter (length t)) in E; simpl; lia. }
  destruct (startsWith (u "true") (c :: t)).
  { intros H. replace r with (skipn 4 (c :: t)) by congruence.
    apply skipn_shorter; [lia | discriminate]. }
  destruct (startsWith (u "false") (c :: t)).
  { intros H. replace r with (skipn 5 (c :: t)) by congruence.
    apply skipn_shorter; [lia | discriminate]. }
  destruct (startsWith (u "null") (c :: t)).
  { intros H. replace r with (skipn 4 (c :: t)) by congruence.
    apply skipn_shorter; [lia | discriminate]. }
  destruct (numberRest (c :: t)) as [rest|] eqn:E; [|discriminate].
  intros H; inversion H; subst. apply numberRest_shorter in E. exact E.
Qed.

Lemma parseLiteral_fuel s : parseLiteral s <> PFuel.
Proof.
  unfold parseLiteral. destruct s as [|c t]; [discriminate|].
  destruct (c =? 34).
  { destruct (stringBody t []) as [[str rest]|]; discriminate. }
  destruct (startsWith (u "true") (c :: t)); [discriminate|].
  destruct (startsWith (u "false") (c :: t)); [discriminate|].
  destruct (startsWith (u "null") (c :: t)); [discriminate|].
  destruct (numberRest (c :: t)); discriminate.
Qed.

(** Every value read consumes at least one character. *)
Lemma parse_shorter f :
  (forall s v r, parseValue f s = POk v r -> (length r < length s)%nat) /\
  (forall s acc v r, parseElements f s acc = POk v r -> (length r < length s)%nat) /\
  (forall s acc v r, parseMembers f s acc = POk v r -> (length r < length s)%nat).
Proof.
  induction f as [|f [IHv [IHe IHm]]]; [repeat split; intros; discriminate|].
  repeat split.
  - intros s v r. cbn [parseValue].
    destruct (skipWs s) as [|c t] eqn:W; [discriminate|].
    apply skipWs_cons in W.
    destruct (c =? 123).
    { destruct (skipWs t) as [|c' t'] eqn:W'; [discriminate|].
      apply skipWs_cons in W'.
      destruct (c' =? 125); [intros H; inversion H; subst; lia|].
      intros H. apply IHm in H. simpl in H. lia. }
    destruct (c =? 91).
    { destruct (skipWs t) as [|c' t'] eqn:W'; [discriminate|].
      apply skipWs_cons in W'.
      destruct (c' =? 93); [intros H; inversion H; subst; lia|].
      intros H. apply IHe in H. simpl in H. lia. }
    intros H. apply parseLiteral_shorter in H. simpl in H. lia.
  - intros s acc v r. cbn [parseElements].
    destruct (parseValue f s) as [v0 rest| |] eqn:V; try discriminate.
    apply IHv in V.
    destruct (skipWs rest) as [|c t] eqn:W; [discriminate|].
    apply skipWs_cons in W.
    destruct (c =? 44); [intros H; apply IHe in H; lia|].
    destruct (c =? 93); [|discriminate].
    intros H; inversion H; subst; lia.
  - intros s acc v r. cbn [parseMembers].
    destruct (skipWs s) as [|c t] eqn:W; [discriminate|].
    apply skipWs_cons in W.
    destruct (c =? 34); [|discriminate].
    destruct (stringBody t []) as [[key rest]|] eqn:B; [|discriminate].
    apply (stringBody_shorter (length t)) in B; [|lia].
    destruct (skipWs rest) as [|c1 t1] eqn:W1; [discriminate|].
    apply skipWs_cons in W1.
    destruct (c1 =? 58); [|discriminate].
    destruct (parseValue f t1) as [v0 rest2| |] eqn:V; try discriminate.
    apply IHv in V.
    destruct (skipWs rest2) as [|c2 t2] eqn:W2; [discriminate|].
    apply skipWs_cons in W2.
    destruct (c2 =? 44); [intros H; apply IHm in H; lia|].
    destruct (c2 =? 125); [|discriminate].
    intros H; inversion H; subst; lia.
Qed.

(** Twice the length of the text, and a little, is fuel enough. *)
Lemma parse_fuel f :
  (forall s, (2 * length s + 1 <= f)%nat -> parseValue f s <> PFuel) /\
  (forall s acc, (2 * length s + 2 <= f)%nat -> parseElements f s acc <> PFuel) /\
  (forall s acc, (2 * length s + 2 <= f)%nat -> parseMembers f s acc <> PFuel).
Proof.
  induction f as [|f [IHv [IHe IHm]]]; [repeat split; intros; lia|].
  destruct (parse_shorter f) as [Sv [Se Sm]].
  repeat split.
  - intros s Hf. cbn [parseValue].
    destruct (skipWs s) as [|c t] eqn:W; [discriminate|].
    apply skipWs_cons in W.
    destruct (c =? 123).
    { destruct (skipWs t) as [|c' t'] eqn:W'; [discriminate|].
      apply skipWs_cons in W'.
      destruct (c' =? 125); [discriminate|].
      apply IHm. simpl. lia. }
    destruct (c =? 91).
    { destruct (skipWs t) as [|c' t'] eqn:W'; [discriminate|].
      apply skipWs_cons in W'.
      destruct (c' =? 93); [discriminate|].
      apply IHe. simpl. lia. }
    apply parseLiteral_fuel.
  - intros s acc Hf. cbn [parseElements].
    destruct (parseValue f s) as [v0 rest| |] eqn:V; [|discriminate|].
    + apply Sv in V.
      destruct (skipWs rest) as [|c t] eqn:W; [discriminate|].
      apply skipWs_cons in W.
      destruct (c =? 44); [apply IHe; lia|].
      destruct (c =? 93); discriminate.
    + exfalso. revert V. apply IHv. lia.
  - intros s acc Hf. cbn [parseMembers].
    destruct (skipWs s) as [|c t] eqn:W; [discriminate|].
    apply skipWs_cons in W.
    destruct (c =? 34); [|discriminate].
    destruct (stringBody t []) as [[key rest]|] eqn:B; [|discriminate].
    apply (stringBody_shorter (length t)) in B; [|lia].
    destruct (skipWs rest) as [|c1 t1] eqn:W1; [discriminate|].
    apply skipWs_cons in W1.
    destruct (c1 =? 58); [|discriminate].
    destruct (parseValue f t1) as [v0 rest2| |] eqn:V; [|discriminate|].
    + apply Sv in V.
      destruct (skipWs rest2) as [|c2 t2] eqn:W2; [discriminate|].
      apply skipWs_cons in W2.
      destruct (c2 =? 44); [apply IHm; lia|].
      destruct (c2 =? 125); discriminate.
    + exfalso. revert V. apply IHv. lia.
Qed.

(** [JSON.parse] returns a value or throws a SyntaxError, nothing else. *)
Lemma parse_total text :
  (exists v, parse text = Normal v) \/ parse text = Throw SyntaxError.
Proof.
  unfold parse.
  destruct (parseValue (fuelFor text) text) as [v rest| |] eqn:E.
  - destruct (skipWs rest); [left; exists v; reflexivity | right; reflexivity].
  - right; reflexivity.
  - exfalso. revert E. apply (parse_fuel (fuelFor text)). unfold fuelFor. lia.
Qed.

Lemma parseElements_array f :
  forall s acc v r, parseElements f s acc = POk v r -> exists xs, v = JArray xs.
Proof.
  induction f as [|f IH]; intros s acc v r; [discriminate|].
  cbn [parseElements].
  destruct (parseValue f s) as [v0 rest| |]; try discriminate.
  destruct (skipWs rest) as [|c t]; [discriminate|].
  destruct (c =? 44); [apply IH|].
  destruct (c =? 93); [|discriminate].
  intros H; inversion H; subst. eauto.
Qed.

(** A text that opens with a bracket parses to an array, if it parses. *)
Lemma parse_bracket t v :
  parse (91 :: t) = Normal v -> exists xs, v = JArray xs.
Proof.
  assert (F : fuelFor (91 :: t) = S (2 * length t + 3))
    by (unfold fuelFor; change (length (91 :: t)) with (S (length t)); lia).
  unfold parse. rewrite F.
  cbn [parseValue]. change (skipWs (91 :: t)) with (91 :: t).
  assert (E1 : (91 =? 123) = false) by reflexivity.
  assert (E2 : (91 =? 91) = true) by reflexivity.
  cbv beta iota. rewrite E1, E2.
  destruct (skipWs t) as [|c' t']; [discriminate|].
  destruct (c' =? 93).
  - destruct (skipWs t'); [|discriminate]. intros H; inversion H; eauto.
  - destruct (parseElements _ _ _) as [v0 rest| |] eqn:E; try discriminate.
    apply parseElements_array in E. destruct E as [xs ->].
    destruct (skipWs rest); [|discriminate]. intros H; inversion H; eauto.
Qed.

End ParserFacts.

Section FuelIrrelevant.
Import JSON.

(** More fuel never changes an answer that was not a lack of fuel. *)
Lemma parse_fuel_monotone f :
  (forall s f', (f <= f')%nat -> parseValue f s <> PFuel ->
                parseValue f' s = parseValue f s) /\
  (forall s acc f', (f <= f')%nat -> parseElements f s acc <> PFuel ->
                    parseElements f' s acc = parseElements f s acc) /\
  (forall s acc f', (f <= f')%nat -> parseMembers f s acc <> PFuel ->
                    parseMembers f' s acc = parseMembers f s acc).
Proof.
  induction f as [|f [IHv [IHe IHm]]];
    [repeat split; intros; cbn in *; congruence|].
  repeat split.
  - intros s [|f'] Hle; [lia|]. cbn [parseValue].
    destruct (skipWs s) as [|c t]; [reflexivity|].
    destruct (c =? 123).
    { destruct (skipWs t) as [|c' t']; [reflexivity|].
      destruct (c' =? 125); [reflexivity|].
      intros H. apply IHm; [lia | exact H]. }
    destruct (c =? 91); [|reflexivity].
    destruct (skipWs t) as [|c' t']; [reflexivity|].
    destruct (c' =? 93); [reflexivity|].
    intros H. apply IHe; [lia | exact H].
  - intros s acc [|f'] Hle; [lia|]. cbn [parseElements].
    destruct (parseValue f s) as [v rest| |] eqn:V; [| |congruence].
    + rewrite (IHv s f') by (try lia; congruence). rewrite V.
      destruct (skipWs rest) as [|c t]; [reflexivity|].
      destruct (c =? 44); [|reflexivity].
      intros H. apply IHe; [lia | exact H].
    + rewrite (IHv s f') by (try lia; congruence). rewrite V. reflexivity.
  - intros s acc [|f'] Hle; [lia|]. cbn [parseMembers].
    destruct (skipWs s) as [|c t]; [reflexivity|].
    destruct (c =? 34); [|reflexivity].
    destruct (stringBody t []) as [[key rest]|]; [|reflexivity].
    destruct (skipWs rest) as [|c1 t1]; [reflexivity|].
    destruct (c1 =? 58); [|reflexivity].
    destruct (parseValue f t1) as [v rest2| |] eqn:V; [| |congruence].
    + rewrite (IHv t1 f') by (try lia; congruence). rewrite V.
      destruct (skipWs rest2) as [|c2 t2]; [reflexivity|].
      destruct (c2 =? 44); [|reflexivity].
      intros H. apply IHm; [lia | exact H].
    + rewrite (IHv t1 f') by (try lia; congruence). rewrite V. reflexivity.
Qed.

(** A value read with some fuel is the value [JSON.parse] reads. *)
Lemma parse_with_any_fuel f text v rest :
  parseValue f text = POk v rest -> skipWs rest = [] -> parse text = Normal v.
Proof.
  intros V W. unfold parse.
  destruct (parse_fuel_monotone f) as [Mf _].
  destruct (parse_fuel_monotone (fuelFor text)) as [Mt _].
  destruct (Nat.le_ge_cases f (fuelFor text)) as [L | L].
  - rewrite (Mf text (fuelFor text) L) by congruence. rewrite V, W. reflexivity.
  - assert (N : parseValue (fuelFor text) text <> PFuel)
      by (apply (parse_fuel (fuelFor text)); unfold fuelFor; lia).
    rewrite <- (Mt text f L N). rewrite V, W. reflexivity.
Qed.

End FuelIrrelevant.

(* ================================================================== *)
(** * The response splitter *)
(* ================================================================== *)

Section Splitter.
Import GeminiService.

Lemma includes_iff sep s : includes sep s = true <-> Occurs sep s.
Proof.
  unfold includes. destruct (breakOn sep s) as [[a b]|] eqn:B.
  - apply breakOn_Some in B. destruct B as [_ ->].
    split; [intros _; exists a, b; reflexivity | reflexivity].
  - apply breakOn_None in B. split; [discriminate | tauto].
Qed.

Lemma includes_false sep s : includes sep s = false <-> ~ Occurs sep s.
Proof.
  rewrite <- includes_iff. destruct (includes sep s); split; congruence.
Qed.

(** A leftmost occurrence, decided by running the search. *)
Lemma FirstAt_by_search sep pre post :
  breakOn sep (pre ++ sep ++ post) = Some (pre, post) ->
  FirstAt sep pre (pre ++ sep ++ post).
Proof. intros B. apply breakOn_Some in B. tauto. Qed.

Lemma splitResponse_one (fullText : jsstring) :
  breakOn delimiter fullText = None ->
  splitResponse fullText = Normal (trim fullText, []).
Proof.
  intros B. unfold splitResponse, split. cbn [split_fuel]. rewrite B.
  reflexivity.
Qed.

Lemma splitResponse_two (fullText a rest b rest' : jsstring) :
  breakOn delimiter fullText = Some (a, rest) ->
  breakOn delimiter rest = Some (b, rest') ->
  splitResponse fullText = Normal (trim a, trim b).
Proof.
  intros B1 B2. unfold splitResponse.
  rewrite (split_unfold _ _ delimiter_nonempty), B1.
  rewrite (split_unfold _ _ delimiter_nonempty), B2.
  reflexivity.
Qed.

Lemma splitResponse_one_delimiter (fullText a rest : jsstring) :
  breakOn delimiter fullText = Some (a, rest) ->
  breakOn delimiter rest = None ->
  splitResponse fullText = Normal (trim a, trim rest).
Proof.
  intros B1 B2. unfold splitResponse.
  rewrite (split_unfold _ _ delimiter_nonempty), B1.
  rewrite (split_unfold _ _ delimiter_nonempty), B2.
  reflexivity.
Qed.

(** The splitter never throws: the first piece of a split always exists. *)
Lemma splitResponse_total (fullText : jsstring) :
  exists displayText jsonPart,
    splitResponse fullText = Normal (displayText, jsonPart).
Proof.
  destruct (breakOn delimiter fullText) as [[a rest]|] eqn:B1.
  - destruct (breakOn delimiter rest) as [[b rest']|] eqn:B2.
    + eexists _, _. eapply splitResponse_two; eauto.
    + eexists _, _. eapply splitResponse_one_delimiter; eauto.
  - eexists _, _. apply splitResponse_one; exact B1.
Qed.

End Splitter.

(** C9. For a reply in which the delimiter ___JSON_START___ does not occur,
    the splitter returns normally (no exception for the missing delimiter),
    the structured part is the empty string and the narrative part is the
    whole reply with leading and trailing white space removed. *)
Theorem split_without_delimiter (fullText : jsstring) :
  ~ Occurs GeminiService.delimiter fullText ->
  GeminiService.splitResponse fullText = Normal (trim fullText, []).
Proof.
  intros H. apply splitResponse_one. apply breakOn_None. exact H.
Qed.

Lemma split_without_delimiter_witness :
  ~ Occurs GeminiService.delimiter Examples.narrativeOnly /\
  GeminiService.splitResponse Examples.narrativeOnly
  = Normal (u "Relevant EPC: APEDA. 1. Gulfood 2027, Dubai", []).
Proof.
  assert (H : ~ Occurs GeminiService.delimiter Examples.narrativeOnly)
    by (apply includes_false; vm_compute; reflexivity).
  split; [exact H|].
  exact (split_without_delimiter Examples.narrativeOnly H).
Defined.

(** C10. When the delimiter occurs two or more times -- first after [a],
    and in what follows first after [b] -- the narrative part is [a]
    trimmed, the structured part is [b] trimmed, and nothing of the text [c]
    after the second occurrence is in either part.  The fenced-block fallback
    is given the full text, [c] included, when the structured part holds no
    array-shaped piece. *)
Theorem split_with_two_delimiters (a b c : jsstring) :
  let d := GeminiService.delimiter in
  let fullText := a ++ d ++ b ++ d ++ c in
  FirstAt d a fullText ->
  FirstAt d b (b ++ d ++ c) ->
  GeminiService.splitResponse fullText = Normal (trim a, trim b) /\
  (RegExp.match_ GeminiService.arrayPattern (trim b) = None ->
   GeminiService.extractEvents (trim b) fullText
   = GeminiService.codeBlockFallback (JSON.JArray []) fullText).
Proof.
  intros d fullText H1 H2. split.
  - apply (splitResponse_two fullText a (b ++ d ++ c) b c).
    + apply breakOn_FirstAt. exact H1.
    + apply breakOn_FirstAt. exact H2.
  - intros M. unfold GeminiService.extractEvents. rewrite M. reflexivity.
Qed.

Lemma split_with_two_delimiters_witness :
  GeminiService.splitResponse Examples.twoDelimiters
  = Normal (u "Relevant EPC: APEDA", u "no array here") /\
  GeminiService.extractEvents (u "no array here") Examples.twoDelimiters
  = Normal (JSON.JArray [Examples.anuga]).
Proof.
  pose proof (split_with_two_delimiters
                Examples.beforeFirst Examples.between Examples.afterSecond) as T.
  cbv zeta in T.
  assert (H1 : FirstAt GeminiService.delimiter Examples.beforeFirst
                 (Examples.beforeFirst ++ GeminiService.delimiter ++ Examples.between
                    ++ GeminiService.delimiter ++ Examples.afterSecond))
    by (apply FirstAt_by_search; vm_compute; reflexivity).
  assert (H2 : FirstAt GeminiService.delimiter Examples.between
                 (Examples.between ++ GeminiService.delimiter ++ Examples.afterSecond))
    by (apply FirstAt_by_search; vm_compute; reflexivity).
  destruct (T H1 H2) as [S F].
  split.
  - exact S.
  - change (u "no array here") with (trim Examples.between).
    unfold Examples.twoDelimiters.
    rewrite F by (vm_compute; reflexivity).
    vm_compute. reflexivity.
Defined.

(* ================================================================== *)
(** * The event extractor *)
(* ================================================================== *)

Section Extractor.
Import RegExp JSON GeminiService Shapes.

Lemma any_true c : any c = true.
Proof. unfold any. destruct (isWhiteSpace c); reflexivity. Qed.

Lemma Forall_any w : Forall (fun c => any c = true) w.
Proof. induction w; constructor; auto using any_true. Qed.

(** The array pattern denotes exactly the array-shaped texts. *)
Lemma arrayPattern_shape w : Matches arrayPattern w <-> ArrayShaped w.
Proof.
  unfold arrayPattern, ArrayShaped, Blank. split.
  - intros M.
    repeat match goal with
           | H : Matches (Cat _ _) _ |- _ => inversion H; subst; clear H
           | H : Matches (Chr _) _ |- _ => inversion H; subst; clear H
           | H : Matches (Star _ _) _ |- _ => inversion H; subst; clear H
           end.
    eexists _, _, _.
    match goal with
    | |- _ /\ _ /\ ?C => assert (HC : C) by reflexivity
    end.
    repeat split; assumption.
  - intros [ws1 [body [ws2 [B1 [B2 ->]]]]].
    repeat constructor; auto using Forall_any.
Qed.

Lemma arrayPattern_None s :
  match_ arrayPattern s = None <-> ~ HasArray s.
Proof.
  rewrite match_None_iff. unfold HasArray. split.
  - intros H [pre [w [post [E S]]]]. apply (H pre w post E).
    apply arrayPattern_shape. exact S.
  - intros H pre w post E M. apply H. exists pre, w, post.
    split; [exact E | apply arrayPattern_shape; exact M].
Qed.

(** What the array pattern finds opens with a bracket. *)
Lemma arrayPattern_bracket s m :
  match_ arrayPattern s = Some m -> exists t, fst m = 91 :: t.
Proof.
  intros H. apply match_sound in H. destruct H as [_ [_ [_ M]]].
  apply arrayPattern_shape in M.
  destruct M as [ws1 [body [ws2 [_ [_ ->]]]]]. simpl. eauto.
Qed.

Lemma tryCatch_parse text dflt :
  (exists v, parse text = Normal v /\
             tryCatch (parse text) (fun _ => Normal dflt) = Normal v) \/
  (parse text = Throw SyntaxError /\
   tryCatch (parse text) (fun _ => Normal dflt) = Normal dflt).
Proof.
  destruct (parse_total text) as [[v E] | E]; rewrite E; simpl; eauto.
Qed.

Lemma codeBlockFallback_total dflt fullText :
  exists v, codeBlockFallback dflt fullText = Normal v.
Proof.
  unfold codeBlockFallback.
  destruct (match_ codeBlockPattern fullText) as [cb|]; [|eauto].
  destruct (matchItem cb 1) as [[|c t]|]; eauto.
  destruct (tryCatch_parse (c :: t) dflt) as [[v [_ E]] | [_ E]];
    rewrite E; eauto.
Qed.

Lemma extractEvents_total jsonPart fullText :
  exists v, extractEvents jsonPart fullText = Normal v.
Proof.
  unfold extractEvents.
  destruct (match_ arrayPattern jsonPart) as [m|].
  - destruct (tryCatch_parse (fst m) (JArray [])) as [[v [_ E]] | [_ E]];
      rewrite E; eauto.
  - apply codeBlockFallback_total.
Qed.

Lemma processResponse_total response :
  exists r, processResponse response = Normal r.
Proof.
  unfold processResponse.
  destruct (splitResponse_total (orString (text response) (u "No results found.")))
    as [displayText [jsonPart E]].
  rewrite E. cbn [JS.bind].
  destruct (extractEvents_total jsonPart
              (orString (text response) (u "No results found."))) as [v E'].
  rewrite E'. cbn [JS.bind]. eauto.
Qed.

End Extractor.

(* ================================================================== *)
(** * A well-formed array is read back as it was written *)
(* ================================================================== *)

Section RoundTrip.
Import JSON GeminiService Shapes.

Lemma plainChar_facts c :
  plainChar c = true -> (c =? 34) = false /\ (c =? 92) = false /\ (c <? 32) = false.
Proof.
  unfold plainChar. rewrite !andb_true_iff, !negb_true_iff, N.leb_le.
  intros [[H1 H2] H3]. repeat split; auto. apply N.ltb_ge. exact H1.
Qed.

Lemma stringBody_plain s :
  Plain s ->
  forall acc rest, stringBody (s ++ 34 :: rest) acc = Some (rev acc ++ s, rest).
Proof.
  induction 1 as [|c s Hc Hs IH]; intros acc rest.
  - simpl. rewrite app_nil_r. reflexivity.
  - destruct (plainChar_facts c Hc) as [E1 [E2 E3]].
    cbn [app stringBody]. rewrite E1, E2, E3, IH. cbn [rev].
    rewrite <- app_assoc. reflexivity.
Qed.

Lemma parseLiteral_string s rest :
  Plain s -> parseLiteral (quoted s ++ rest) = POk (JString s) rest.
Proof.
  intros P. unfold quoted, parseLiteral. cbn [app].
  change (dq =? 34) with true. cbv iota.
  rewrite <- app_assoc. cbn [app]. rewrite (stringBody_plain s P). reflexivity.
Qed.

Lemma parseValue_string s rest f :
  Plain s -> parseValue (S f) (quoted s ++ rest) = POk (JString s) rest.
Proof.
  intros P. cbn [parseValue].
  rewrite <- (parseLiteral_string s rest P).
  unfold quoted. cbn [app]. reflexivity.
Qed.




Lemma eqb_refl k : JS.eqb k k = true.
Proof. apply eqb_eq. reflexivity. Qed.


Lemma getProperty_replace o k v k' :
  hasProperty o k = true ->
  getProperty (replaceValue o k v) k'
  = if JS.eqb k k' then Some v else getProperty o k'.
Proof.
  induction o as [|[k1 v1] o IH]; [discriminate|].
  cbn [hasProperty existsb fst replaceValue]. fold (hasProperty o k).
  destruct (JS.eqb k1 k) eqn:E1.
  - intros _. apply eqb_eq in E1. subst k1. cbn [getProperty].
    destruct (JS.eqb k k'); reflexivity.
  - cbn [orb]. intros H. cbn [getProperty]. rewrite (IH H).
    destruct (JS.eqb k1 k') eqn:E2; [|reflexivity].
    destruct (JS.eqb k k') eqn:E3; [|reflexivity].
    apply eqb_eq in E2. apply eqb_eq in E3. subst.
    rewrite eqb_refl in E1. discriminate.
Qed.

Lemma getProperty_insert o n k v k' :
  hasProperty o k = false ->
  getProperty (insertIndex o n k v) k'
  = if JS.eqb k k' then Some v else getProperty o k'.
Proof.
  induction o as [|[k1 v1] o IH]; [reflexivity|].
  cbn [hasProperty existsb fst insertIndex]. fold (hasProperty o k).
  intros H. apply orb_false_iff in H. destruct H as [E1 H].
  destruct (arrayIndex k1) as [n1|]; [|reflexivity].
  destruct (n1 <? n); [|reflexivity].
  cbn [getProperty]. rewrite (IH H).
  destruct (JS.eqb k1 k') eqn:E2; [|reflexivity].
  destruct (JS.eqb k k') eqn:E3; [|reflexivity].
  apply eqb_eq in E2. apply eqb_eq in E3. subst.
  rewrite eqb_refl in E1. discriminate.
Qed.

Lemma getProperty_append o k v k' :
  hasProperty o k = false ->
  getProperty (o ++ [(k, v)]) k'
  = if JS.eqb k k' then Some v else getProperty o k'.
Proof.
  induction o as [|[k1 v1] o IH].
  - intros _. cbn [app getProperty]. reflexivity.
  - cbn [hasProperty existsb fst]. fold (hasProperty o k).
    intros H. apply orb_false_iff in H. destruct H as [E1 H].
    cbn [app getProperty]. rewrite (IH H).
    destruct (JS.eqb k1 k') eqn:E2; [|reflexivity].
    destruct (JS.eqb k k') eqn:E3; [|reflexivity].
    apply eqb_eq in E2. apply eqb_eq in E3. subst.
    rewrite eqb_refl in E1. discriminate.
Qed.

(** Reading after writing: the key written gives the value written, every
    other key what it gave before, wherever the property was put. *)
Lemma getProperty_set o k v k' :
  getProperty (setProperty o k v) k'
  = if JS.eqb k k' then Some v else getProperty o k'.
Proof.
  unfold setProperty. destruct (hasProperty o k) eqn:H.
  - apply getProperty_replace. exact H.
  - destruct (arrayIndex k) as [n|].
    + apply getProperty_insert. exact H.
    + apply getProperty_append. exact H.
Qed.

Lemma skipWs_keep c t : isWs c = false -> skipWs (c :: t) = c :: t.
Proof. intros H. simpl. rewrite H. reflexivity. Qed.

(** One member, and the comma or the brace behind it. *)
Lemma parseMembers_member k v c2 t2 acc f :
  Plain k -> Plain v -> isWs c2 = false -> (0 < f)%nat ->
  parseMembers (S f) (memberText (k, v) ++ c2 :: t2) acc
  = if c2 =? 44 then parseMembers f t2 (setProperty acc k (JString v))
    else if c2 =? 125 then POk (JObject (setProperty acc k (JString v))) t2
    else PErr.
Proof.
  intros Pk Pv Hc Hf. unfold memberText, quoted. cbn [fst snd app].
  cbn [parseMembers].
  rewrite (skipWs_keep dq) by reflexivity.
  change (dq =? 34) with true. cbv iota.
  rewrite <- !app_assoc. cbn [app].
  rewrite (stringBody_plain k Pk). cbn [rev app].
  rewrite (skipWs_keep 58) by reflexivity.
  change (58 =? 58) with true. cbv iota.
  destruct f as [|f]; [lia|].
  pose proof (parseValue_string v (c2 :: t2) f Pv) as V.
  unfold quoted in V. cbn [app] in V. rewrite V.
  rewrite (skipWs_keep c2) by exact Hc. reflexivity.
Qed.

Lemma parseMembers_fields o :
  o <> [] ->
  Forall (fun kv => Plain (fst kv) /\ Plain (snd kv)) o ->
  forall acc rest f,
    (length o < f)%nat ->
    parseMembers f (join 44 (map memberText o) ++ 125 :: rest) acc
    = POk (JObject (fold_left addMember o acc)) rest.
Proof.
  induction o as [|[k v] o IH]; [congruence|].
  intros _ HF acc rest f Hf.
  inversion HF as [|? ? [Pk Pv] HF']; subst. cbn [fst snd] in Pk, Pv.
  destruct f as [|f]; [inversion Hf|]. cbn [length] in Hf.
  destruct o as [|kv2 o].
  - cbn [map join]. rewrite parseMembers_member by (auto; lia).
    change (125 =? 44) with false. change (125 =? 125) with true. cbv iota.
    reflexivity.
  - change (join 44 (map memberText ((k, v) :: kv2 :: o)))
      with (memberText (k, v) ++ 44 :: join 44 (map memberText (kv2 :: o))).
    rewrite <- app_assoc. cbn [app].
    rewrite parseMembers_member by (auto; cbn [length] in Hf; lia).
    change (44 =? 44) with true. cbv iota.
    rewrite IH; [reflexivity | discriminate | exact HF' | cbn [length] in *; lia].
Qed.

Lemma parseValue_object o rest f :
  WellFormed o -> (length o + 1 < f)%nat ->
  parseValue f (objectText o ++ rest) = POk (objectValue o) rest.
Proof.
  intros [ND HF] Hf. destruct f as [|f]; [lia|].
  assert (T : objectText o ++ rest
              = 123 :: (join 44 (map memberText o) ++ 125 :: rest))
    by (unfold objectText; cbn [app]; rewrite <- app_assoc; reflexivity).
  rewrite T. unfold objectValue. cbn [parseValue].
  rewrite (skipWs_keep 123) by reflexivity.
  change (123 =? 123) with true. cbv iota.
  destruct o as [|[k v] o].
  - cbn [map join app]. rewrite (skipWs_keep 125) by reflexivity.
    change (125 =? 125) with true. reflexivity.
  - assert (E : exists t, join 44 (map memberText ((k, v) :: o)) = dq :: t).
    { cbn [map join]. destruct (map memberText o); unfold memberText, quoted;
        cbn [fst app]; eauto. }
    destruct E as [t Et].
    rewrite Et. cbn [app]. rewrite (skipWs_keep dq) by reflexivity.
    change (dq =? 125) with false. cbv iota.
    change (dq :: t ++ 125 :: rest) with ((dq :: t) ++ 125 :: rest).
    rewrite <- Et.
    rewrite (parseMembers_fields ((k, v) :: o)); try discriminate; auto.
    cbn [length] in *. lia.
Qed.

(** The objects of an array, written one after the other, open with a brace
    and close with one. *)
Lemma join_objects_shape objs :
  objs <> [] -> exists B, join 44 (map objectText objs) = 123 :: B ++ [125].
Proof.
  induction objs as [|o objs IH]; [congruence|]. intros _.
  destruct objs as [|o2 objs].
  - cbn [map join]. unfold objectText. eauto.
  - destruct IH as [B EB]; [discriminate|].
    change (join 44 (map objectText (o :: o2 :: objs)))
      with (objectText o ++ 44 :: join 44 (map objectText (o2 :: objs))).
    rewrite EB. unfold objectText.
    exists (join 44 (map memberText o) ++ [125] ++ 44 :: 123 :: B).
    cbn [app]. f_equal. rewrite <- !app_assoc. reflexivity.
Qed.

Lemma parseElements_objects objs :
  objs <> [] -> Forall WellFormed objs ->
  forall acc rest,
  exists F, forall f, (F <= f)%nat ->
    parseElements f (join 44 (map objectText objs) ++ 93 :: rest) acc
    = POk (JArray (rev acc ++ map objectValue objs)) rest.
Proof.
  induction objs as [|o objs IH]; [congruence|].
  intros _ HF acc rest. inversion HF as [|? ? Wo HF']; subst.
  destruct objs as [|o2 objs].
  - exists (length o + 3)%nat. intros f Hf.
    destruct f as [|f]; [lia|]. cbn [map join parseElements].
    rewrite parseValue_object by (auto; lia).
    rewrite (skipWs_keep 93) by reflexivity.
    change (93 =? 44) with false. change (93 =? 93) with true. reflexivity.
  - destruct (IH ltac:(discriminate) HF' (objectValue o :: acc) rest) as [F' HF''].
    exists (S (Nat.max (length o + 2) F')). intros f Hf.
    destruct f as [|f]; [lia|].
    change (join 44 (map objectText (o :: o2 :: objs)))
      with (objectText o ++ 44 :: join 44 (map objectText (o2 :: objs))).
    rewrite <- app_assoc. cbn [app parseElements].
    rewrite parseValue_object by (auto; lia).
    rewrite (skipWs_keep 44) by reflexivity.
    change (44 =? 44) with true. cbv iota.
    rewrite HF'' by lia. cbn [rev map]. rewrite <- app_assoc. reflexivity.
Qed.

Lemma parseValue_array objs rest :
  objs <> [] -> Forall WellFormed objs ->
  exists F, forall f, (F <= f)%nat ->
    parseValue f (arrayText objs ++ rest) = POk (arrayValue objs) rest.
Proof.
  intros Hn HF.
  destruct (parseElements_objects objs Hn HF [] rest) as [F HE].
  destruct (join_objects_shape objs Hn) as [B EB].
  exists (S F). intros f Hf. destruct f as [|f]; [lia|].
  assert (T : arrayText objs ++ rest
              = 91 :: (join 44 (map objectText objs) ++ 93 :: rest))
    by (unfold arrayText; cbn [app]; rewrite <- app_assoc; reflexivity).
  rewrite T. cbn [parseValue].
  rewrite (skipWs_keep 91) by reflexivity.
  change (91 =? 123) with false. change (91 =? 91) with true. cbv iota.
  specialize (HE f ltac:(lia)). rewrite EB in HE |- *. cbn [app] in HE |- *.
  rewrite (skipWs_keep 123) by reflexivity.
  change (123 =? 93) with false. cbv iota. exact HE.
Qed.

(** [JSON.parse] reads a written array back. *)
Lemma parse_arrayText objs :
  objs <> [] -> Forall WellFormed objs ->
  parse (arrayText objs) = Normal (arrayValue objs).
Proof.
  intros Hn HF. destruct (parseValue_array objs [] Hn HF) as [F H].
  apply (parse_with_any_fuel F (arrayText objs) (arrayValue objs) []).
  - rewrite <- (H F (Nat.le_refl F)). rewrite app_nil_r. reflexivity.
  - reflexivity.
Qed.

End RoundTrip.

Section Greedy.
Import RegExp.
Variable A : Type.

(** The backtracking of a greedy star ends at the shortest remainder the
    continuation accepts. *)
Lemma star_none g p t (k : jsstring -> option A) :
  (forall z' z, t = z' ++ z -> k z = None) -> star g p t k = None.
Proof.
  induction t as [|c t IH]; intros H; simpl.
  - apply (H [] []). reflexivity.
  - assert (Hk : k (c :: t) = None) by (apply (H [] (c :: t)); reflexivity).
    assert (Hs : star g p t k = None).
    { apply IH. intros z' z E. apply (H (c :: z') z). rewrite E. reflexivity. }
    destruct (p c); [|exact Hk]. destruct g; rewrite ?Hs, ?Hk; reflexivity.
Qed.

Lemma star_greedy_shortest p x y (k : jsstring -> option A) r :
  Forall (fun c => p c = true) x ->
  k y = Some r ->
  (forall z' z, y = z' ++ z -> z' <> [] -> k z = None) ->
  star true p (x ++ y) k = Some r.
Proof.
  intros Hx Hy Hz. induction Hx as [|c x Pc Hx IH]; cbn [app].
  - destruct y as [|c t]; simpl; [exact Hy|].
    destruct (p c); [|exact Hy].
    rewrite star_none; [exact Hy|].
    intros z' z E. apply (Hz (c :: z') z); [rewrite E; reflexivity | discriminate].
  - simpl. rewrite Pc, IH. reflexivity.
Qed.

Lemma blanks_then_bracket_fail t (k : jsstring -> option A) :
  k [] = None -> (forall c z, c <> 93 -> k (c :: z) = None) ->
  ~ In 93 t -> star true space t k = None.
Proof.
  intros K0 K1 N. apply star_none. intros z' z E.
  destruct z as [|c z]; [exact K0|]. apply K1. intros ->.
  apply N. rewrite E. apply in_or_app. right. left. reflexivity.
Qed.

End Greedy.

Section FindArray.
Import RegExp GeminiService Shapes.

Lemma matchAt_array B post :
  ~ In 93 post ->
  matchAt arrayPattern (91 :: 123 :: B ++ 125 :: 93 :: post)
  = Some (91 :: 123 :: B ++ [125; 93], []).
Proof.
  intros N. unfold matchAt, arrayPattern. cbn [run].
  change (91 =? 91) with true. cbv iota.
  cbn [star]. change (space 123) with false. cbv iota beta.
  change (123 =? 123) with true. cbv iota.
  apply star_greedy_shortest.
  - apply Forall_any.
  - change (125 =? 125) with true. cbv iota.
    cbn [star]. change (space 93) with false. cbv iota beta.
    change (93 =? 93) with true. cbv iota.
    f_equal. f_equal.
    change (91 :: 123 :: B ++ 125 :: 93 :: post)
      with (91 :: 123 :: (B ++ [125; 93] ++ post)).
    rewrite (app_assoc B).
    change (91 :: 123 :: (B ++ [125; 93]) ++ post)
      with ((91 :: 123 :: B ++ [125; 93]) ++ post).
    apply firstn_length_diff.
  - intros z' z E Hz'.
    destruct z' as [|a z']; [congruence|]. inversion E; subst a.
    destruct z' as [|b z'].
    + cbn [app] in *. subst z. reflexivity.
    + match goal with H : 93 :: post = _ |- _ => inversion H; subst end.
      destruct z as [|c t]; [reflexivity|].
      destruct (c =? 125); [|reflexivity].
      apply blanks_then_bracket_fail; [reflexivity | |].
      * intros c0 z0 Hc. destruct (N.eqb_spec c0 93); [congruence | reflexivity].
      * intros I. apply N. apply in_or_app. right. right. exact I.
Qed.

(** Before the first opening bracket nothing matches. *)
Lemma match_skips_prefix pre s :
  ~ In 91 pre -> s <> [] ->
  match_ arrayPattern (pre ++ s) = match_ arrayPattern s.
Proof.
  intros N Hs. induction pre as [|c pre IH]; [reflexivity|].
  cbn [app match_].
  assert (E : matchAt arrayPattern (c :: pre ++ s) = None).
  { unfold matchAt, arrayPattern. cbn [run].
    destruct (N.eqb_spec c 91); [|reflexivity].
    exfalso. apply N. left. auto. }
  rewrite E. apply IH. intros I. apply N. right. exact I.
Qed.

Lemma match_arrayText pre objs post :
  objs <> [] -> ~ In 91 pre -> ~ In 93 post ->
  match_ arrayPattern (pre ++ arrayText objs ++ post)
  = Some (arrayText objs, []).
Proof.
  intros Hn Npre Npost.
  destruct (join_objects_shape objs Hn) as [B EB].
  assert (T : arrayText objs = 91 :: 123 :: B ++ [125; 93]).
  { unfold arrayText. rewrite EB. cbn [app]. rewrite <- app_assoc. reflexivity. }
  rewrite match_skips_prefix; [|exact Npre | rewrite T; discriminate].
  rewrite T.
  match goal with
  | |- match_ _ ?t = _ =>
      replace t with (91 :: 123 :: B ++ 125 :: 93 :: post)
        by (cbn [app]; rewrite <- app_assoc; reflexivity)
  end.
  pose proof (matchAt_array B post Npost) as M.
  destruct B; cbn [app match_] in *; rewrite M; reflexivity.
Qed.

(** The extractor returns a written array of objects as it was written. *)
Lemma written_array_extracted pre objs post fullText :
  objs <> [] -> Forall WellFormed objs -> ~ In 91 pre -> ~ In 93 post ->
  extractEvents (pre ++ arrayText objs ++ post) fullText
  = Normal (arrayValue objs).
Proof.
  intros Hn HF Npre Npost. unfold extractEvents.
  rewrite (match_arrayText pre objs post Hn Npre Npost). cbn [fst].
  rewrite (parse_arrayText objs Hn HF). reflexivity.
Qed.

End FindArray.

Section WrittenRecords.
Import JSON Types Shapes.

Lemma distinct_NoDup ks : distinct ks = true -> NoDup ks.
Proof.
  induction ks as [|k ks IH]; simpl; [constructor|].
  rewrite andb_true_iff, negb_true_iff. intros [E D].
  constructor; [|apply IH; exact D].
  intros I. assert (X : existsb (JS.eqb k) ks = true).
  { apply existsb_exists. exists k. split; [exact I | apply eqb_eq; reflexivity]. }
  congruence.
Qed.

Lemma wellFormed_spec o : wellFormed o = true -> WellFormed o.
Proof.
  unfold wellFormed, WellFormed. rewrite andb_true_iff. intros [D F].
  split; [apply distinct_NoDup; exact D|].
  apply Forall_forall. intros kv I.
  rewrite forallb_forall in F. specialize (F kv I).
  rewrite andb_true_iff in F. destruct F as [F1 F2].
  unfold Plain. rewrite !Forall_forall.
  rewrite forallb_forall in F1, F2. auto.
Qed.

Lemma getProperty_members o k :
  forall acc,
    In k (map fst o) \/ isString (getProperty acc k) = true ->
    isString (getProperty (fold_left addMember o acc) k) = true.
Proof.
  induction o as [|[k' v'] o IH]; intros acc H; cbn [fold_left].
  - destruct H as [[]|H]. exact H.
  - apply IH. unfold addMember. cbn [fst snd]. rewrite getProperty_set.
    destruct (JS.eqb k' k) eqn:E; [right; reflexivity|].
    destruct H as [[E'|I]|H]; [|left; exact I | right; exact H].
    cbn [fst] in E'. subst k'. rewrite eqb_refl in E. discriminate.
Qed.

Lemma getProperty_member o k :
  In k (map fst o) -> isString (getProperty (properties o) k) = true.
Proof. intros I. apply getProperty_members. left. exact I. Qed.

Lemma getProperty_members_optional o k :
  forall acc,
    isOptionalString (getProperty acc k) = true ->
    isOptionalString (getProperty (fold_left addMember o acc) k) = true.
Proof.
  induction o as [|[k' v'] o IH]; intros acc H; cbn [fold_left]; [exact H|].
  apply IH. unfold addMember. cbn [fst snd]. rewrite getProperty_set.
  destruct (JS.eqb k' k); [reflexivity | exact H].
Qed.

Lemma getProperty_member_optional o k :
  isOptionalString (getProperty (properties o) k) = true.
Proof. apply getProperty_members_optional. reflexivity. Qed.



(** A written object with the four required fields is an event record,
    whatever other fields it has. *)
Lemma written_object_is_record o :
  HasRequired o -> isEventDetail (objectValue o) = true.
Proof.
  intros [H1 [H2 [H3 H4]]]. unfold isEventDetail, objectValue.
  rewrite !getProperty_member by assumption.
  rewrite !getProperty_member_optional. reflexivity.
Qed.

Lemma written_array_is_records objs :
  Forall HasRequired objs -> isEventDetailArray (arrayValue objs) = true.
Proof.
  intros H. unfold isEventDetailArray, arrayValue.
  apply forallb_forall. intros v I. apply in_map_iff in I.
  destruct I as [o [<- I]]. apply written_object_is_record.
  rewrite Forall_forall in H. auto.
Qed.

End WrittenRecords.

(** C1, as the specification states it, fails: the reply below carries a
    well-formed fenced block in its narrative and, after the delimiter, an
    array-shaped piece with a trailing comma.  The piece is found, its parse
    fails, and the extractor returns the empty array; the fenced block, which
    the fallback would have parsed to one event, is never looked at. *)
Lemma fallback_skipped_on_parse_failure :
  GeminiService.splitResponse Examples.fencedThenMalformed
  = Normal (Examples.fencedNarrative, Examples.trailingCommaPart) /\
  RegExp.match_ GeminiService.arrayPattern Examples.trailingCommaPart
  = Some (Examples.trailingCommaPart, []) /\
  JSON.parse Examples.trailingCommaPart = Throw SyntaxError /\
  GeminiService.codeBlockFallback (JSON.JArray []) Examples.fencedThenMalformed
  = Normal (JSON.JArray [Examples.anuga]) /\
  GeminiService.extractEvents Examples.trailingCommaPart Examples.fencedThenMalformed
  = Normal (JSON.JArray []) /\
  GeminiService.extractEvents Examples.trailingCommaPart Examples.fencedThenMalformed
  <> GeminiService.codeBlockFallback (JSON.JArray []) Examples.fencedThenMalformed.
Proof.
  repeat split; try (vm_compute; reflexivity).
  vm_compute. discriminate.
Qed.

(** C1, amended.  The extractor falls back to the fenced block of the full
    text exactly when the structured part holds no array-shaped piece; the
    fallback then parses the contents of the first fenced block labelled
    json and returns them.  When an array-shaped piece is found and its parse
    fails, there is no fallback: the result is the empty array whatever the
    full text holds. *)
Theorem fallback_only_without_array (jsonPart fullText : jsstring) :
  (~ Shapes.HasArray jsonPart ->
   GeminiService.extractEvents jsonPart fullText
   = GeminiService.codeBlockFallback (JSON.JArray []) fullText) /\
  (forall cb c t v,
      RegExp.match_ GeminiService.codeBlockPattern fullText = Some cb ->
      GeminiService.matchItem cb 1 = Some (c :: t) ->
      JSON.parse (c :: t) = Normal v ->
      GeminiService.codeBlockFallback (JSON.JArray []) fullText = Normal v) /\
  (Shapes.HasArray jsonPart ->
   exists m, RegExp.match_ GeminiService.arrayPattern jsonPart = Some m /\
             Shapes.ArrayShaped (fst m) /\
             (forall e, JSON.parse (fst m) = Throw e ->
                        GeminiService.extractEvents jsonPart fullText
                        = Normal (JSON.JArray []))).
Proof.
  repeat split.
  - intros H. apply arrayPattern_None in H.
    unfold GeminiService.extractEvents. rewrite H. reflexivity.
  - intros cb c t v M I P. unfold GeminiService.codeBlockFallback.
    rewrite M, I, P. reflexivity.
  - intros H.
    destruct (RegExp.match_ GeminiService.arrayPattern jsonPart) as [m|] eqn:M.
    + exists m. split; [reflexivity|]. split.
      * apply match_sound in M. destruct M as [_ [_ [_ M]]].
        apply arrayPattern_shape. exact M.
      * intros e P. unfold GeminiService.extractEvents. rewrite M, P. reflexivity.
    + apply arrayPattern_None in M. contradiction.
Qed.

Lemma fallback_only_without_array_witness :
  ~ Shapes.HasArray (u "no array here") /\
  GeminiService.extractEvents (u "no array here") Examples.twoDelimiters
  = Normal (JSON.JArray [Examples.anuga]) /\
  GeminiService.extractEvents Examples.trailingCommaPart Examples.fencedThenMalformed
  = Normal (JSON.JArray []).
Proof.
  assert (N : ~ Shapes.HasArray (u "no array here"))
    by (apply arrayPattern_None; vm_compute; reflexivity).
  split; [exact N|]. split.
  - destruct (fallback_only_without_array (u "no array here") Examples.twoDelimiters)
      as [F [R _]].
    rewrite (F N).
    eapply R; [vm_compute; reflexivity | vm_compute; reflexivity | vm_compute; reflexivity].
  - destruct (fallback_only_without_array Examples.trailingCommaPart
                Examples.fencedThenMalformed) as [_ [_ A]].
    assert (H : Shapes.HasArray Examples.trailingCommaPart).
    { exists [], Examples.trailingCommaPart, []. split; [vm_compute; reflexivity|].
      exists [], (firstn 20 (skipn 2 Examples.trailingCommaPart)), [].
      repeat split; try constructor. }
    destruct (A H) as [m [M [_ E]]].
    apply (E SyntaxError).
    assert (Hm : m = (Examples.trailingCommaPart, []))
      by (vm_compute in M; injection M as <-; reflexivity).
    rewrite Hm. vm_compute. reflexivity.
Defined.

(** C2, as the specification states it, fails: the array below is found
    after the delimiter and parses; its first element has no string
    [eventName] (nor date, location or type), its second is a number, its
    third an empty object.  All three are returned. *)
Lemma elements_not_checked_against_shape :
  GeminiService.processResponse
    {| GeminiService.text := Some Examples.offShapeText;
       GeminiService.groundingChunks := None |}
  = Normal {| Types.sr_text := u "Relevant EPC: APEDA";
              Types.structuredEvents := Examples.offShapeValue;
              Types.sr_groundingChunks := [] |} /\
  Types.isEventDetailArray Examples.offShapeValue = false /\
  forallb (fun e => negb (Types.isEventDetail e))
          match Examples.offShapeValue with
          | JSON.JArray xs => xs
          | _ => []
          end = true.
Proof. repeat split; vm_compute; reflexivity. Qed.

(** C2, amended.  The extractor does not check the elements against the
    EventRecord shape.  Whenever the text it settles on parses, the value it
    returns is exactly the parsed value, and it never returns anything but
    such a parsed value or the empty array.  In particular a non-empty array
    of objects with string fields, written in compact JSON after text
    without an opening bracket and before text without a closing one, is
    returned object by object with every field of every object verbatim,
    whether or not the fields are those of an event record: fields outside
    the shape are kept and never cause a rejection, and the result is a
    sequence of event records when every object has the four required
    fields. *)
Theorem events_returned_as_parsed (jsonPart fullText : jsstring) :
  (forall m v,
      RegExp.match_ GeminiService.arrayPattern jsonPart = Some m ->
      JSON.parse (fst m) = Normal v ->
      GeminiService.extractEvents jsonPart fullText = Normal v) /\
  (forall cb c t v,
      RegExp.match_ GeminiService.arrayPattern jsonPart = None ->
      RegExp.match_ GeminiService.codeBlockPattern fullText = Some cb ->
      GeminiService.matchItem cb 1 = Some (c :: t) ->
      JSON.parse (c :: t) = Normal v ->
      GeminiService.extractEvents jsonPart fullText = Normal v) /\
  (forall v,
      GeminiService.extractEvents jsonPart fullText = Normal v ->
      v = JSON.JArray [] \/
      exists text,
        JSON.parse text = Normal v /\
        ((exists m, RegExp.match_ GeminiService.arrayPattern jsonPart = Some m /\
                    text = fst m) \/
         (exists cb, RegExp.match_ GeminiService.arrayPattern jsonPart = None /\
                     RegExp.match_ GeminiService.codeBlockPattern fullText = Some cb /\
                     GeminiService.matchItem cb 1 = Some text))) /\
  (forall pre objs post,
      jsonPart = pre ++ Shapes.arrayText objs ++ post ->
      objs <> [] -> Forall Shapes.WellFormed objs ->
      ~ In 91 pre -> ~ In 93 post ->
      GeminiService.extractEvents jsonPart fullText
      = Normal (Shapes.arrayValue objs) /\
      (Forall Shapes.HasRequired objs ->
       Types.isEventDetailArray (Shapes.arrayValue objs) = true)).
Proof.
  split; [|split; [|split]].
  - intros m v M P. unfold GeminiService.extractEvents. rewrite M, P. reflexivity.
  - intros cb c t v M C I P.
    unfold GeminiService.extractEvents, GeminiService.codeBlockFallback.
    rewrite M, C, I, P. reflexivity.
  - intros v.
    unfold GeminiService.extractEvents, GeminiService.codeBlockFallback.
    destruct (RegExp.match_ GeminiService.arrayPattern jsonPart) as [m|] eqn:M.
    + destruct (tryCatch_parse (fst m) (JSON.JArray [])) as [[v' [P E]] | [P E]];
        rewrite E; intros H; inversion H; subst; auto.
      right. exists (fst m). split; [exact P|]. left. exists m. auto.
    + destruct (RegExp.match_ GeminiService.codeBlockPattern fullText) as [cb|] eqn:C;
        [|intros H; inversion H; auto].
      destruct (GeminiService.matchItem cb 1) as [[|c t]|] eqn:I;
        try (intros H; inversion H; auto; fail).
      destruct (tryCatch_parse (c :: t) (JSON.JArray [])) as [[v' [P E]] | [P E]];
        rewrite E; intros H; inversion H; subst; auto.
      right. exists (c :: t). split; [exact P|]. right. exists cb. auto.
  - intros pre objs post -> Hn HF Npre Npost. split.
    + apply written_array_extracted; assumption.
    + apply written_array_is_records.
Qed.

Lemma events_returned_as_parsed_witness :
  GeminiService.extractEvents Examples.extraFieldPart Examples.extraFieldPart
  = Normal (JSON.JArray
              [JSON.JObject [ (u "eventName", JSON.JString (u "Anuga"));
                              (u "date", JSON.JString (u "Oct 2027"));
                              (u "location", JSON.JString (u "Cologne"));
                              (u "type", JSON.JString (u "Exhibition"));
                              (u "booth", JSON.JString (u "B12")) ]]) /\
  Types.isEventDetailArray (Shapes.arrayValue [Examples.extraFieldObject]) = true /\
  GeminiService.extractEvents Examples.offShapePart Examples.offShapeText
  = Normal Examples.offShapeValue.
Proof.
  destruct (events_returned_as_parsed Examples.extraFieldPart Examples.extraFieldPart)
    as [_ [_ [_ D]]].
  destruct (D [] [Examples.extraFieldObject] []) as [E R].
  - vm_compute. reflexivity.
  - discriminate.
  - constructor; [|constructor]. apply wellFormed_spec. vm_compute. reflexivity.
  - intros [].
  - intros [].
  - split; [exact E|]. split.
    + apply R. constructor; [|constructor].
      unfold Shapes.HasRequired. simpl. tauto.
    + destruct (events_returned_as_parsed Examples.offShapePart Examples.offShapeText)
        as [A _].
      apply (A (Examples.offShapePart, [])); vm_compute; reflexivity.
Defined.

(** C3 fails on the code for the fenced block.  The first stage returns
    arrays only, and the declared type of [structuredEvents] is an array of
    event records; the fallback returns whatever JSON value the fenced block
    holds.  A reply whose fenced block holds the number 42 gives
    [structuredEvents] the number 42, which is no sequence. *)
Lemma fenced_number_is_returned :
  GeminiService.processResponse
    {| GeminiService.text := Some Examples.fencedNumber;
       GeminiService.groundingChunks := None |}
  = Normal {| Types.sr_text := Examples.fencedNumber;
              Types.structuredEvents := JSON.JNumber (u "42");
              Types.sr_groundingChunks := [] |} /\
  Types.isEventDetailArray (JSON.JNumber (u "42")) = false.
Proof. split; vm_compute; reflexivity. Qed.

(** X27.  For every structured part and full text the extraction returns
    a value and never throws, and so does the whole processing of a reply.
    A parse failure at either stage is swallowed and leaves the empty array
    (at the first stage without the fenced block being tried), and so does
    the absence of both shapes.  What comes of the first stage is always an
    array. *)
Theorem extraction_never_throws :
  (forall jsonPart fullText,
      exists v,
        GeminiService.extractEvents jsonPart fullText = Normal v /\
        (forall m,
            RegExp.match_ GeminiService.arrayPattern jsonPart = Some m ->
            (exists xs, v = JSON.JArray xs) /\
            (forall e, JSON.parse (fst m) = Throw e -> v = JSON.JArray [])) /\
        (forall cb block e,
            RegExp.match_ GeminiService.arrayPattern jsonPart = None ->
            RegExp.match_ GeminiService.codeBlockPattern fullText = Some cb ->
            GeminiService.matchItem cb 1 = Some block ->
            JSON.parse block = Throw e -> v = JSON.JArray []) /\
        (RegExp.match_ GeminiService.arrayPattern jsonPart = None ->
         RegExp.match_ GeminiService.codeBlockPattern fullText = None ->
         v = JSON.JArray [])) /\
  (forall response,
      exists r, GeminiService.processResponse response = Normal r) /\
  (forall ai today productQuery location response,
      ai (GeminiService.searchRequest today productQuery location) = Normal response ->
      exists r,
        GeminiService.searchTradeEvents ai today productQuery location = Normal r).
Proof.
  split; [|split].
  - intros jsonPart fullText.
    unfold GeminiService.extractEvents, GeminiService.codeBlockFallback.
    destruct (RegExp.match_ GeminiService.arrayPattern jsonPart) as [m|] eqn:M.
    + destruct (arrayPattern_bracket _ _ M) as [t Ht].
      destruct (tryCatch_parse (fst m) (JSON.JArray [])) as [[v [P E]] | [P E]];
        rewrite E.
      * exists v. split; [reflexivity|]. split; [|split]; try discriminate.
        intros m' Hm'. inversion Hm'; subst m'. split.
        -- rewrite Ht in P. apply parse_bracket in P. exact P.
        -- intros e Pe. congruence.
      * exists (JSON.JArray []). split; [reflexivity|].
        split; [|split]; try discriminate.
        intros m' _. split; [eauto | reflexivity].
    + destruct (RegExp.match_ GeminiService.codeBlockPattern fullText) as [cb|] eqn:C.
      * destruct (GeminiService.matchItem cb 1) as [[|c t]|] eqn:I.
        -- exists (JSON.JArray []). repeat split; try discriminate; reflexivity.
        -- destruct (tryCatch_parse (c :: t) (JSON.JArray [])) as [[v [P E]] | [P E]];
             rewrite E.
           ++ exists v. split; [reflexivity|]. split; [discriminate|]. split.
              ** intros cb' block e _ Hcb Hb Pe.
                 inversion Hcb; subst cb'. rewrite I in Hb. inversion Hb; subst block.
                 congruence.
              ** discriminate.
           ++ exists (JSON.JArray []). repeat split; try discriminate; reflexivity.
        -- exists (JSON.JArray []). repeat split; try discriminate; reflexivity.
      * exists (JSON.JArray []). repeat split; try discriminate; reflexivity.
  - apply processResponse_total.
  - intros ai today productQuery location response H.
    unfold GeminiService.searchTradeEvents. rewrite H. cbn [JS.bind].
    destruct (processResponse_total response) as [r E]. rewrite E.
    exists r. reflexivity.
Qed.

Lemma extraction_never_throws_witness :
  GeminiService.extractEvents Examples.truncatedPart Examples.truncatedPart
  = Normal (JSON.JArray []) /\
  GeminiService.extractEvents Examples.trailingCommaPart Examples.fencedThenMalformed
  = Normal (JSON.JArray []) /\
  GeminiService.extractEvents [] (u "```json " ++ Examples.trailingCommaPart ++ u " ```")
  = Normal (JSON.JArray []).
Proof.
  destruct extraction_never_throws as [T _].
  split; [|split].
  - destruct (T Examples.truncatedPart Examples.truncatedPart) as [v [E [A _]]].
    rewrite E. f_equal.
    apply (proj2 (A (Examples.truncatedPart, []) ltac:(vm_compute; reflexivity))
                 SyntaxError).
    vm_compute; reflexivity.
  - destruct (T Examples.trailingCommaPart Examples.fencedThenMalformed)
      as [v [E [A _]]].
    rewrite E. f_equal.
    apply (proj2 (A (Examples.trailingCommaPart, []) ltac:(vm_compute; reflexivity))
                 SyntaxError).
    vm_compute; reflexivity.
  - destruct (T [] (u "```json " ++ Examples.trailingCommaPart ++ u " ```"))
      as [v [E [_ [B _]]]].
    rewrite E. f_equal.
    apply (B (u "```json " ++ Examples.trailingCommaPart ++ u " ```",
              [Examples.trailingCommaPart])
             Examples.trailingCommaPart SyntaxError);
      vm_compute; reflexivity.
Defined.

(* ================================================================== *)
(** * The session state *)
(* ================================================================== *)

Section Session.
Import Types GeminiService App.

Lemma run_app st us vs : run (run st us) vs = run st (us ++ vs).
Proof. unfold run. symmetry. apply fold_left_app. Qed.

Lemma clearing_clears st :
  searchResult (run st beforeSearch) = None /\
  analysisResult (run st beforeSearch) = None /\
  mapResult (run st beforeSearch) = None.
Proof. destruct st; repeat split; reflexivity. Qed.

(** A failed search leaves its slot empty ... *)
Lemma failed_search_slot env st e :
  productQuery st <> [] ->
  searchTradeEvents (ai env) (today env) (productQuery st) (Some (locationQuery st))
  = Throw e ->
  searchResult (run st (handleSearch env st)) = None.
Proof.
  intros Hq Hf. unfold handleSearch.
  destruct (productQuery st) eqn:Q; [congruence|]. rewrite Hf.
  destruct st; reflexivity.
Qed.

(** ... and so does a failed venue lookup ... *)
Lemma failed_venue_slot env eventName st :
  (forall lat lng e', findEventLocation (ai env) eventName lat lng = Throw e') ->
  mapResult (run st (handleMapSearch env eventName st)) = None.
Proof.
  intros Hf. unfold handleMapSearch.
  destruct (geolocation env); cbv beta iota zeta;
    match goal with
    | |- context [findEventLocation ?a ?n ?x ?y] =>
        destruct (findEventLocation a n x y) eqn:E;
        [ pose proof (Hf x y ExternalFailure); congruence
        | destruct st; reflexivity ]
    end.
Qed.

(** ... but a failed analysis leaves its slot as it was. *)
Lemma failed_analysis_slot env st sr e :
  searchResult st = Some sr ->
  userProfile st <> [] ->
  analyzeStrategicFit (ai env) (sr_text sr) (userProfile st) = Throw e ->
  analysisResult (run st (handleAnalysis env st)) = analysisResult st.
Proof.
  intros Hs Hp Hf. unfold handleAnalysis. rewrite Hs.
  destruct (userProfile st) eqn:P; [congruence|]. rewrite Hf.
  destruct st; reflexivity.
Qed.

End Session.

(** C4. Whatever the session holds, a search started with a non-empty
    product query first calls the setters that set analysisResult and
    mapResult to null, and only after them, if the call succeeds, the setter
    that stores the new search result: the state in which the new result is
    stored has both slots empty, and so has the state the handler leaves. *)
Theorem new_search_clears_analysis_and_venue (env : App.Env) (st : App.State) :
  App.productQuery st <> [] ->
  exists setting,
    App.handleSearch env st = App.beforeSearch ++ setting /\
    In (App.setAnalysisResult None) App.beforeSearch /\
    In (App.setMapResult None) App.beforeSearch /\
    (forall r, ~ In (App.setSearchResult (Some r)) App.beforeSearch) /\
    App.analysisResult (App.run st App.beforeSearch) = None /\
    App.mapResult (App.run st App.beforeSearch) = None /\
    (setting = [App.setSearchStatus Types.error] \/
     exists r, setting = [App.setSearchResult (Some r);
                          App.setSearchStatus Types.success]) /\
    App.analysisResult (App.run st (App.handleSearch env st)) = None /\
    App.mapResult (App.run st (App.handleSearch env st)) = None.
Proof.
  intros Hq. unfold App.handleSearch.
  destruct (App.productQuery st) eqn:Q; [congruence|].
  fold App.beforeSearch.
  destruct (clearing_clears st) as [_ [Ha Hm]].
  eexists. split; [reflexivity|].
  split; [simpl; tauto|]. split; [simpl; tauto|].
  split.
  { intros r [H|[H|[H|[H|[H|[]]]]]]; discriminate. }
  split; [exact Ha|]. split; [exact Hm|].
  destruct (GeminiService.searchTradeEvents _ _ _ _) as [r|e].
  - split; [right; exists r; reflexivity|].
    destruct st; split; reflexivity.
  - split; [left; reflexivity|].
    destruct st; split; reflexivity.
Qed.

Lemma new_search_clears_analysis_and_venue_witness :
  App.analysisResult Examples.session = Some Examples.oldAnalysis /\
  App.mapResult Examples.session = Some Examples.oldVenue /\
  App.analysisResult
    (App.run Examples.session (App.handleSearch Examples.envOk Examples.session))
  = None /\
  App.mapResult
    (App.run Examples.session (App.handleSearch Examples.envOk Examples.session))
  = None.
Proof.
  assert (Hq : App.productQuery Examples.session <> []) by discriminate.
  destruct (new_search_clears_analysis_and_venue Examples.envOk Examples.session Hq)
    as [setting [_ [_ [_ [_ [_ [_ [_ [Ha Hm]]]]]]]]].
  split; [reflexivity|]. split; [reflexivity|]. split; [exact Ha | exact Hm].
Defined.

(** C5 fails on the code for the analysis request.  With an analysis
    already in the session and the service down, [handleAnalysis] calls two
    setters, both for the status; the analysis slot still holds the old
    result afterwards.  The search and the venue handlers, run on the same
    session with the same service, leave their slots empty. *)
Theorem failed_analysis_keeps_old_result :
  App.handleAnalysis Examples.envDown Examples.session
  = [App.setAnalysisStatus Types.loading; App.setAnalysisStatus Types.error] /\
  App.analysisResult
    (App.run Examples.session (App.handleAnalysis Examples.envDown Examples.session))
  = Some Examples.oldAnalysis /\
  App.searchResult
    (App.run Examples.session (App.handleSearch Examples.envDown Examples.session))
  = None /\
  App.mapResult
    (App.run Examples.session
       (App.handleMapSearch Examples.envDown (u "Anuga") Examples.session))
  = None.
Proof. repeat split; vm_compute; reflexivity. Qed.

(* ================================================================== *)
(** * The export file name *)
(* ================================================================== *)

Section FileName.
Import ReportGenerator.

Lemma replaceClass_one p x s :
  RegExp.replaceClass p [x] s = map (fun c => if p c then x else c) s.
Proof.
  unfold RegExp.replaceClass. induction s as [|c s IH]; simpl; [reflexivity|].
  rewrite IH. destruct (p c); reflexivity.
Qed.

Lemma safeName_map product :
  safeName product = map Shapes.sanitize (firstn 20 product).
Proof.
  unfold safeName. rewrite replaceClass_one, firstn_map.
  apply map_ext. intros c. unfold Shapes.sanitize, notAlnum.
  destruct (isAlnum c); reflexivity.
Qed.

Lemma digits_are_digits d : Forall (fun c => JSON.isDigit c = true) (digits d).
Proof. induction d; simpl; constructor; auto. Qed.

Lemma digits_nonempty d : d <> Decimal.Nil -> digits d <> [].
Proof. destruct d; simpl; congruence. Qed.

End FileName.

(** C6, as the specification states it, fails: the sanitized name of
    Tea & Spices!! is Tea___Spices__, which holds five underscores, and an
    underscore is not alphanumeric. *)
Lemma sanitized_name_has_underscores :
  ReportGenerator.safeName (u "Tea & Spices!!") = u "Tea___Spices__" /\
  forallb ReportGenerator.isAlnum (ReportGenerator.safeName (u "Tea & Spices!!"))
  = false /\
  ReportGenerator.getFileName 1793650000000 (u "Tea & Spices!!") (u "pdf")
  = u "Kinetick_Trade_Report_Tea___Spices___1793650000000.pdf".
Proof. repeat split; vm_compute; reflexivity. Qed.

(** C6, amended.  The file name is Kinetick_Trade_Report_, the sanitized
    product, an underscore, the time stamp in decimal, a dot and the
    extension.  The sanitized product is the first 20 code units of the
    product string with every ASCII letter and digit kept and every other
    code unit replaced by an underscore, so it holds alphanumerics and
    underscores only and is as long as the product, up to 20.  The time
    stamp is a non-empty run of decimal digits, after a minus sign when the
    time is negative. *)
Theorem file_name_shape (now : Z) (product ext : jsstring) :
  let safe := ReportGenerator.safeName product in
  ReportGenerator.getFileName now product ext
  = u "Kinetick_Trade_Report_" ++ safe ++ u "_"
      ++ ReportGenerator.timeToString now ++ u "." ++ ext /\
  ReportGenerator.wordFileName now product
  = ReportGenerator.getFileName now product (u "docx") /\
  ReportGenerator.pdfFileName now product
  = ReportGenerator.getFileName now product (u "pdf") /\
  safe = map Shapes.sanitize (firstn 20 product) /\
  length safe = Nat.min 20 (length product) /\
  Forall (fun c => ReportGenerator.isAlnum c = true
                   \/ c = ReportGenerator.underscore) safe /\
  exists ds,
    ReportGenerator.timeToString now
    = (if (now <? 0)%Z then [45] else []) ++ ds /\
    ds <> [] /\ Forall (fun c => JSON.isDigit c = true) ds.
Proof.
  intros safe. subst safe.
  split; [reflexivity|]. split; [reflexivity|]. split; [reflexivity|].
  rewrite safeName_map. split; [reflexivity|].
  split; [rewrite length_map, length_firstn; reflexivity|].
  split.
  - apply Forall_forall. intros c Hc. apply in_map_iff in Hc.
    destruct Hc as [c0 [<- _]]. unfold Shapes.sanitize.
    destruct (ReportGenerator.isAlnum c0) eqn:E; auto.
  - unfold ReportGenerator.timeToString. destruct now as [|p|p]; simpl.
    + exists [48]. repeat split; [discriminate | repeat constructor].
    + exists (ReportGenerator.digits (Pos.to_uint p)).
      repeat split; [|apply digits_are_digits].
      apply digits_nonempty. apply DecimalPos.Unsigned.to_uint_nonnil.
    + exists (ReportGenerator.digits (Pos.to_uint p)).
      repeat split; [|apply digits_are_digits].
      apply digits_nonempty. apply DecimalPos.Unsigned.to_uint_nonnil.
Qed.

(* ================================================================== *)
(** * The venue lookup *)
(* ================================================================== *)

Section Venue.
Import GeminiService.

(** The coordinates reach the retrieval configuration exactly when both
    are truthy. *)
Lemma locationConfig_toolConfig lat lng :
  toolConfig (locationConfig (Some lat) (Some lng))
  = if truthy (Some lat) && truthy (Some lng)
    then Some {| latitude := lat; longitude := lng |}
    else None.
Proof.
  unfold locationConfig.
  destruct (truthy (Some lat) && truthy (Some lng)); reflexivity.
Qed.

Lemma nonzero_finite_pair_passes s1 m1 e1 s2 m2 e2 :
  toolConfig (locationConfig (Some (S754_finite s1 m1 e1))
                             (Some (S754_finite s2 m2 e2)))
  = Some {| latitude := S754_finite s1 m1 e1;
            longitude := S754_finite s2 m2 e2 |}.
Proof. reflexivity. Qed.

Lemma findEventLocation_request ai eventName lat lng :
  findEventLocation ai eventName lat lng
  = tryCatch
      (JS.bind (ai {| model := u "gemini-2.5-flash";
                      contents := locationPrompt eventName;
                      config := locationConfig lat lng |})
               (fun response =>
                  Normal {| Types.mr_text :=
                              orString (text response) (u "Location not found.");
                            Types.mr_groundingChunks :=
                              orArray (groundingChunks response) |}))
      (fun e => Throw e).
Proof. reflexivity. Qed.

End Venue.

(** C7 fails on the code for a pair with a zero coordinate.  Latitude 0
    with longitude 32, and latitude 32 with longitude 0, are finite binary64
    pairs; the configuration built for them carries no coordinates, as if
    none had been supplied.  The pair 25, 32 is passed through. *)
Theorem zero_coordinate_not_passed :
  valid_binary 53 1024 Examples.zero = true /\
  valid_binary 53 1024 Examples.thirtyTwo = true /\
  valid_binary 53 1024 Examples.twentyFive = true /\
  GeminiService.toolConfig
    (GeminiService.locationConfig (Some Examples.zero) (Some Examples.thirtyTwo))
  = None /\
  GeminiService.toolConfig
    (GeminiService.locationConfig (Some Examples.thirtyTwo) (Some Examples.zero))
  = None /\
  GeminiService.locationConfig (Some Examples.zero) (Some Examples.thirtyTwo)
  = GeminiService.locationConfig None None /\
  GeminiService.toolConfig
    (GeminiService.locationConfig (Some Examples.twentyFive) (Some Examples.thirtyTwo))
  = Some {| GeminiService.latitude := Examples.twentyFive;
            GeminiService.longitude := Examples.thirtyTwo |}.
Proof. repeat split; vm_compute; reflexivity. Qed.

(* ================================================================== *)
(** * The search prompt *)
(* ================================================================== *)

Section Prompt.
Import GeminiService Props.

Lemma Occurs_middle (pre x post : jsstring) : Occurs x (pre ++ x ++ post).
Proof. exists pre, post. reflexivity. Qed.

Lemma hasLocation_iff location :
  hasLocation location = true <-> exists l, location = Some l /\ trim l <> [].
Proof.
  destruct location as [[|c t]|]; simpl.
  - split; [discriminate|]. intros [l [H N]]. inversion H; subst.
    exfalso. apply N. reflexivity.
  - rewrite negb_true_iff. split.
    + intros H. exists (c :: t). split; [reflexivity|].
      intros E. apply eqb_eq in E. congruence.
    + intros [l [H N]]. inversion H; subst.
      destruct (JS.eqb (trim (c :: t)) []) eqn:E; [|reflexivity].
      apply eqb_eq in E. contradiction.
  - split; [discriminate|]. intros [l [H _]]. discriminate.
Qed.

Lemma global_is_no_filter l : globalInstruction <> filterInstruction l.
Proof. discriminate. Qed.


Lemma Occurs_app_cases m a b :
  Occurs m (a ++ b) ->
  Occurs m a \/ Occurs m b \/
  exists m1 m2 a' post,
    m = m1 ++ m2 /\ m1 <> [] /\ m2 <> [] /\ a = a' ++ m1 /\ b = m2 ++ post.
Proof.
  intros [pre [post E]].
  apply app_eq_app in E. destruct E as [l [[E1 E2]|[E1 E2]]].
  - (* a = pre ++ l, m ++ post = l ++ b *)
    symmetry in E2. apply app_eq_app in E2.
    destruct E2 as [l' [[E3 E4]|[E3 E4]]].
    + (* l = m ++ l' *)
      left. exists pre, l'. rewrite E1, E3. reflexivity.
    + (* m = l ++ l', b = l' ++ post *)
      destruct l as [|x l].
      * right. left. exists [], post. cbn [app] in E3. rewrite E4, E3. reflexivity.
      * destruct l' as [|y l'].
        -- left. exists pre, []. rewrite E1, E3, !app_nil_r. reflexivity.
        -- right. right. exists (x :: l), (y :: l'), pre, post.
           repeat split; try discriminate; assumption.
  - right. left. exists l, post. exact E2.
Qed.

Lemma straddle_index (m m1 m2 : jsstring) :
  m = m1 ++ m2 -> m1 <> [] -> m2 <> [] ->
  In (length m1) (seq 1 (length m - 1)) /\
  firstn (length m1) m = m1 /\ skipn (length m1) m = m2.
Proof.
  intros -> N1 N2. split; [|split].
  - apply in_seq. rewrite length_app.
    destruct m1; [congruence|]. destruct m2; [congruence|]. simpl. lia.
  - rewrite firstn_app, Nat.sub_diag, firstn_all. cbn [firstn]. apply app_nil_r.
  - apply skipn_length_app.
Qed.

(** Behind a fixed text that the words do not occur in, and that does not
    end with a beginning of them, an occurrence lies in what follows. *)
Lemma Occurs_after_fixed m a b :
  includes m a = false -> endsWithBeginning m a = false ->
  Occurs m (a ++ b) -> Occurs m b.
Proof.
  intros Ha Hj O. apply Occurs_app_cases in O.
  destruct O as [O|[O|[m1 [m2 [a' [post [Em [N1 [N2 [Ea Eb]]]]]]]]]].
  - apply includes_false in Ha. contradiction.
  - exact O.
  - exfalso. destruct (straddle_index m m1 m2 Em N1 N2) as [I [F _]].
    assert (X : endsWithBeginning m a = true).
    { unfold endsWithBeginning. apply existsb_exists.
      exists (length m1). split; [exact I|].
      rewrite F, Ea, rev_app_distr. apply startsWith_app. }
    congruence.
Qed.

(** Behind a text free of the words, before a fixed text that neither
    opens with an ending of them nor opens one, an occurrence lies in the
    fixed text and what follows it. *)
Lemma Occurs_after_free m v b r :
  ~ Occurs m v -> opensWithEnding m b = false ->
  Occurs m (v ++ b ++ r) -> Occurs m (b ++ r).
Proof.
  intros Hv Hj O. apply Occurs_app_cases in O.
  destruct O as [O|[O|[m1 [m2 [a' [post [Em [N1 [N2 [Ea Eb]]]]]]]]]].
  - contradiction.
  - exact O.
  - exfalso. destruct (straddle_index m m1 m2 Em N1 N2) as [I [_ S]].
    assert (X : opensWithEnding m b = true).
    { unfold opensWithEnding. apply existsb_exists.
      exists (length m1). split; [exact I|]. rewrite S.
      apply app_eq_app in Eb. destruct Eb as [l [[E1 E2]|[E1 E2]]].
      - rewrite E1, startsWith_app. reflexivity.
      - rewrite E1, startsWith_app. apply orb_true_r. }
    congruence.
Qed.

(** The prompt that asks for a global search, as fixed text around the date
    (twice) and the product query; the location filter does not occur in
    the fixed text, and no occurrence can lie across the end of a piece. *)
Lemma global_prompt_pieces :
  exists A0 A1 A2 T,
    (forall today productQuery,
        promptHead today productQuery ++ globalInstruction ++ promptTail
        = A0 ++ today ++ A1 ++ productQuery ++ A2 ++ today ++ T) /\
    (includes filterOpening A0 = false /\
     includes filterOpening A1 = false /\
     includes filterOpening A2 = false /\
     includes filterOpening T = false) /\
    (endsWithBeginning filterOpening A0 = false /\
     endsWithBeginning filterOpening A1 = false /\
     endsWithBeginning filterOpening A2 = false) /\
    (opensWithEnding filterOpening A1 = false /\
     opensWithEnding filterOpening A2 = false /\
     opensWithEnding filterOpening T = false).
Proof.
  exists (nl :: u "    Current Date: ").
  exists (u "." ++ nl :: u "    I am an exporter dealing in: " ++ [dq]).
  exists (dq :: u "."
          ++ nl :: u "    "
          ++ nl :: (u "    1. First, identify the specific Export Promotion Council (EPC) in India relevant to this product. Start response with "
                    ++ quoted (u "Relevant EPC: [EPC Name]") ++ u ".")
          ++ nl :: u "    2. Then, find UPCOMING trade events, exhibitions, buyer-seller meets, and delegation meetings relevant to this product sector."
          ++ nl :: u "    "
          ++ nl :: u "    STRICT TIME CONSTRAINT:"
          ++ nl :: u "    - ONLY list events happening AFTER ").
  exists (u "."
          ++ nl :: u "    - DO NOT list events that have already passed."
          ++ nl :: u "    "
          ++ nl :: u "    "
          ++ globalInstruction ++ promptTail).
  split; [|split; [|split]].
  - intros today productQuery. unfold promptHead, quoted.
    cbn [flat_map].
    repeat (rewrite <- app_assoc || (progress cbn [app])).
    reflexivity.
  - repeat split; vm_compute; reflexivity.
  - repeat split; vm_compute; reflexivity.
  - repeat split; vm_compute; reflexivity.
Qed.

(** With a date and a product query that do not hold the opening words of
    the filter, the prompt that asks for a global search does not either. *)
Lemma global_prompt_has_no_filter today productQuery :
  ~ Occurs filterOpening today -> ~ Occurs filterOpening productQuery ->
  ~ Occurs filterOpening
      (promptHead today productQuery ++ globalInstruction ++ promptTail).
Proof.
  intros Ht Hq O.
  destruct global_prompt_pieces
    as [A0 [A1 [A2 [T [E [[I0 [I1 [I2 IT]]] [[C0 [C1 C2]] [O1 [O2 OT]]]]]]]]].
  rewrite E in O.
  apply (Occurs_after_fixed _ _ _ I0 C0) in O.
  apply (Occurs_after_free _ _ _ _ Ht O1) in O.
  apply (Occurs_after_fixed _ _ _ I1 C1) in O.
  apply (Occurs_after_free _ _ _ _ Hq O2) in O.
  apply (Occurs_after_fixed _ _ _ I2 C2) in O.
  rewrite <- (app_nil_r T) in O.
  apply (Occurs_after_free _ _ _ _ Ht OT) in O.
  rewrite app_nil_r in O. apply includes_false in IT. contradiction.
Qed.

Lemma filter_has_opening l s :
  Occurs (filterInstruction l) s -> Occurs filterOpening s.
Proof.
  intros [pre [post ->]]. unfold filterInstruction. fold filterOpening.
  exists pre.
  exists (quoted l
          ++ u ". FILTER OUT ALL events that are not in this location."
          ++ post).
  rewrite <- !app_assoc. reflexivity.
Qed.

End Prompt.

(** C8, as the specification states it, fails.  The product query is put
    into the prompt as it is: with the empty location and a product text
    that holds a location filter, the prompt that searchTradeEvents sends
    holds that filter, although the location is blank (and the sentence
    asking for a global search as well). *)
Lemma filter_instruction_from_the_product_text :
  let today := u "November 2, 2026" in
  let productQuery :=
    u "Tea. " ++ GeminiService.filterInstruction (u "Dubai") in
  let request := GeminiService.searchRequest today productQuery (Some []) in
  GeminiService.hasLocation (Some []) = false /\
  (forall ai,
      GeminiService.searchTradeEvents ai today productQuery (Some [])
      = tryCatch (JS.bind (ai request) GeminiService.processResponse)
                 (fun e => Throw e)) /\
  includes (GeminiService.filterInstruction (u "Dubai"))
           (GeminiService.contents request) = true /\
  includes GeminiService.globalInstruction
           (GeminiService.contents request) = true.
Proof.
  cbv zeta. split; [reflexivity|]. split; [reflexivity|].
  split; vm_compute; reflexivity.
Qed.

(** C8, amended.  The prompt that searchTradeEvents sends is fixed text
    around the date, the product query and one instruction, and that
    instruction is the strict location filter -- naming the location between
    quotes and telling to filter out all events not in it -- if and only if
    the location is non-blank, that is, non-empty once trimmed; otherwise it
    is the sentence asking for a global search.  With a non-blank location
    the prompt holds the filter naming the location, whatever the product
    query.  With a blank location the prompt holds the sentence asking for
    a global search, and holds no location filter provided neither the date
    nor the product query holds the words a filter opens with; under that
    proviso the prompt holds a location filter if and only if the location
    is non-blank. *)
Theorem location_filter_iff_nonblank
        (today productQuery : jsstring) (location : option jsstring) :
  let request := GeminiService.searchRequest today productQuery location in
  let prompt := GeminiService.contents request in
  (forall ai,
      GeminiService.searchTradeEvents ai today productQuery location
      = tryCatch (JS.bind (ai request) GeminiService.processResponse)
                 (fun e => Throw e)) /\
  prompt = GeminiService.promptHead today productQuery
             ++ GeminiService.locationInstruction location
             ++ GeminiService.promptTail /\
  (GeminiService.hasLocation location = true <->
   exists l, location = Some l /\ trim l <> []) /\
  ((exists l, GeminiService.locationInstruction location
              = GeminiService.filterInstruction l) <->
   GeminiService.hasLocation location = true) /\
  (GeminiService.hasLocation location = true ->
   exists l,
     location = Some l /\
     GeminiService.locationInstruction location = GeminiService.filterInstruction l /\
     Occurs (GeminiService.filterInstruction l) prompt /\
     Occurs (GeminiService.quoted l) (GeminiService.filterInstruction l) /\
     Occurs (u "FILTER OUT ALL events that are not in this location.")
            (GeminiService.filterInstruction l)) /\
  (GeminiService.hasLocation location = false ->
   GeminiService.locationInstruction location = GeminiService.globalInstruction /\
   Occurs GeminiService.globalInstruction prompt /\
   (~ Occurs Props.filterOpening today ->
    ~ Occurs Props.filterOpening productQuery ->
    ~ Occurs Props.filterOpening prompt /\
    forall l, ~ Occurs (GeminiService.filterInstruction l) prompt)) /\
  (~ Occurs Props.filterOpening today ->
   ~ Occurs Props.filterOpening productQuery ->
   ((exists l, Occurs (GeminiService.filterInstruction l) prompt) <->
    GeminiService.hasLocation location = true)).
Proof.
  intros request prompt. subst prompt request.
  cbn [GeminiService.contents GeminiService.searchRequest].
  assert (Slot : (exists l, GeminiService.locationInstruction location
                            = GeminiService.filterInstruction l) <->
                 GeminiService.hasLocation location = true).
  { split.
    - intros [l H]. unfold GeminiService.locationInstruction in H.
      destruct location as [l0|]; [|exfalso; exact (global_is_no_filter l H)].
      destruct (GeminiService.hasLocation (Some l0)); [reflexivity|].
      exfalso; exact (global_is_no_filter l H).
    - intros H. unfold GeminiService.locationInstruction.
      destruct location as [l0|]; [|discriminate]. rewrite H. eauto. }
  assert (Filter : GeminiService.hasLocation location = true ->
                   exists l,
                     location = Some l /\
                     GeminiService.locationInstruction location
                     = GeminiService.filterInstruction l /\
                     Occurs (GeminiService.filterInstruction l)
                            (GeminiService.searchPrompt today productQuery location)).
  { intros H. unfold GeminiService.searchPrompt, GeminiService.locationInstruction.
    destruct location as [l|]; [|discriminate]. rewrite H.
    exists l. split; [reflexivity|]. split; [reflexivity|].
    apply Occurs_middle. }
  assert (Global : GeminiService.hasLocation location = false ->
                   GeminiService.locationInstruction location
                   = GeminiService.globalInstruction).
  { intros H. unfold GeminiService.locationInstruction.
    destruct location; [rewrite H|]; reflexivity. }
  assert (Free : GeminiService.hasLocation location = false ->
                 ~ Occurs Props.filterOpening today ->
                 ~ Occurs Props.filterOpening productQuery ->
                 ~ Occurs Props.filterOpening
                     (GeminiService.searchPrompt today productQuery location)).
  { intros H Ht Hq. unfold GeminiService.searchPrompt. rewrite (Global H).
    apply global_prompt_has_no_filter; assumption. }
  split; [intros ai; reflexivity|].
  split; [reflexivity|].
  split; [apply hasLocation_iff|].
  split; [exact Slot|].
  split.
  { intros H. destruct (Filter H) as [l [E1 [E2 O]]].
    exists l. split; [exact E1|]. split; [exact E2|]. split; [exact O|].
    unfold GeminiService.filterInstruction. split.
    - apply Occurs_middle.
    - eexists _, []. rewrite app_nil_r.
      instantiate (1 := u "CRITICAL INSTRUCTION: The user is ONLY interested in events taking place in or near "
                          ++ GeminiService.quoted l ++ u ". ").
      rewrite <- !app_assoc. reflexivity. }
  split.
  { intros H. split; [exact (Global H)|]. split.
    - unfold GeminiService.searchPrompt. rewrite (Global H). apply Occurs_middle.
    - intros Ht Hq. split; [exact (Free H Ht Hq)|].
      intros l O. apply filter_has_opening in O. exact (Free H Ht Hq O). }
  intros Ht Hq. split.
  - intros [l O].
    destruct (GeminiService.hasLocation location) eqn:H; [reflexivity|].
    exfalso. apply filter_has_opening in O. exact (Free eq_refl Ht Hq O).
  - intros H. destruct (Filter H) as [l [_ [_ O]]]. exists l. exact O.
Qed.

Lemma location_filter_iff_nonblank_witness :
  let shrimp :=
    GeminiService.contents
      (GeminiService.searchRequest (u "November 2, 2026") (u "Frozen Shrimp")
                                   (Some [])) in
  let bags :=
    GeminiService.contents
      (GeminiService.searchRequest (u "November 2, 2026") (u "Leather Bags")
                                   (Some (u " Dubai "))) in
  (Occurs GeminiService.globalInstruction shrimp /\
   forall l, ~ Occurs (GeminiService.filterInstruction l) shrimp) /\
  Occurs (GeminiService.filterInstruction (u " Dubai ")) bags.
Proof.
  cbv zeta. split.
  - destruct (location_filter_iff_nonblank (u "November 2, 2026")
                (u "Frozen Shrimp") (Some []))
      as [_ [_ [_ [_ [_ [G _]]]]]].
    destruct (G eq_refl) as [_ [O F]].
    split; [exact O|].
    apply F; apply includes_false; vm_compute; reflexivity.
  - destruct (location_filter_iff_nonblank (u "November 2, 2026")
                (u "Leather Bags") (Some (u " Dubai ")))
      as [_ [_ [_ [_ [F _]]]]].
    destruct (F ltac:(vm_compute; reflexivity)) as [l [E [_ [O _]]]].
    injection E as <-. exact O.
Defined.

(* ================================================================== *)
(** * More about the string operations *)
(* ================================================================== *)

Section Trimming.
Import Shapes Props.

Lemma trimStart_split s : exists l, s = l ++ trimStart s /\ Blank l.
Proof.
  induction s as [|c s [l [E B]]]; simpl.
  - exists []. split; [reflexivity | constructor].
  - destruct (isWhiteSpace c) eqn:W.
    + exists (c :: l). split; [simpl; f_equal; exact E | constructor; assumption].
    + exists []. split; [reflexivity | constructor].
Qed.

Lemma trimStart_head s c t : trimStart s = c :: t -> isWhiteSpace c = false.
Proof.
  induction s as [|x s IH]; simpl; [discriminate|].
  destruct (isWhiteSpace x) eqn:W; [exact IH|].
  intros H; inversion H; subst. exact W.
Qed.

Lemma trimStart_keep s :
  (forall c t, s = c :: t -> isWhiteSpace c = false) -> trimStart s = s.
Proof.
  destruct s as [|c t]; [reflexivity|]. intros H. simpl.
  rewrite (H c t eq_refl). reflexivity.
Qed.

Lemma trimStart_app_keep a x r :
  isWhiteSpace x = false -> trimStart (a ++ x :: r) = trimStart a ++ x :: r.
Proof.
  intros W. induction a as [|c a IH]; simpl.
  - rewrite W. reflexivity.
  - destruct (isWhiteSpace c); [exact IH | reflexivity].
Qed.

Lemma Blank_rev l : Blank l -> Blank (rev l).
Proof. unfold Blank. intros H. apply Forall_rev. exact H. Qed.

Lemma trimEnd_split s : exists r, s = trimEnd s ++ r /\ Blank r.
Proof.
  unfold trimEnd. destruct (trimStart_split (rev s)) as [l [E B]].
  exists (rev l). split; [|apply Blank_rev; exact B].
  rewrite <- rev_app_distr, <- E. symmetry. apply rev_involutive.
Qed.

Lemma trimEnd_last s t c : trimEnd s = t ++ [c] -> isWhiteSpace c = false.
Proof.
  unfold trimEnd. intros H.
  apply (f_equal (@rev codeunit)) in H.
  rewrite rev_involutive, rev_app_distr in H. simpl in H.
  exact (trimStart_head _ _ _ H).
Qed.

Lemma trimEnd_keep s :
  (forall t c, s = t ++ [c] -> isWhiteSpace c = false) -> trimEnd s = s.
Proof.
  intros H. unfold trimEnd. rewrite trimStart_keep; [apply rev_involutive|].
  intros c t E. apply (H (rev t) c).
  rewrite <- (rev_involutive s), E. reflexivity.
Qed.

Lemma trimEnd_app_keep a x r :
  isWhiteSpace x = false -> trimEnd (a ++ x :: r) = a ++ x :: trimEnd r.
Proof.
  intros W. unfold trimEnd.
  rewrite rev_app_distr. simpl. rewrite <- app_assoc. simpl.
  rewrite trimStart_app_keep by exact W.
  rewrite rev_app_distr. simpl. rewrite rev_involutive, <- app_assoc. reflexivity.
Qed.

Lemma trim_split s : exists l r, s = l ++ trim s ++ r /\ Blank l /\ Blank r.
Proof.
  unfold trim. destruct (trimStart_split s) as [l [E B]].
  destruct (trimEnd_split (trimStart s)) as [r [E' B']].
  exists l, r. split; [|split; assumption].
  rewrite <- E'. exact E.
Qed.

Lemma trim_Trimmed s : Trimmed (trim s).
Proof.
  unfold trim. split.
  - intros c t E.
    destruct (trimEnd_split (trimStart s)) as [r [E' _]].
    rewrite E in E'. simpl in E'. exact (trimStart_head _ _ _ E').
  - intros t c E. exact (trimEnd_last _ _ _ E).
Qed.

Lemma trim_keep s : Trimmed s -> trim s = s.
Proof.
  intros [H1 H2]. unfold trim. rewrite (trimStart_keep s H1).
  apply trimEnd_keep. exact H2.
Qed.

Lemma trim_Blank s : Blank s -> trim s = [].
Proof.
  intros B. unfold trim.
  assert (E : trimStart s = []).
  { induction B as [|c s W B IH]; simpl; [reflexivity|]. rewrite W. exact IH. }
  rewrite E. reflexivity.
Qed.


Lemma In_trimStart c s : In c (trimStart s) -> In c s.
Proof.
  destruct (trimStart_split s) as [l [E _]]. intros I.
  rewrite E. apply in_or_app. right. exact I.
Qed.

Lemma In_trimEnd c s : In c (trimEnd s) -> In c s.
Proof.
  destruct (trimEnd_split s) as [r [E _]]. intros I.
  rewrite E. apply in_or_app. left. exact I.
Qed.

Lemma In_trim c s : In c (trim s) -> In c s.
Proof. unfold trim. intros I. apply In_trimStart, In_trimEnd. exact I. Qed.

Lemma Occurs_sub sep l s r : Occurs sep s -> Occurs sep (l ++ s ++ r).
Proof.
  intros [pre [post ->]]. exists (l ++ pre), (post ++ r).
  rewrite <- !app_assoc. reflexivity.
Qed.

Lemma Occurs_trim sep s : Occurs sep (trim s) -> Occurs sep s.
Proof.
  intros O. destruct (trim_split s) as [l [r [E _]]].
  rewrite E. apply Occurs_sub. exact O.
Qed.

(** The text before the first occurrence holds none. *)
Lemma breakOn_before_free sep s a b :
  sep <> [] -> breakOn sep s = Some (a, b) -> ~ Occurs sep a.
Proof.
  intros Hsep B [p [q E]]. apply breakOn_Some in B.
  destruct B as [[_ First] Es].
  assert (L : (length p < length a)%nat).
  { rewrite E, !length_app. destruct sep; [congruence | simpl; lia]. }
  specialize (First (length p) L).
  rewrite Es, E in First. rewrite <- !app_assoc in First.
  rewrite skipn_length_app, startsWith_app in First. discriminate.
Qed.

End Trimming.

(* ================================================================== *)
(** * More about the splitter and the extractor *)
(* ================================================================== *)

Section SplitterMore.
Import GeminiService Shapes Props.

Lemma splitResponse_cases fullText :
  (breakOn delimiter fullText = None /\
   splitResponse fullText = Normal (trim fullText, [])) \/
  (exists a rest, breakOn delimiter fullText = Some (a, rest) /\
     ((breakOn delimiter rest = None /\
       splitResponse fullText = Normal (trim a, trim rest)) \/
      (exists b rest', breakOn delimiter rest = Some (b, rest') /\
                       splitResponse fullText = Normal (trim a, trim b)))).
Proof.
  destruct (breakOn delimiter fullText) as [[a rest]|] eqn:B1.
  - right. exists a, rest. split; [reflexivity|].
    destruct (breakOn delimiter rest) as [[b rest']|] eqn:B2.
    + right. exists b, rest'. split; [reflexivity|].
      eapply splitResponse_two; eauto.
    + left. split; [reflexivity|]. eapply splitResponse_one_delimiter; eauto.
  - left. split; [reflexivity|]. apply splitResponse_one. exact B1.
Qed.

End SplitterMore.

(** X1. When the delimiter occurs exactly once -- first after [before], not
    at all in [after] -- the narrative part is [before] trimmed and the
    structured part is [after] trimmed: the two parts and the delimiter make
    up the reply again, but for the white space trimmed away. *)
Theorem split_with_one_delimiter (before after : jsstring) :
  let d := GeminiService.delimiter in
  FirstAt d before (before ++ d ++ after) ->
  ~ Occurs d after ->
  GeminiService.splitResponse (before ++ d ++ after)
  = Normal (trim before, trim after) /\
  exists l1 r1 l2 r2,
    Shapes.Blank l1 /\ Shapes.Blank r1 /\ Shapes.Blank l2 /\ Shapes.Blank r2 /\
    before ++ d ++ after
    = (l1 ++ trim before ++ r1) ++ d ++ (l2 ++ trim after ++ r2).
Proof.
  intros d F N. split.
  - apply (splitResponse_one_delimiter _ before after).
    + apply breakOn_FirstAt. exact F.
    + apply breakOn_None. exact N.
  - destruct (trim_split before) as [l1 [r1 [E1 [B1 B1']]]].
    destruct (trim_split after) as [l2 [r2 [E2 [B2 B2']]]].
    exists l1, r1, l2, r2. repeat split; auto.
    rewrite <- E1, <- E2. reflexivity.
Qed.

Lemma split_with_one_delimiter_witness :
  GeminiService.splitResponse
    (u "Relevant EPC: APEDA " ++ GeminiService.delimiter ++ u " [] ")
  = Normal (u "Relevant EPC: APEDA", u "[]").
Proof.
  assert (F : FirstAt GeminiService.delimiter (u "Relevant EPC: APEDA ")
                (u "Relevant EPC: APEDA " ++ GeminiService.delimiter ++ u " [] "))
    by (apply FirstAt_by_search; vm_compute; reflexivity).
  assert (N : ~ Occurs GeminiService.delimiter (u " [] "))
    by (apply includes_false; vm_compute; reflexivity).
  exact (proj1 (split_with_one_delimiter (u "Relevant EPC: APEDA ") (u " [] ") F N)).
Defined.

(** X2. Whatever the reply, the splitter returns two parts, neither of which
    holds the delimiter and neither of which opens or closes with white
    space. *)
Theorem split_parts_clean (fullText : jsstring) :
  exists displayText jsonPart,
    GeminiService.splitResponse fullText = Normal (displayText, jsonPart) /\
    ~ Occurs GeminiService.delimiter displayText /\
    ~ Occurs GeminiService.delimiter jsonPart /\
    Props.Trimmed displayText /\ Props.Trimmed jsonPart.
Proof.
  assert (E0 : ~ Occurs GeminiService.delimiter [])
    by (apply includes_false; reflexivity).
  assert (T0 : Props.Trimmed (trim [])) by apply trim_Trimmed.
  destruct (splitResponse_cases fullText)
    as [[B1 S] | [a [rest [B1 [[B2 S] | [b [rest' [B2 S]]]]]]]].
  - exists (trim fullText), []. split; [exact S|].
    split; [|split; [exact E0 | split; [apply trim_Trimmed | exact T0]]].
    intros O. apply Occurs_trim in O. apply breakOn_None in B1. contradiction.
  - exists (trim a), (trim rest). split; [exact S|].
    split; [|split; [|split; apply trim_Trimmed]].
    + intros O. apply Occurs_trim in O.
      exact (breakOn_before_free _ _ _ _ delimiter_nonempty B1 O).
    + intros O. apply Occurs_trim in O. apply breakOn_None in B2. contradiction.
  - exists (trim a), (trim b). split; [exact S|].
    split; [|split; [|split; apply trim_Trimmed]].
    + intros O. apply Occurs_trim in O.
      exact (breakOn_before_free _ _ _ _ delimiter_nonempty B1 O).
    + intros O. apply Occurs_trim in O.
      exact (breakOn_before_free _ _ _ _ delimiter_nonempty B2 O).
Qed.

Section StarMore.
Import RegExp.
Variable A : Type.

(** A greedy star that cannot go further hands over where it stopped. *)
Lemma star_greedy_stop p x y (k : jsstring -> option A) r :
  Forall (fun c => p c = true) x ->
  (forall c t, y = c :: t -> p c = false) ->
  k y = Some r ->
  star true p (x ++ y) k = Some r.
Proof.
  intros Hx Hy Hk. induction Hx as [|c x Pc Hx IH]; cbn [app].
  - destruct y as [|c t]; simpl; [exact Hk|].
    rewrite (Hy c t eq_refl). exact Hk.
  - simpl. rewrite Pc, IH. reflexivity.
Qed.

(** A star fails when the continuation fails wherever the star can stop. *)
Lemma star_none_prefix g p t (k : jsstring -> option A) :
  (forall z' z, t = z' ++ z -> Forall (fun c => p c = true) z' -> k z = None) ->
  star g p t k = None.
Proof.
  induction t as [|c t IH]; intros H; simpl.
  - apply (H [] []); [reflexivity | constructor].
  - assert (Hk : k (c :: t) = None) by (apply (H [] (c :: t)); [reflexivity | constructor]).
    destruct (p c) eqn:Pc; [|exact Hk].
    assert (Hs : star g p t k = None).
    { apply IH. intros z' z E F. apply (H (c :: z') z).
      - rewrite E. reflexivity.
      - constructor; assumption. }
    destruct g; rewrite ?Hs, ?Hk; reflexivity.
Qed.

(** A lazy star stops at the first place where the continuation accepts. *)
Lemma star_lazy_first p x y (k : jsstring -> option A) r :
  Forall (fun c => p c = true) x ->
  (forall x1 x2, x = x1 ++ x2 -> x2 <> [] -> k (x2 ++ y) = None) ->
  k y = Some r ->
  star false p (x ++ y) k = Some r.
Proof.
  intros Hx. induction Hx as [|c x Pc Hx IH]; intros Hn Hk; cbn [app].
  - destruct y as [|c t]; simpl; [exact Hk|].
    destruct (p c); rewrite Hk; reflexivity.
  - simpl. rewrite Pc.
    pose proof (Hn [] (c :: x) eq_refl ltac:(discriminate)) as K0.
    cbn [app] in K0. rewrite K0.
    apply IH; [|exact Hk].
    intros x1 x2 E N. apply (Hn (c :: x1) x2); [rewrite E; reflexivity | exact N].
Qed.

Lemma star_lazy_sound p s (k : jsstring -> option A) r :
  star false p s k = Some r ->
  exists w s', s = w ++ s' /\ Forall (fun c => p c = true) w /\ k s' = Some r /\
               forall w1 w2, w = w1 ++ w2 -> w2 <> [] -> k (w2 ++ s') = None.
Proof.
  induction s as [|c t IH]; simpl.
  - intros H. exists [], []. repeat split; auto.
    intros w1 w2 E N. destruct w1; destruct w2; simpl in E; congruence.
  - destruct (p c) eqn:Pc.
    + destruct (k (c :: t)) eqn:K.
      * intros H; inversion H; subst. exists [], (c :: t). repeat split; auto.
        intros w1 w2 E N. destruct w1; destruct w2; simpl in E; congruence.
      * intros H. destruct (IH H) as [w [s' [-> [Fw [Ks Hn]]]]].
        exists (c :: w), s'. repeat split; auto.
        intros w1 w2 E N. destruct w1 as [|d w1]; simpl in E.
        -- subst w2. exact K.
        -- inversion E; subst. apply (Hn w1 w2); auto.
    + intros H. exists [], (c :: t). repeat split; auto.
      intros w1 w2 E N. destruct w1; destruct w2; simpl in E; congruence.
Qed.

(** A run of literal characters against a text. *)
Lemma run_lit p s caps (k : jsstring -> list jsstring -> option A) :
  run (lit p) s caps k
  = if startsWith p s then k (skipn (length p) s) caps else None.
Proof.
  revert s. induction p as [|c p IH]; intros s; simpl; [reflexivity|].
  destruct s as [|x s]; [reflexivity|].
  rewrite N.eqb_sym.
  destruct (c =? x); simpl; [apply IH | reflexivity].
Qed.

Lemma run_lit_app p s caps (k : jsstring -> list jsstring -> option A) :
  run (lit p) (p ++ s) caps k = k s caps.
Proof. rewrite run_lit, startsWith_app, skipn_length_app. reflexivity. Qed.

Lemma run_lit_head c p x s caps (k : jsstring -> list jsstring -> option A) :
  x <> c -> run (lit (c :: p)) (x :: s) caps k = None.
Proof.
  intros N. simpl. destruct (N.eqb_spec x c); [contradiction | reflexivity].
Qed.

End StarMore.

Section ExtractorMore.
Import RegExp JSON GeminiService Shapes Props.

Lemma run_Cat (A : Type) r1 r2 s caps (k : jsstring -> list jsstring -> option A) :
  run (Cat r1 r2) s caps k = run r1 s caps (fun s' caps' => run r2 s' caps' k).
Proof. reflexivity. Qed.

Lemma run_Star (A : Type) g p s caps (k : jsstring -> list jsstring -> option A) :
  run (Star g p) s caps k = star g p s (fun s' => k s' caps).
Proof. reflexivity. Qed.

Lemma run_Group (A : Type) r s caps (k : jsstring -> list jsstring -> option A) :
  run (Group r) s caps k
  = run r s caps (fun s' caps' => k s' (caps' ++ [firstn (length s - length s') s])).
Proof. reflexivity. Qed.

Lemma orString_nonempty s dflt : s <> [] -> orString (Some s) dflt = s.
Proof. destruct s; [congruence | reflexivity]. Qed.

Lemma arrayText_ends objs :
  exists mid, arrayText objs = 91 :: mid ++ [93].
Proof. unfold arrayText. eauto. Qed.



End ExtractorMore.

Section FallbackMore.
Import RegExp JSON GeminiService Shapes Props.





Lemma rethrow (A B : Type) (c : completion A) (k : A -> completion B) e :
  (forall a, exists b, k a = Normal b) ->
  (tryCatch (JS.bind c k) (fun e => Throw e) = Throw e <-> c = Throw e).
Proof.
  intros Hk. destruct c as [a|e']; simpl.
  - destruct (Hk a) as [b ->]. simpl. split; discriminate.
  - split; intros H; inversion H; reflexivity.
Qed.

End FallbackMore.





(** X5. The three service functions fail exactly when the model call fails,
    and then with the exception of the call: nothing they do to a reply
    throws, and the handler they wrap the call in throws again what it
    caught. *)
Theorem service_failures_are_call_failures
        (ai : GeminiService.Service) (e : exn) :
  (forall today productQuery location,
      GeminiService.searchTradeEvents ai today productQuery location = Throw e <->
      ai (GeminiService.searchRequest today productQuery location) = Throw e) /\
  (forall eventsText userProfile,
      GeminiService.analyzeStrategicFit ai eventsText userProfile = Throw e <->
      ai {| GeminiService.model := u "gemini-3-pro-preview";
            GeminiService.contents :=
              GeminiService.analysisPrompt eventsText userProfile;
            GeminiService.config :=
              {| GeminiService.tools := [];
                 GeminiService.responseModalities := None;
                 GeminiService.thinkingBudget := Some 32768;
                 GeminiService.toolConfig := None |} |} = Throw e) /\
  (forall eventName userLat userLng,
      GeminiService.findEventLocation ai eventName userLat userLng = Throw e <->
      ai {| GeminiService.model := u "gemini-2.5-flash";
            GeminiService.contents := GeminiService.locationPrompt eventName;
            GeminiService.config :=
              GeminiService.locationConfig userLat userLng |} = Throw e).
Proof.
  split; [|split].
  - intros today productQuery location.
    unfold GeminiService.searchTradeEvents. apply rethrow.
    intros a. apply processResponse_total.
  - intros eventsText userProfile. unfold GeminiService.analyzeStrategicFit.
    apply rethrow. intros a. eexists. reflexivity.
  - intros eventName userLat userLng. unfold GeminiService.findEventLocation.
    apply rethrow. intros a. eexists. reflexivity.
Qed.

(* ================================================================== *)
(** * More about the session handlers *)
(* ================================================================== *)

(** X6. Each handler writes its own slots only.  An analysis leaves the
    search and venue slots and every input field as they were; a venue
    lookup leaves the search and analysis slots as they were and records the
    event it was asked about; a search leaves the input fields as they were
    and, although it empties the analysis and venue results, leaves the
    analysis and venue statuses as they were. *)
Theorem handlers_write_their_own_slots
        (env : App.Env) (st : App.State) (eventName : jsstring) :
  let a := App.run st (App.handleAnalysis env st) in
  let m := App.run st (App.handleMapSearch env eventName st) in
  let s := App.run st (App.handleSearch env st) in
  (App.searchResult a = App.searchResult st /\
   App.searchStatus a = App.searchStatus st /\
   App.mapResult a = App.mapResult st /\
   App.mapStatus a = App.mapStatus st /\
   App.selectedEventForMap a = App.selectedEventForMap st /\
   App.selectedType a = App.selectedType st /\
   App.productQuery a = App.productQuery st /\
   App.locationQuery a = App.locationQuery st /\
   App.userProfile a = App.userProfile st) /\
  (App.searchResult m = App.searchResult st /\
   App.searchStatus m = App.searchStatus st /\
   App.analysisResult m = App.analysisResult st /\
   App.analysisStatus m = App.analysisStatus st /\
   App.selectedEventForMap m = eventName /\
   App.selectedType m = App.selectedType st /\
   App.productQuery m = App.productQuery st /\
   App.locationQuery m = App.locationQuery st /\
   App.userProfile m = App.userProfile st) /\
  (App.analysisStatus s = App.analysisStatus st /\
   App.mapStatus s = App.mapStatus st /\
   App.selectedEventForMap s = App.selectedEventForMap st /\
   App.productQuery s = App.productQuery st /\
   App.locationQuery s = App.locationQuery st /\
   App.userProfile s = App.userProfile st).
Proof.
  intros a m s. subst a m s.
  destruct st as [pq lq ss sr ast ar up ms mr se sty].
  split; [|split].
  - unfold App.handleAnalysis. cbn [App.searchResult App.userProfile].
    destruct sr as [r|]; [|repeat split; reflexivity].
    destruct up as [|c t]; [repeat split; reflexivity|].
    destruct (GeminiService.analyzeStrategicFit _ _ _);
      repeat split; reflexivity.
  - unfold App.handleMapSearch.
    destruct (App.geolocation env); cbv beta iota zeta;
      match goal with
      | |- context [GeminiService.findEventLocation ?x ?n ?la ?lo] =>
          destruct (GeminiService.findEventLocation x n la lo)
      end; repeat split; reflexivity.
  - unfold App.handleSearch. cbn [App.productQuery App.locationQuery].
    destruct pq as [|c t]; [repeat split; reflexivity|].
    destruct (GeminiService.searchTradeEvents _ _ _ _);
      repeat split; reflexivity.
Qed.

(** X7. When a handler has run, the status of its slot tells what the slot
    holds.  After a search with a non-empty product query the status is
    success and a result is stored, or it is error and the slot is empty;
    the same after a venue lookup; after an analysis that passed its guard
    the status is success and a result is stored, or it is error and the
    slot holds what it held.  A search with an empty product query, and an
    analysis without a search result or with an empty profile, call no
    setter at all. *)
Theorem status_tells_result
        (env : App.Env) (st : App.State) (eventName : jsstring) :
  (App.productQuery st <> [] ->
   let s := App.run st (App.handleSearch env st) in
   (App.searchStatus s = Types.success /\ exists r, App.searchResult s = Some r) \/
   (App.searchStatus s = Types.error /\ App.searchResult s = None)) /\
  (let m := App.run st (App.handleMapSearch env eventName st) in
   (App.mapStatus m = Types.success /\ exists r, App.mapResult m = Some r) \/
   (App.mapStatus m = Types.error /\ App.mapResult m = None)) /\
  (App.searchResult st <> None -> App.userProfile st <> [] ->
   let a := App.run st (App.handleAnalysis env st) in
   (App.analysisStatus a = Types.success /\
    exists r, App.analysisResult a = Some r) \/
   (App.analysisStatus a = Types.error /\
    App.analysisResult a = App.analysisResult st)) /\
  (App.productQuery st = [] -> App.handleSearch env st = []) /\
  (App.searchResult st = None \/ App.userProfile st = [] ->
   App.handleAnalysis env st = []).
Proof.
  split; [|split; [|split; [|split]]].
  - intros Q s. subst s. unfold App.handleSearch.
    destruct (App.productQuery st) as [|c t]; [congruence|].
    destruct (GeminiService.searchTradeEvents _ _ _ _) as [r|e]; destruct st; cbn.
    + left. split; [reflexivity | exists r; reflexivity].
    + right. split; reflexivity.
  - intros m. subst m. unfold App.handleMapSearch.
    destruct (App.geolocation env); cbv beta iota zeta;
      match goal with
      | |- context [GeminiService.findEventLocation ?x ?n ?la ?lo] =>
          destruct (GeminiService.findEventLocation x n la lo) as [r|e]
      end; destruct st; cbn;
      try (left; split; [reflexivity | exists r; reflexivity]);
      right; split; reflexivity.
  - intros S P a. subst a. unfold App.handleAnalysis.
    destruct (App.searchResult st) as [sr|]; [|congruence].
    destruct (App.userProfile st) as [|c t]; [congruence|].
    destruct (GeminiService.analyzeStrategicFit _ _ _) as [r|e]; destruct st; cbn.
    + left. split; [reflexivity | exists r; reflexivity].
    + right. split; reflexivity.
  - intros Q. unfold App.handleSearch. rewrite Q. reflexivity.
  - intros [S | P]; unfold App.handleAnalysis.
    + rewrite S. reflexivity.
    + rewrite P. destruct (App.searchResult st); reflexivity.
Qed.

Lemma status_tells_result_witness :
  App.searchStatus
    (App.run Examples.session (App.handleSearch Examples.envOk Examples.session))
  = Types.success /\
  App.analysisStatus
    (App.run Examples.session (App.handleAnalysis Examples.envDown Examples.session))
  = Types.error /\
  App.handleSearch Examples.envOk App.initial = [].
Proof.
  destruct (status_tells_result Examples.envOk Examples.session (u "Anuga"))
    as [S _].
  destruct (status_tells_result Examples.envDown Examples.session (u "Anuga"))
    as [_ [_ [A _]]].
  destruct (status_tells_result Examples.envOk App.initial (u "Anuga"))
    as [_ [_ [_ [E _]]]].
  split; [|split].
  - destruct (S ltac:(discriminate)) as [[H _] | [H _]]; [exact H|].
    vm_compute in H. discriminate.
  - destruct (A ltac:(discriminate) ltac:(discriminate)) as [[H _] | [H _]];
      [|exact H].
    vm_compute in H. discriminate.
  - exact (E eq_refl).
Defined.

(* ================================================================== *)
(** * The text of the report: cleanText *)
(* ================================================================== *)

Section Replacing.
Import RegExp.

Lemma matchAt_lit p s :
  matchAt (lit p) s = if startsWith p s then Some (p, []) else None.
Proof.
  unfold matchAt. rewrite run_lit.
  destruct (startsWith p s) eqn:E; [|reflexivity].
  apply startsWith_iff in E. destruct E as [t ->].
  rewrite skipn_length_app, firstn_length_diff. reflexivity.
Qed.

Lemma replaceFrom_skip r by_ w z :
  Pattern.replaceFrom r by_ (length w) (w ++ z) = Pattern.replaceFrom r by_ 0 z.
Proof.
  induction w as [|c w IH]; [reflexivity|].
  cbn [length app Pattern.replaceFrom]. exact IH.
Qed.

(** Where the pattern matches nowhere, nothing is replaced. *)
Lemma replace_absent r by_ s :
  (forall z' z, s = z' ++ z -> matchAt r z = None) ->
  Pattern.replaceAll r by_ s = s.
Proof.
  unfold Pattern.replaceAll. induction s as [|c s IH]; intros H.
  - cbn [Pattern.replaceFrom]. rewrite (H [] [] eq_refl). reflexivity.
  - cbn [Pattern.replaceFrom]. rewrite (H [] (c :: s) eq_refl). f_equal.
    apply IH. intros z' z E. apply (H (c :: z') z). rewrite E. reflexivity.
Qed.

(** Text in which no match starts is copied. *)
Lemma replace_copy r by_ a rest :
  (forall z' z, a = z' ++ z -> z <> [] -> matchAt r (z ++ rest) = None) ->
  Pattern.replaceAll r by_ (a ++ rest) = a ++ Pattern.replaceAll r by_ rest.
Proof.
  unfold Pattern.replaceAll. induction a as [|c a IH]; intros H; [reflexivity|].
  cbn [app Pattern.replaceFrom].
  pose proof (H [] (c :: a) eq_refl ltac:(discriminate)) as M.
  cbn [app] in M. rewrite M. f_equal.
  apply IH. intros z' z E N. apply (H (c :: z') z); [rewrite E; reflexivity | exact N].
Qed.

(** A match at the head is replaced, and the search goes on behind it. *)
Lemma replace_match r by_ w caps z :
  w <> [] -> matchAt r (w ++ z) = Some (w, caps) ->
  Pattern.replaceAll r by_ (w ++ z) = by_ (w, caps) ++ Pattern.replaceAll r by_ z.
Proof.
  unfold Pattern.replaceAll. intros Hw M. destruct w as [|c w]; [congruence|].
  cbn [app Pattern.replaceFrom]. cbn [app] in M. rewrite M.
  cbn [fst length]. rewrite replaceFrom_skip. reflexivity.
Qed.

End Replacing.

Section CleanText.
Import RegExp ReportContent Props.

Lemma strip2_nil : stripHashes2 [] = [].
Proof. reflexivity. Qed.

Lemma strip2_pair t : stripHashes2 (hash :: hash :: t) = stripHashes2 t.
Proof.
  unfold stripHashes2.
  change (hash :: hash :: t) with (u "##" ++ t).
  rewrite (replace_match _ _ (u "##") [] t); [reflexivity | discriminate |].
  rewrite matchAt_lit, startsWith_app. reflexivity.
Qed.

Lemma strip2_keep c t :
  startsWith (u "##") (c :: t) = false ->
  stripHashes2 (c :: t) = c :: stripHashes2 t.
Proof.
  intros E. unfold stripHashes2, Pattern.replaceAll. cbn [Pattern.replaceFrom].
  rewrite matchAt_lit, E. reflexivity.
Qed.

Lemma startsWith_pair c t :
  startsWith (u "##") (c :: t) = true <-> c = hash /\ exists t', t = hash :: t'.
Proof.
  rewrite startsWith_iff. split.
  - intros [r E]. inversion E. split; [reflexivity | eauto].
  - intros [-> [t' ->]]. exists t'. reflexivity.
Qed.

Lemma Occurs_pair_cons c l :
  Occurs (u "##") (c :: l) ->
  (c = hash /\ exists l', l = hash :: l') \/ Occurs (u "##") l.
Proof.
  intros [pre [post E]]. destruct pre as [|x pre]; cbn [app] in E.
  - left. inversion E. split; [reflexivity | eauto].
  - right. inversion E. exists pre, post. reflexivity.
Qed.

(** What is left after the pairs of number signs are taken out holds no
    pair of number signs. *)
Lemma strip2_no_pair_n n :
  forall s, (length s <= n)%nat -> ~ Occurs (u "##") (stripHashes2 s).
Proof.
  induction n as [|n IH]; intros s L.
  - destruct s; [|simpl in L; lia]. apply includes_false. reflexivity.
  - destruct s as [|c t]; [apply includes_false; reflexivity|].
    cbn [length] in L.
    destruct (startsWith (u "##") (c :: t)) eqn:E.
    + apply startsWith_pair in E. destruct E as [-> [t' ->]].
      rewrite strip2_pair. apply IH. cbn [length] in L. lia.
    + rewrite strip2_keep by exact E. intros O.
      apply Occurs_pair_cons in O. destruct O as [[-> [l' El]] | O].
      * destruct t as [|d t'].
        -- rewrite strip2_nil in El. discriminate.
        -- destruct (startsWith (u "##") (d :: t')) eqn:E2.
           ++ apply startsWith_pair in E2. destruct E2 as [-> _].
              assert (X : startsWith (u "##") (hash :: hash :: t') = true)
                by (apply startsWith_pair; eauto).
              congruence.
           ++ rewrite strip2_keep in El by exact E2. inversion El; subst.
              assert (X : startsWith (u "##") (hash :: hash :: t') = true)
                by (apply startsWith_pair; eauto).
              congruence.
      * revert O. apply IH. lia.
Qed.

Lemma strip2_no_pair s : ~ Occurs (u "##") (stripHashes2 s).
Proof. apply (strip2_no_pair_n (length s)). lia. Qed.

(** Without a pair of number signs there is no triple to take out. *)
Lemma strip3_nothing s : ~ Occurs (u "##") s -> stripHashes3 s = s.
Proof.
  intros N. unfold stripHashes3. apply replace_absent. intros z' z E.
  rewrite matchAt_lit. destruct (startsWith (u "###") z) eqn:S; [|reflexivity].
  exfalso. apply N. apply startsWith_iff in S. destruct S as [t ->].
  exists z', (hash :: t). rewrite E. reflexivity.
Qed.

Lemma boldPattern_needs_star z :
  (forall c t, z = c :: t -> c <> star_) -> matchAt boldPattern z = None.
Proof.
  intros H. unfold matchAt, boldPattern. rewrite run_Cat.
  destruct z as [|c t]; [reflexivity|].
  apply run_lit_head. apply (H c t). reflexivity.
Qed.

Lemma stripBold_plain s : ~ In star_ s -> stripBold s = s.
Proof.
  intros N. unfold stripBold. apply replace_absent. intros z' z E.
  apply boldPattern_needs_star. intros c t -> ->.
  apply N. rewrite E. apply in_or_app. right. left. reflexivity.
Qed.

Lemma strip2_plain s : ~ In hash s -> stripHashes2 s = s.
Proof.
  intros N. unfold stripHashes2. apply replace_absent. intros z' z E.
  rewrite matchAt_lit. destruct (startsWith (u "##") z) eqn:S; [|reflexivity].
  exfalso. apply N. apply startsWith_iff in S. destruct S as [t ->].
  rewrite E. apply in_or_app. right. left. reflexivity.
Qed.

(** The bold pattern on a span. *)
Lemma matchAt_bold b rest :
  ~ In star_ b -> OneLine b ->
  matchAt boldPattern (u "**" ++ b ++ u "**" ++ rest)
  = Some (u "**" ++ b ++ u "**", [b]).
Proof.
  intros Nb Lb. unfold matchAt, boldPattern.
  rewrite run_Cat, run_lit_app, run_Cat, run_Group, run_Star.
  apply star_lazy_first.
  - exact Lb.
  - intros x1 x2 E N. destruct x2 as [|c x2]; [congruence|].
    cbn [app]. apply run_lit_head. intros ->.
    apply Nb. rewrite E. apply in_or_app. right. left. reflexivity.
  - rewrite run_lit_app. f_equal. f_equal.
    + replace (u "**" ++ b ++ u "**" ++ rest)
        with ((u "**" ++ b ++ u "**") ++ rest)
        by (rewrite <- !app_assoc; reflexivity).
      apply firstn_length_diff.
    + cbn [app]. f_equal. apply firstn_length_diff.
Qed.

Lemma stripBold_span a b rest :
  ~ In star_ a -> ~ In star_ b -> OneLine b ->
  stripBold (a ++ u "**" ++ b ++ u "**" ++ rest) = a ++ b ++ stripBold rest.
Proof.
  intros Na Nb Lb. unfold stripBold.
  rewrite replace_copy.
  - f_equal.
    replace (u "**" ++ b ++ u "**" ++ rest)
      with ((u "**" ++ b ++ u "**") ++ rest)
      by (rewrite <- !app_assoc; reflexivity).
    rewrite (replace_match _ _ (u "**" ++ b ++ u "**") [b] rest).
    + reflexivity.
    + discriminate.
    + rewrite <- !app_assoc. apply matchAt_bold; assumption.
  - intros z' z E N. apply boldPattern_needs_star.
    destruct z as [|c z]; [congruence|]. cbn [app].
    intros c0 t H C. inversion H as [[H1 H2]]. rewrite <- H1 in C.
    apply Na. rewrite E, C. apply in_or_app. right. left. reflexivity.
Qed.

Lemma stripBold_spans spans last :
  Forall (fun ab => ~ In star_ (fst ab) /\ ~ In star_ (snd ab) /\ OneLine (snd ab))
         spans ->
  ~ In star_ last ->
  stripBold (withBold spans last) = withoutBold spans last.
Proof.
  intros F Nl. unfold withBold, withoutBold.
  induction F as [|[a b] spans [Na [Nb Lb]] F IH]; cbn [flat_map app fst snd].
  - apply stripBold_plain. exact Nl.
  - rewrite <- !app_assoc. rewrite stripBold_span by assumption.
    rewrite IH. reflexivity.
Qed.

End CleanText.

Section CleanTextProps.
Import RegExp ReportContent Props.

Lemma not_In_withoutBold c spans last :
  Forall (fun ab => ~ In c (fst ab) /\ ~ In c (snd ab)) spans -> ~ In c last ->
  ~ In c (withoutBold spans last).
Proof.
  intros F Nl. unfold withoutBold.
  induction F as [|[a b] spans [Na Nb] F IH]; cbn [flat_map app fst snd].
  - exact Nl.
  - intros H. cbn [fst snd] in Na, Nb. rewrite <- !app_assoc in H.
    apply in_app_or in H. destruct H as [H|H]; [exact (Na H)|].
    apply in_app_or in H. destruct H as [H|H]; [exact (Nb H) | exact (IH H)].
Qed.

Lemma strip2_run n rest :
  (forall c t, rest = c :: t -> c <> hash) ->
  stripHashes2 (repeat hash n ++ rest)
  = (if Nat.odd n then [hash] else []) ++ stripHashes2 rest.
Proof.
  intros Hr.
  assert (P : forall m,
    stripHashes2 (repeat hash m ++ rest)
    = (if Nat.odd m then [hash] else []) ++ stripHashes2 rest /\
    stripHashes2 (repeat hash (S m) ++ rest)
    = (if Nat.odd (S m) then [hash] else []) ++ stripHashes2 rest).
  { induction m as [|m [IH1 IH2]].
    - split; [reflexivity|]. cbn [repeat app Nat.odd Nat.even negb].
      apply strip2_keep.
      destruct (startsWith (u "##") (hash :: rest)) eqn:E; [|reflexivity].
      apply startsWith_pair in E. destruct E as [_ [t' E]].
      exfalso. exact (Hr hash t' E eq_refl).
    - split; [exact IH2|].
      change (repeat hash (S (S m)) ++ rest)
        with (hash :: hash :: (repeat hash m ++ rest)).
      rewrite strip2_pair, IH1.
      change (Nat.odd (S (S m))) with (Nat.odd m). reflexivity. }
  apply P.
Qed.

End CleanTextProps.

Section CleanTextFacts.
Import RegExp ReportContent Props Shapes.

Lemma trimStart_Blank l : Blank l -> trimStart l = [].
Proof.
  intros B. induction B as [|c s W B IH]; simpl; [reflexivity|].
  rewrite W. exact IH.
Qed.

Lemma trim_blank_before l t : Blank l -> Trimmed t -> trim (l ++ t) = t.
Proof.
  intros B [H1 H2]. unfold trim. destruct t as [|x r].
  - rewrite app_nil_r, (trimStart_Blank l B). reflexivity.
  - rewrite trimStart_app_keep by (apply (H1 x r); reflexivity).
    rewrite (trimStart_Blank l B). cbn [app]. apply trimEnd_keep. exact H2.
Qed.

Lemma Trimmed_cons_app x l t :
  isWhiteSpace x = false -> t <> [] -> Trimmed t -> Trimmed (x :: l ++ t).
Proof.
  intros W N [_ H2]. split.
  - intros c r E. inversion E; subst. exact W.
  - intros r c E.
    destruct (exists_last N) as [t' [y Et]]. subst t.
    change (x :: l ++ t' ++ [y]) with ((x :: l) ++ t' ++ [y]) in E.
    rewrite app_assoc in E. apply app_inj_tail in E. destruct E as [_ <-].
    apply (H2 t' y). reflexivity.
Qed.

Lemma Blank_no c l : isWhiteSpace c = false -> Blank l -> ~ In c l.
Proof.
  intros W B I. unfold Blank in B. rewrite Forall_forall in B.
  specialize (B c I). congruence.
Qed.

Lemma not_In_repeat (c x : codeunit) n : x <> c -> ~ In x (repeat c n).
Proof. intros N I. apply repeat_spec in I. congruence. Qed.

(** The text of a blank line is empty. *)
Lemma cleanText_blank line : trim line = [] -> cleanText line = [].
Proof.
  intros E. unfold cleanText.
  destruct (trim_split line) as [l [r [Es [Bl Br]]]].
  rewrite E in Es. cbn [app] in Es.
  assert (B : Blank line) by (rewrite Es; apply Forall_app; split; assumption).
  rewrite stripBold_plain by (apply Blank_no; [reflexivity | exact B]).
  rewrite strip2_plain by (apply Blank_no; [reflexivity | exact B]).
  rewrite strip3_nothing; [exact E|].
  intros [pre [post O]]. apply (Blank_no hash line); [reflexivity | exact B |].
  rewrite O. apply in_or_app. right. left. reflexivity.
Qed.

Lemma cleanText_two_stages text :
  cleanText text = trim (stripHashes2 (stripBold text)).
Proof.
  unfold cleanText. rewrite strip3_nothing; [reflexivity | apply strip2_no_pair].
Qed.

End CleanTextFacts.

(** X8.  What cleanText returns has no white space at either end and no
    two number signs in a row, whatever the text was. *)
Theorem clean_text_is_trimmed_and_free_of_double_hashes (text : jsstring) :
  Props.Trimmed (ReportContent.cleanText text) /\
  ~ Occurs (u "##") (ReportContent.cleanText text).
Proof.
  split.
  - apply trim_Trimmed.
  - rewrite cleanText_two_stages. intros O. apply Occurs_trim in O.
    revert O. apply strip2_no_pair.
Qed.

(** X9.  The third replacement of cleanText, of three number signs by
    nothing, never finds anything to replace: the second one has left no two
    number signs in a row.  cleanText is the removal of the bold markers,
    the removal of the pairs of number signs and the trimming. *)
Theorem third_replacement_changes_nothing (text : jsstring) :
  ReportContent.stripHashes3
    (ReportContent.stripHashes2 (ReportContent.stripBold text))
  = ReportContent.stripHashes2 (ReportContent.stripBold text) /\
  ReportContent.cleanText text
  = trim (ReportContent.stripHashes2 (ReportContent.stripBold text)).
Proof.
  split.
  - apply strip3_nothing, strip2_no_pair.
  - apply cleanText_two_stages.
Qed.

(** X10.  The number signs of a heading line go in pairs: of a line that
    opens with n number signs, white space and a title, cleanText keeps the
    title alone when n is even, and one number sign, the white space and the
    title when n is odd (so a level-3 heading keeps one number sign). *)
Theorem heading_marks_go_in_pairs (n : nat) (blank title : jsstring) :
  Shapes.Blank blank -> Props.NoMarks title -> Props.Trimmed title ->
  title <> [] ->
  ReportContent.cleanText (repeat Props.hash n ++ blank ++ title)
  = if Nat.odd n then Props.hash :: blank ++ title else title.
Proof.
  intros B [Ns Nh] T Ne.
  rewrite cleanText_two_stages.
  rewrite stripBold_plain.
  2:{ intros I. apply in_app_or in I. destruct I as [I|I].
      - revert I. apply not_In_repeat. discriminate.
      - apply in_app_or in I. destruct I as [I|I]; [|exact (Ns I)].
        revert I. apply Blank_no; [reflexivity | exact B]. }
  assert (Nr : ~ In Props.hash (blank ++ title)).
  { intros I. apply in_app_or in I. destruct I as [I|I]; [|exact (Nh I)].
    revert I. apply Blank_no; [reflexivity | exact B]. }
  rewrite strip2_run.
  2:{ intros c t E C. apply Nr. rewrite E, C. left. reflexivity. }
  rewrite (strip2_plain _ Nr).
  destruct (Nat.odd n); cbn [app].
  - apply trim_keep. apply Trimmed_cons_app; [reflexivity | exact Ne | exact T].
  - apply trim_blank_before; assumption.
Qed.

Lemma heading_marks_go_in_pairs_witness :
  ReportContent.cleanText (u "### Plan for 2027") = u "# Plan for 2027" /\
  ReportContent.cleanText (u "## Plan for 2027") = u "Plan for 2027".
Proof.
  split.
  - apply (heading_marks_go_in_pairs 3 (u " ") (u "Plan for 2027")).
    + repeat constructor.
    + split; vm_compute; intuition discriminate.
    + split.
      * intros c t E. inversion E. reflexivity.
      * intros t c E.
        change (u "Plan for 2027") with (u "Plan for 202" ++ [55]) in E.
        apply app_inj_tail in E. destruct E as [_ <-]. reflexivity.
    + discriminate.
  - apply (heading_marks_go_in_pairs 2 (u " ") (u "Plan for 2027")).
    + repeat constructor.
    + split; vm_compute; intuition discriminate.
    + split.
      * intros c t E. inversion E. reflexivity.
      * intros t c E.
        change (u "Plan for 2027") with (u "Plan for 202" ++ [55]) in E.
        apply app_inj_tail in E. destruct E as [_ <-]. reflexivity.
    + discriminate.
Defined.

(** X11.  In a text of plain pieces and bold spans (no asterisk and no
    number sign inside a piece or a span, no line break inside a span)
    cleanText removes the asterisks around every span and nothing else,
    apart from the white space at the two ends. *)
Theorem bold_markers_are_removed
        (spans : list (jsstring * jsstring)) (last : jsstring) :
  Forall (fun ab => Props.NoMarks (fst ab) /\ Props.NoMarks (snd ab) /\
                    Props.OneLine (snd ab)) spans ->
  Props.NoMarks last ->
  ReportContent.cleanText (Props.withBold spans last)
  = trim (Props.withoutBold spans last).
Proof.
  intros F [Ls Lh].
  rewrite cleanText_two_stages.
  rewrite stripBold_spans; [| |exact Ls].
  - rewrite strip2_plain; [reflexivity|].
    apply not_In_withoutBold; [|exact Lh].
    eapply Forall_impl; [|exact F].
    intros ab [[_ Ha] [[_ Hb] _]]. split; assumption.
  - eapply Forall_impl; [|exact F].
    intros ab [[Ha _] [[Hb _] L]]. repeat split; assumption.
Qed.

Lemma bold_markers_are_removed_witness :
  ReportContent.cleanText (u " 1. **Gulfood 2027** in **Dubai**, UAE ")
  = u "1. Gulfood 2027 in Dubai, UAE".
Proof.
  exact (bold_markers_are_removed
           [(u " 1. ", u "Gulfood 2027"); (u " in ", u "Dubai")] (u ", UAE ")
           ltac:(repeat constructor; vm_compute; intuition discriminate)
           ltac:(split; vm_compute; intuition discriminate)).
Defined.

(* ================================================================== *)
(** * The lines of a text and the paragraphs of the report *)
(* ================================================================== *)

Section Lines.
Import Shapes.

Lemma breakOn_char_here c t : breakOn [c] (c :: t) = Some ([], t).
Proof.
  rewrite breakOn_unfold.
  change (c :: t) with ([c] ++ t). rewrite startsWith_app, skipn_length_app.
  reflexivity.
Qed.

Lemma startsWith_char c x t : x <> c -> startsWith [c] (x :: t) = false.
Proof.
  intros N. destruct (startsWith [c] (x :: t)) eqn:E; [|reflexivity].
  apply startsWith_iff in E. destruct E as [r E]. inversion E. congruence.
Qed.

Lemma split_char_nil c : split [c] [] = [[]].
Proof. reflexivity. Qed.

Lemma split_char_here c t : split [c] (c :: t) = [] :: split [c] t.
Proof.
  rewrite split_unfold by discriminate. rewrite breakOn_char_here. reflexivity.
Qed.

Lemma split_char_other c x t :
  x <> c ->
  split [c] (x :: t) = match split [c] t with
                       | [] => []
                       | h :: r => (x :: h) :: r
                       end.
Proof.
  intros N. rewrite (split_unfold [c] (x :: t)) by discriminate.
  rewrite (split_unfold [c] t) by discriminate.
  rewrite (breakOn_unfold [c] (x :: t)), (startsWith_char c x t N).
  destruct (breakOn [c] t) as [[a b]|]; reflexivity.
Qed.

(** Putting the separator back between the pieces gives the text. *)
Lemma join_split c s : join c (split [c] s) = s.
Proof.
  induction s as [|x t IH].
  - reflexivity.
  - destruct (N.eq_dec x c) as [->|N].
    + rewrite split_char_here.
      pose proof (split_nonempty [c] t) as Ne.
      destruct (split [c] t) as [|h r]; [congruence|].
      cbn [join app]. f_equal. exact IH.
    + rewrite split_char_other by exact N.
      pose proof (split_nonempty [c] t) as Ne.
      destruct (split [c] t) as [|h r]; [congruence|].
      cbn [join] in *. destruct r; cbn [app]; f_equal; exact IH.
Qed.

(** No piece holds the separator. *)
Lemma split_pieces_free c s : Forall (fun l => ~ In c l) (split [c] s).
Proof.
  induction s as [|x t IH].
  - repeat constructor. intros [].
  - destruct (N.eq_dec x c) as [->|N].
    + rewrite split_char_here. constructor; [intros [] | exact IH].
    + rewrite split_char_other by exact N.
      destruct (split [c] t) as [|h r]; [constructor|].
      inversion IH; subst. constructor; [|assumption].
      intros [E|I]; [congruence | auto].
Qed.

(** One piece more than there are separators. *)
Lemma split_count c s :
  length (split [c] s) = S (count_occ N.eq_dec s c).
Proof.
  induction s as [|x t IH].
  - reflexivity.
  - destruct (N.eq_dec x c) as [->|N].
    + rewrite split_char_here. cbn [length count_occ].
      destruct (N.eq_dec c c); [|congruence]. rewrite IH. reflexivity.
    + rewrite split_char_other by exact N. cbn [count_occ].
      destruct (N.eq_dec x c); [congruence|].
      pose proof (split_nonempty [c] t) as Ne.
      destruct (split [c] t) as [|h r]; [congruence|]. exact IH.
Qed.

Lemma split_free c a : ~ In c a -> split [c] a = [a].
Proof.
  induction a as [|x a IH]; intros N; [reflexivity|].
  rewrite split_char_other by (intros ->; apply N; left; reflexivity).
  rewrite IH; [reflexivity|]. intros I. apply N. right. exact I.
Qed.

Lemma split_piece c a rest :
  ~ In c a -> split [c] (a ++ c :: rest) = a :: split [c] rest.
Proof.
  induction a as [|x a IH]; intros N; cbn [app].
  - apply split_char_here.
  - rewrite split_char_other by (intros ->; apply N; left; reflexivity).
    rewrite IH; [reflexivity|]. intros I. apply N. right. exact I.
Qed.

(** Lines without a separator, joined and split again, are the lines. *)
Lemma split_join c lines :
  lines <> [] -> Forall (fun l => ~ In c l) lines ->
  split [c] (join c lines) = lines.
Proof.
  intros Ne F. induction F as [|l lines Hl F IH]; [congruence|].
  cbn [join]. destruct lines as [|l2 lines].
  - apply split_free. exact Hl.
  - rewrite split_piece by exact Hl. f_equal. apply IH. discriminate.
Qed.

End Lines.

Section BoldSpans.
Import RegExp ReportContent Props.
Variable A : Type.

(** The bold pattern, wherever it is run: what it consumes is a span
    between double asterisks, without a line break; the group is the text
    between them.  Before a continuation that always accepts, the span
    closes at the first double asterisk. *)
Lemma run_bold_sound s caps (k : jsstring -> list jsstring -> option A) x :
  run boldPattern s caps k = Some x ->
  exists b rest, s = u "**" ++ b ++ u "**" ++ rest /\ OneLine b /\
                 k rest (caps ++ [b]) = Some x /\
                 ((forall s' c', k s' c' <> None) -> ~ Occurs (u "**") b).
Proof.
  unfold boldPattern. rewrite run_Cat, run_lit.
  destruct (startsWith (u "**") s) eqn:S1; [|discriminate].
  apply startsWith_iff in S1. destruct S1 as [z1 ->].
  rewrite skipn_length_app, run_Cat, run_Group, run_Star. intros H.
  apply star_lazy_sound in H. destruct H as [w [s' [-> [Fw [K Min]]]]].
  rewrite run_lit in K.
  destruct (startsWith (u "**") s') eqn:S2; [|discriminate].
  apply startsWith_iff in S2. destruct S2 as [rest ->].
  rewrite skipn_length_app, firstn_length_diff in K.
  exists w, rest. split; [reflexivity|]. split; [exact Fw|]. split; [exact K|].
  intros Hk [p [q E]].
  specialize (Min p (u "**" ++ q) E ltac:(discriminate)).
  rewrite <- app_assoc, run_lit, startsWith_app, skipn_length_app in Min.
  exact (Hk _ _ Min).
Qed.

Lemma run_bold_first b rest caps (k : jsstring -> list jsstring -> option A) r :
  ~ In star_ b -> OneLine b ->
  k rest (caps ++ [b]) = Some r ->
  run boldPattern (u "**" ++ b ++ u "**" ++ rest) caps k = Some r.
Proof.
  intros Nb Lb K. unfold boldPattern.
  rewrite run_Cat, run_lit_app, run_Cat, run_Group, run_Star.
  apply star_lazy_first.
  - exact Lb.
  - intros x1 x2 E N. destruct x2 as [|c x2]; [congruence|].
    cbn [app]. apply run_lit_head. intros ->.
    apply Nb. rewrite E. apply in_or_app. right. left. reflexivity.
  - rewrite run_lit_app, firstn_length_diff. exact K.
Qed.

End BoldSpans.

Section ReplacingMore.
Import RegExp ReportContent Props.

(** A replacement that writes only what it read adds no code unit. *)
Lemma replace_In r by_ c :
  (forall z m, matchAt r z = Some m -> In c (by_ m) -> In c z) ->
  forall s n, In c (Pattern.replaceFrom r by_ n s) -> In c s.
Proof.
  intros H. induction s as [|x t IH]; intros n; cbn [Pattern.replaceFrom].
  - destruct n; [|intros []].
    destruct (matchAt r []) as [m|] eqn:M; [|intros []].
    apply (H _ _ M).
  - destruct n as [|n]; [|intros I; right; exact (IH _ I)].
    destruct (matchAt r (x :: t)) as [m|] eqn:M.
    + intros I. apply in_app_or in I. destruct I as [I|I]; [exact (H _ _ M I)|].
      destruct (length (fst m)).
      * destruct I as [->|I]; [left; reflexivity | right; exact (IH _ I)].
      * right. exact (IH _ I).
    + intros [->|I]; [left; reflexivity | right; exact (IH _ I)].
Qed.

Lemma In_stripBold c s : In c (stripBold s) -> In c s.
Proof.
  unfold stripBold, Pattern.replaceAll. apply replace_In.
  intros z m M. unfold matchAt in M. apply run_bold_sound in M.
  destruct M as [b [rest [-> [_ [K _]]]]]. inversion K; subst. cbn.
  intros I. right. right. apply in_or_app. left. exact I.
Qed.

Lemma In_strip2 c s : In c (stripHashes2 s) -> In c s.
Proof.
  unfold stripHashes2, Pattern.replaceAll. apply replace_In.
  intros z m _ [].
Qed.

Lemma In_cleanText c s : In c (cleanText s) -> In c s.
Proof.
  rewrite cleanText_two_stages. intros I.
  apply In_stripBold, In_strip2, In_trim. exact I.
Qed.

End ReplacingMore.

Section ParagraphFacts.
Import RegExp ReportContent Props Shapes.

Lemma paragraphTexts_of line :
  paragraphTexts [paragraphOf line]
  = match cleanText line with [] => [] | c :: t => [c :: t] end.
Proof.
  unfold paragraphOf. cbv zeta.
  destruct (cleanText line) as [|c t]; [reflexivity|].
  destruct (startsWith (u "##") (trim line)); reflexivity.
Qed.

Lemma paragraphTexts_cons p ps :
  paragraphTexts (p :: ps) = paragraphTexts [p] ++ paragraphTexts ps.
Proof. unfold paragraphTexts. cbn [flat_map]. rewrite app_nil_r. reflexivity. Qed.

Lemma printed_lines_agree lines :
  filter (fun t => negb (JS.eqb t []))
         (map (fun line => cleanText line)
              (filter (fun line => negb (JS.eqb (trim line) [])) lines))
  = paragraphTexts (map paragraphOf lines).
Proof.
  induction lines as [|line lines IH]; [reflexivity|].
  cbn [map]. rewrite paragraphTexts_cons, paragraphTexts_of, <- IH.
  cbn [filter].
  destruct (trim line) as [|x r] eqn:T.
  - rewrite (cleanText_blank line T). reflexivity.
  - cbn [JS.eqb negb map filter].
    destruct (cleanText line) as [|c t]; reflexivity.
Qed.

Lemma paragraph_texts_good lines :
  Forall (fun l => ~ In nl l) lines ->
  Forall (fun t => t <> [] /\ Trimmed t /\ ~ Occurs (u "##") t /\ ~ In nl t)
         (paragraphTexts (map paragraphOf lines)).
Proof.
  intros F. induction F as [|line lines Hl F IH]; [constructor|].
  cbn [map]. rewrite paragraphTexts_cons, paragraphTexts_of.
  apply Forall_app. split; [|exact IH].
  destruct (cleanText line) as [|c t] eqn:E; constructor; [|constructor].
  rewrite <- E. split; [rewrite E; discriminate|].
  split; [apply trim_Trimmed|]. split.
  - rewrite cleanText_two_stages. intros O. apply Occurs_trim in O.
    revert O. apply strip2_no_pair.
  - intros I. apply Hl. apply In_cleanText. exact I.
Qed.

Lemma trim_heading ws rest :
  Blank ws -> trim (ws ++ u "##" ++ rest) = u "##" ++ trimEnd rest.
Proof.
  intros B. unfold trim.
  assert (E1 : ws ++ u "##" ++ rest = ws ++ hash :: (hash :: rest)) by reflexivity.
  rewrite E1, trimStart_app_keep by reflexivity.
  rewrite (trimStart_Blank ws B).
  assert (E2 : [] ++ hash :: hash :: rest = [] ++ hash :: ([hash] ++ rest))
    by reflexivity.
  rewrite E2, trimEnd_app_keep by reflexivity.
  assert (E3 : [hash] ++ rest = [] ++ hash :: rest) by reflexivity.
  rewrite E3, trimEnd_app_keep by reflexivity. reflexivity.
Qed.

End ParagraphFacts.

(** X12.  createParagraphs makes one paragraph for each line of the text:
    one more than the text has line feeds. *)
Theorem one_paragraph_for_each_line (text : jsstring) :
  length (ReportContent.createParagraphs text)
  = S (count_occ N.eq_dec text nl).
Proof.
  unfold ReportContent.createParagraphs. rewrite length_map.
  apply split_count.
Qed.

(** X13.  The text of a paragraph of the Word report is never empty, has no
    white space at either end, no two number signs in a row and no line
    feed: a line that cleans to nothing becomes an empty paragraph. *)
Theorem paragraph_texts_are_clean (text : jsstring) :
  Forall (fun t => t <> [] /\ Props.Trimmed t /\ ~ Occurs (u "##") t /\
                   ~ In nl t)
         (Props.paragraphTexts (ReportContent.createParagraphs text)).
Proof.
  unfold ReportContent.createParagraphs.
  apply paragraph_texts_good, split_pieces_free.
Qed.

(** X14.  The two reports print the same texts in the same order: the
    texts the PDF body prints, the empty ones left out, are the texts of
    the paragraphs of the Word body. *)
Theorem pdf_and_word_print_the_same_texts (text : jsstring) :
  filter (fun t => negb (JS.eqb t []))
         (map fst (ReportContent.pdfBody text))
  = Props.paragraphTexts (ReportContent.createParagraphs text).
Proof.
  unfold ReportContent.pdfBody, ReportContent.createParagraphs.
  rewrite map_map. cbn [fst]. apply printed_lines_agree.
Qed.

(** X15.  A heading line is told differently in the two reports: the Word
    report trims the line before it looks for the two number signs, the
    PDF does not.  A heading line that opens with white space is a heading
    in the Word report and ordinary text in the PDF. *)
Theorem indented_heading_is_bold_in_word_only (ws rest : jsstring) :
  let line := ws ++ u "##" ++ rest in
  Shapes.Blank ws -> ~ In nl line -> ReportContent.cleanText line <> [] ->
  ReportContent.createParagraphs line
  = [ReportContent.Heading2 (ReportContent.cleanText line)] /\
  ReportContent.pdfBody line
  = [(ReportContent.cleanText line,
      match ws with [] => true | _ :: _ => false end)].
Proof.
  intros line B Nn Ne.
  unfold ReportContent.createParagraphs, ReportContent.pdfBody.
  rewrite (split_free nl line Nn). cbn [map filter].
  assert (T : trim line = u "##" ++ trimEnd rest) by (apply trim_heading; exact B).
  split.
  - unfold ReportContent.paragraphOf. cbv zeta. rewrite T.
    destruct (ReportContent.cleanText line) as [|c t]; [congruence|].
    rewrite startsWith_app. reflexivity.
  - rewrite T.
    assert (Ek : negb (JS.eqb (u "##" ++ trimEnd rest) []) = true) by reflexivity.
    rewrite Ek. cbn [map]. f_equal. f_equal.
    subst line. destruct ws as [|w ws].
    + cbn [app]. apply (startsWith_app (u "##") rest).
    + inversion B as [|? ? W B']; subst. cbn [app].
      destruct (startsWith (u "##") (w :: ws ++ u "##" ++ rest)) eqn:S;
        [|reflexivity].
      apply startsWith_pair in S. destruct S as [-> _]. discriminate.
Qed.

Lemma indented_heading_is_bold_in_word_only_witness :
  ReportContent.createParagraphs (u "  ## Strategic fit")
  = [ReportContent.Heading2 (u "Strategic fit")] /\
  ReportContent.pdfBody (u "  ## Strategic fit")
  = [(u "Strategic fit", false)].
Proof.
  exact (indented_heading_is_bold_in_word_only (u "  ") (u " Strategic fit")
           ltac:(repeat constructor)
           ltac:(vm_compute; intuition discriminate)
           ltac:(vm_compute; discriminate)).
Defined.

(* ================================================================== *)
(** * The names behind the Locate buttons *)
(* ================================================================== *)

Section Names.
Import RegExp AppView Props Shapes.

Lemma namePattern_bold :
  namePattern
  = Cat (Class Pattern.digitOrDash)
   (Cat (Star true Pattern.digitOrDash)
   (Cat (Chr 46) (Cat (Class space) ReportContent.boldPattern))).
Proof. reflexivity. Qed.

Lemma run_Class (A : Type) p s caps (k : jsstring -> list jsstring -> option A) :
  run (Class p) s caps k
  = match s with x :: t => if p x then k t caps else None | [] => None end.
Proof. reflexivity. Qed.

Lemma run_Chr (A : Type) c s caps (k : jsstring -> list jsstring -> option A) :
  run (Chr c) s caps k
  = match s with x :: t => if x =? c then k t caps else None | [] => None end.
Proof. reflexivity. Qed.

(** What the pattern of the titles matches. *)
Lemma matchAt_name_sound line m :
  matchAt namePattern line = Some m ->
  exists number blank name rest,
    line = number ++ [46; blank] ++ u "**" ++ name ++ u "**" ++ rest /\
    number <> [] /\ Forall (fun c => Pattern.digitOrDash c = true) number /\
    isWhiteSpace blank = true /\ OneLine name /\ ~ Occurs (u "**") name /\
    m = (number ++ [46; blank] ++ u "**" ++ name ++ u "**", [name]).
Proof.
  unfold matchAt. rewrite namePattern_bold, run_Cat, run_Class.
  destruct line as [|d t]; [discriminate|].
  destruct (Pattern.digitOrDash d) eqn:Pd; [|discriminate].
  rewrite run_Cat, run_Star. intros H.
  apply star_sound in H. destruct H as [ds [s1 [-> [Fds H]]]].
  rewrite run_Cat, run_Chr in H.
  destruct s1 as [|x s2]; [discriminate|].
  destruct (N.eqb_spec x 46) as [->|]; [|discriminate].
  rewrite run_Cat, run_Class in H.
  destruct s2 as [|blank s3]; [discriminate|].
  destruct (space blank) eqn:Wb; [|discriminate].
  apply run_bold_sound in H.
  destruct H as [name [rest [-> [Ln [K Nn]]]]].
  exists (d :: ds), blank, name, rest.
  split; [cbn [app]; reflexivity|]. split; [discriminate|].
  split; [constructor; assumption|]. split; [exact Wb|]. split; [exact Ln|].
  split; [apply Nn; discriminate|].
  match type of K with
  | Some (firstn (length ?z - length rest) ?z, _) = _ =>
      replace z with (((d :: ds) ++ [46; blank] ++ u "**" ++ name ++ u "**") ++ rest)
        in K
        by (cbn [app]; rewrite <- !app_assoc; cbn [app]; rewrite <- !app_assoc;
            reflexivity)
  end.
  rewrite firstn_length_diff in K. inversion K. reflexivity.
Qed.

Lemma digitOrDash_not_stop c : Pattern.digitOrDash c = true -> c <> 46.
Proof. intros H ->. discriminate. Qed.

(** The pattern on a title line. *)
Lemma matchAt_title number blank name rest :
  number <> [] -> Forall (fun c => Pattern.digitOrDash c = true) number ->
  isWhiteSpace blank = true -> ~ In star_ name -> OneLine name ->
  matchAt namePattern (number ++ [46; blank] ++ u "**" ++ name ++ u "**" ++ rest)
  = Some (number ++ [46; blank] ++ u "**" ++ name ++ u "**", [name]).
Proof.
  intros Ne Fn Wb Ns Ln. unfold matchAt.
  rewrite namePattern_bold, run_Cat, run_Class.
  destruct number as [|d ds]; [congruence|].
  inversion Fn as [|? ? Pd Fds]; subst. cbn [app]. rewrite Pd.
  rewrite run_Cat, run_Star.
  apply star_greedy_stop.
  - exact Fds.
  - intros c t E. inversion E. reflexivity.
  - rewrite run_Cat, run_Chr. cbn [N.eqb Pos.eqb].
    rewrite run_Cat, run_Class.
    unfold space. rewrite Wb.
    apply run_bold_first; [exact Ns | exact Ln |].
    match goal with
    | |- Some (firstn (length ?z - length rest) ?z, _) = _ =>
        replace z with (((d :: ds) ++ [46; blank] ++ u "**" ++ name ++ u "**") ++ rest)
          by (cbn [app]; rewrite <- !app_assoc; cbn [app]; rewrite <- !app_assoc;
              reflexivity)
    end.
    rewrite firstn_length_diff. reflexivity.
Qed.

(** The pattern on a line that does not open with a number and a stop. *)
Lemma matchAt_other number rest :
  Forall (fun c => Pattern.digitOrDash c = true) number ->
  match rest with
  | [] => True
  | c :: _ => Pattern.digitOrDash c = false /\ c <> 46
  end ->
  matchAt namePattern (number ++ rest) = None.
Proof.
  intros Fn Hr. unfold matchAt.
  rewrite namePattern_bold, run_Cat, run_Class.
  destruct number as [|d ds]; cbn [app].
  - destruct rest as [|c r]; [reflexivity|].
    destruct Hr as [Pc _]. rewrite Pc. reflexivity.
  - inversion Fn as [|? ? Pd Fds]; subst. rewrite Pd.
    rewrite run_Cat, run_Star.
    apply star_none_prefix. intros z' z E Fz.
    rewrite run_Cat, run_Chr.
    destruct z as [|x z2]; [reflexivity|].
    destruct (N.eqb_spec x 46) as [->|]; [exfalso | reflexivity].
    apply app_eq_app in E. destruct E as [l [[E1 E2]|[E1 E2]]].
    + (* the stop would be inside the number *)
      destruct l as [|y l]; cbn [app] in E2.
      * rewrite <- E2 in Hr. destruct Hr as [_ N]. congruence.
      * inversion E2; subst.
        apply Forall_app in Fds. destruct Fds as [_ Fl].
        inversion Fl; subst. discriminate.
    + (* the stop would be inside the rest *)
      rewrite E2 in Hr. destruct l as [|y l]; cbn [app] in Hr.
      * destruct Hr as [_ N]. congruence.
      * destruct Hr as [Py _].
        rewrite E1 in Fz. apply Forall_app in Fz. destruct Fz as [_ Fz].
        inversion Fz; subst. congruence.
Qed.

Lemma nameOfLine_good l : GoodLine l -> nameOfLine (lineText l) = nameOf l.
Proof.
  destruct l as [number blank name rest | number rest]; cbn [GoodLine lineText nameOf].
  - intros [Ne [Fn [Wb [_ [Nn [Ns [Ln _]]]]]]]. unfold nameOfLine.
    rewrite matchAt_title by assumption.
    unfold Pattern.group. cbn [fst snd nth].
    destruct name; [congruence | reflexivity].
  - intros [Fn [_ Hr]]. unfold nameOfLine.
    rewrite matchAt_other by assumption. reflexivity.
Qed.

Lemma lineText_one_line l : GoodLine l -> ~ In nl (lineText l).
Proof.
  destruct l as [number blank name rest | number rest]; cbn [GoodLine lineText].
  - intros [_ [Fn [_ [Bn [_ [_ [Ln Nr]]]]]]] I.
    rewrite !in_app_iff in I. destruct I as [I|[I|[I|[I|[I|I]]]]].
    + rewrite Forall_forall in Fn. specialize (Fn _ I). discriminate.
    + destruct I as [I|[I|[]]]; [discriminate | congruence].
    + destruct I as [I|[I|[]]]; discriminate.
    + unfold OneLine in Ln. rewrite Forall_forall in Ln. specialize (Ln _ I).
      discriminate.
    + destruct I as [I|[I|[]]]; discriminate.
    + exact (Nr I).
  - intros [Fn [Nr _]] I. apply in_app_or in I. destruct I as [I|I].
    + rewrite Forall_forall in Fn. specialize (Fn _ I). discriminate.
    + exact (Nr I).
Qed.

Lemma In_join_piece c lines line :
  In line lines -> exists a b, join c lines = a ++ line ++ b.
Proof.
  induction lines as [|l lines IH]; [intros []|].
  intros [->|I].
  - cbn [join]. destruct lines as [|l2 lines].
    + exists [], []. rewrite app_nil_r. reflexivity.
    + exists [], (c :: join c (l2 :: lines)). reflexivity.
  - destruct (IH I) as [a [b E]]. cbn [join].
    destruct lines as [|l2 lines]; [destruct I|].
    exists (l ++ c :: a), b. rewrite E, <- app_assoc. reflexivity.
Qed.

Lemma In_split_piece c s line :
  In line (split [c] s) -> exists a b, s = a ++ line ++ b.
Proof.
  intros I. destruct (In_join_piece c _ _ I) as [a [b E]].
  rewrite join_split in E. eauto.
Qed.

End Names.

(** X16.  From a narrative in the format the prompt asks for, the names
    behind the Locate buttons are the bold titles of the numbered lines, in
    the order of the lines: each line is a numbered title in bold followed
    by anything, or a line that does not open with a number and a full
    stop. *)
Theorem locate_names_are_the_bold_titles (lines : list Props.Line) :
  lines <> [] -> Forall Props.GoodLine lines ->
  AppView.extractLikelyEventNames (Shapes.join nl (map Props.lineText lines))
  = flat_map Props.nameOf lines.
Proof.
  intros Ne F. unfold AppView.extractLikelyEventNames.
  rewrite split_join.
  - clear Ne. induction F as [|l lines Hl F IH]; [reflexivity|].
    cbn [map flat_map]. rewrite IH, (nameOfLine_good l Hl). reflexivity.
  - destruct lines; [congruence | discriminate].
  - apply Forall_map. eapply Forall_impl; [|exact F].
    intros l Hl. apply lineText_one_line. exact Hl.
Qed.

Lemma locate_names_are_the_bold_titles_witness :
  AppView.extractLikelyEventNames
    (u "Relevant EPC: APEDA" ++ nl ::
     u "1. **Gulfood 2027** - Dubai" ++ nl ::
     u "notes: 2. **not a title**" ++ nl ::
     u "2-3. **SIAL Paris**")
  = [u "Gulfood 2027"; u "SIAL Paris"].
Proof.
  exact (locate_names_are_the_bold_titles
           [Props.Other [] (u "Relevant EPC: APEDA");
            Props.Title (u "1") 32 (u "Gulfood 2027") (u " - Dubai");
            Props.Other [] (u "notes: 2. **not a title**");
            Props.Title (u "2-3") 32 (u "SIAL Paris") []]
           ltac:(discriminate)
           ltac:(repeat constructor; vm_compute; intuition discriminate)).
Defined.

(** X17.  Whatever the narrative, every name behind a Locate button is not
    empty, has no line break and no double asterisk inside, and stands in
    the narrative between double asterisks, after a number, a full stop and
    one white space. *)
Theorem locate_names_come_from_the_text (text name : jsstring) :
  In name (AppView.extractLikelyEventNames text) ->
  name <> [] /\ Props.OneLine name /\ ~ Occurs (u "**") name /\
  exists number blank,
    number <> [] /\ Forall (fun c => Pattern.digitOrDash c = true) number /\
    isWhiteSpace blank = true /\
    Occurs (number ++ [46; blank] ++ u "**" ++ name ++ u "**") text.
Proof.
  unfold AppView.extractLikelyEventNames. intros I.
  apply in_flat_map in I. destruct I as [line [Il In_]].
  unfold AppView.nameOfLine in In_.
  destruct (RegExp.matchAt AppView.namePattern line) as [m|] eqn:M;
    [|destruct In_].
  apply matchAt_name_sound in M.
  destruct M as [number [blank [nm [rest [El [Ne [Fn [Wb [Ln [Nn ->]]]]]]]]]].
  unfold Pattern.group in In_. cbn [fst snd nth] in In_.
  destruct nm as [|c t]; [destruct In_|].
  destruct In_ as [<-|[]].
  split; [discriminate|]. split; [exact Ln|]. split; [exact Nn|].
  exists number, blank. split; [exact Ne|]. split; [exact Fn|].
  split; [exact Wb|].
  apply In_split_piece in Il. destruct Il as [a [b E]].
  exists a, (rest ++ b). rewrite E, El.
  repeat (rewrite <- app_assoc || (progress cbn [app])). reflexivity.
Qed.

Lemma locate_names_come_from_the_text_witness :
  u "Gulfood" <> [] /\ Props.OneLine (u "Gulfood") /\
  ~ Occurs (u "**") (u "Gulfood") /\
  exists number blank,
    number <> [] /\ Forall (fun c => Pattern.digitOrDash c = true) number /\
    isWhiteSpace blank = true /\
    Occurs (number ++ [46; blank] ++ u "**" ++ u "Gulfood" ++ u "**")
           (u "1. **Gulfood** in Dubai").
Proof.
  exact (locate_names_come_from_the_text
           (u "1. **Gulfood** in Dubai") (u "Gulfood")
           (or_introl eq_refl)).
Defined.

(* ================================================================== *)
(** * The export promotion council read from the narrative *)
(* ================================================================== *)

Section Council.
Import RegExp ReportContent AppView Props Shapes.

Lemma prun_Seq (A : Type) p q s caps (k : jsstring -> list jsstring -> option A) :
  Pattern.run (Pattern.Seq p q) s caps k
  = Pattern.run p s caps (fun s' caps' => Pattern.run q s' caps' k).
Proof. reflexivity. Qed.

Lemma prun_Re (A : Type) r s caps (k : jsstring -> list jsstring -> option A) :
  Pattern.run (Pattern.Re r) s caps k = run r s caps k.
Proof. reflexivity. Qed.

Lemma prun_Alt (A : Type) p q s caps (k : jsstring -> list jsstring -> option A) :
  Pattern.run (Pattern.Alt p q) s caps k
  = match Pattern.run p s caps k with
    | Some x => Some x
    | None => Pattern.run q s caps k
    end.
Proof. reflexivity. Qed.

Lemma prun_End (A : Type) s caps (k : jsstring -> list jsstring -> option A) :
  Pattern.run Pattern.EndOfInput s caps k
  = match s with [] => k [] caps | _ :: _ => None end.
Proof. reflexivity. Qed.

Lemma run_litI (A : Type) p s caps (k : jsstring -> list jsstring -> option A) :
  run (Pattern.litI p) s caps k
  = if startsWithI p s then k (skipn (length p) s) caps else None.
Proof.
  revert s. induction p as [|x p IH]; intros s; [reflexivity|].
  cbn [Pattern.litI]. rewrite run_Cat. unfold Pattern.chrI. rewrite run_Class.
  destruct s as [|c s]; [reflexivity|]. cbn [startsWithI length skipn].
  destruct (Pattern.foldCase c =? Pattern.foldCase x); [apply IH | reflexivity].
Qed.

Lemma startsWithI_variant l p rest :
  SameUpToCase l p ->
  startsWithI p (l ++ rest) = true /\ skipn (length p) (l ++ rest) = rest.
Proof.
  intros F. induction F as [|c x l p E F [IH1 IH2]]; [split; reflexivity|].
  cbn [app startsWithI length skipn]. rewrite E, N.eqb_refl, IH1, IH2.
  split; reflexivity.
Qed.


Lemma line_end_rejects (A : Type) caps (k : jsstring -> list jsstring -> option A)
      c t :
  c <> nl ->
  Pattern.run (Pattern.Alt (Pattern.Re (Chr 10)) Pattern.EndOfInput) (c :: t) caps k
  = None.
Proof.
  intros N. rewrite prun_Alt, prun_Re, run_Chr, prun_End.
  destruct (N.eqb_spec c 10) as [E|]; [|reflexivity].
  exfalso. apply N. exact E.
Qed.

Lemma matchAt_epc_no_label s :
  startsWithI epcLabel s = false -> Pattern.matchAt epcPattern s = None.
Proof.
  intros E. unfold Pattern.matchAt, epcPattern.
  rewrite prun_Seq, prun_Re, run_litI.
  fold epcLabel. rewrite E. reflexivity.
Qed.


Lemma matchAt_epc_cut label name c rest :
  SameUpToCase label epcLabel -> OneLine name -> OtherTerminator c ->
  Pattern.matchAt epcPattern (label ++ name ++ c :: rest) = None.
Proof.
  intros V Ln [Dc Nc]. unfold Pattern.matchAt, epcPattern.
  rewrite prun_Seq, prun_Re, run_litI. fold epcLabel.
  destruct (startsWithI_variant label epcLabel (name ++ c :: rest) V) as [E1 E2].
  rewrite E1, E2, prun_Seq, prun_Re, run_Group, run_Star.
  apply star_none_prefix. intros z' z E Fz.
  destruct z as [|x z2].
  - exfalso. rewrite app_nil_r in E. subst z'.
    apply Forall_app in Fz. destruct Fz as [_ Fz]. inversion Fz; subst. congruence.
  - apply line_end_rejects. intros ->.
    apply app_eq_app in E. destruct E as [l [[E1' E2']|[E1' E2']]].
    + destruct l as [|y l]; cbn [app] in E2'.
      * inversion E2'. subst. apply Nc. reflexivity.
      * inversion E2'; subst. unfold OneLine in Ln.
        apply Forall_app in Ln. destruct Ln as [_ Ll]. inversion Ll; subst.
        discriminate.
    + destruct l as [|y l]; cbn [app] in E2'.
      * inversion E2'. subst. apply Nc. reflexivity.
      * inversion E2'; subst.
        apply Forall_app in Fz. destruct Fz as [_ Fl]. inversion Fl; subst.
        congruence.
Qed.



Lemma pmatch_nowhere p s :
  (forall i, Pattern.matchAt p (skipn i s) = None) -> Pattern.match_ p s = None.
Proof.
  induction s as [|c s IH]; intros H; cbn [Pattern.match_].
  - pose proof (H 0%nat) as H0. cbn [skipn] in H0. rewrite H0. reflexivity.
  - pose proof (H 0%nat) as H0. cbn [skipn] in H0. rewrite H0.
    apply IH. intros i. apply (H (S i)).
Qed.

End Council.



(** X19.  A line terminator other than the line feed right behind the
    council hides it: the pattern asks for a line feed or the end of the
    text there.  With no other line carrying the label, a narrative whose
    lines end in a carriage return and a line feed gives no council. *)
Theorem council_is_lost_before_a_carriage_return
        (pre label name : jsstring) (c : codeunit) (rest : jsstring)
        (sr : Types.SearchResult) :
  let text := pre ++ label ++ name ++ c :: rest in
  Props.SameUpToCase label Props.epcLabel ->
  (forall i, i <> length pre ->
             Props.startsWithI Props.epcLabel (skipn i text) = false) ->
  Props.OneLine name -> Props.OtherTerminator c ->
  Types.sr_text sr = text ->
  ReportContent.inferredEPC text = u "See Analysis" /\
  AppView.relevantEPC (Some sr) = None.
Proof.
  intros text V Only Ln Tc Et.
  assert (P : Pattern.match_ ReportContent.epcPattern text = None).
  { apply pmatch_nowhere. intros i.
    destruct (Nat.eq_dec i (length pre)) as [->|N].
    - subst text. rewrite skipn_length_app.
      apply matchAt_epc_cut; assumption.
    - apply matchAt_epc_no_label. apply Only. exact N. }
  unfold ReportContent.inferredEPC, AppView.relevantEPC.
  rewrite Et, P. split; reflexivity.
Qed.

Lemma council_is_lost_before_a_carriage_return_witness :
  let text := u "Relevant EPC: APEDA" ++ 13 :: nl :: u "1. x" in
  ReportContent.inferredEPC text = u "See Analysis" /\
  AppView.relevantEPC
    (Some {| Types.sr_text := text;
             Types.structuredEvents := JSON.JArray [];
             Types.sr_groundingChunks := [] |})
  = None.
Proof.
  exact (council_is_lost_before_a_carriage_return
           [] (u "Relevant EPC: ") (u "APEDA") 13 (nl :: u "1. x")
           {| Types.sr_text := u "Relevant EPC: APEDA" ++ 13 :: nl :: u "1. x";
              Types.structuredEvents := JSON.JArray [];
              Types.sr_groundingChunks := [] |}
           ltac:(repeat constructor)
           ltac:(intros i Hi;
                 destruct i as [|i]; [exfalso; apply Hi; reflexivity|];
                 do 30 (destruct i as [|i]; [reflexivity|]);
                 reflexivity)
           ltac:(repeat constructor)
           ltac:(split; [reflexivity | discriminate])
           eq_refl).
Defined.

(** X20.  Without the label anywhere in the narrative the report says
    See Analysis where the council would stand, and the page shows none. *)
Theorem no_label_no_council (text : jsstring) (sr : Types.SearchResult) :
  (forall i, Props.startsWithI Props.epcLabel (skipn i text) = false) ->
  Types.sr_text sr = text ->
  ReportContent.inferredEPC text = u "See Analysis" /\
  AppView.relevantEPC (Some sr) = None.
Proof.
  intros No Et.
  assert (P : Pattern.match_ ReportContent.epcPattern text = None).
  { apply pmatch_nowhere. intros i. apply matchAt_epc_no_label, No. }
  unfold ReportContent.inferredEPC, AppView.relevantEPC.
  rewrite Et, P. split; reflexivity.
Qed.

Lemma no_label_no_council_witness :
  ReportContent.inferredEPC (u "EPC: APEDA") = u "See Analysis" /\
  AppView.relevantEPC
    (Some {| Types.sr_text := u "EPC: APEDA";
             Types.structuredEvents := JSON.JArray [];
             Types.sr_groundingChunks := [] |})
  = None.
Proof.
  exact (no_label_no_council
           (u "EPC: APEDA")
           {| Types.sr_text := u "EPC: APEDA";
              Types.structuredEvents := JSON.JArray [];
              Types.sr_groundingChunks := [] |}
           ltac:(intros i;
                 do 12 (destruct i as [|i]; [reflexivity|]);
                 reflexivity)
           eq_refl).
Defined.

(* ================================================================== *)
(** * The links to the sources *)
(* ================================================================== *)

Section SourceLinks.
Import Types Sources GeminiService.

Lemma orString_never_empty x dflt : dflt <> [] -> orString x dflt <> [].
Proof.
  intros N. destruct x as [[|c t]|]; cbn [orString]; [exact N | discriminate | exact N].
Qed.

Lemma links_of_filter (B : Type) type (f : GroundingChunk -> list B) chunks :
  (forall c, isValid type c = false -> f c = []) ->
  flat_map f (filter (isValid type) chunks) = flat_map f chunks.
Proof.
  intros H. induction chunks as [|c chunks IH]; [reflexivity|].
  cbn [filter flat_map]. destruct (isValid type c) eqn:V.
  - cbn [flat_map]. rewrite IH. reflexivity.
  - rewrite (H c V). exact IH.
Qed.

Lemma filter_nil_none type chunks :
  filter (isValid type) chunks = [] ->
  forall c, In c chunks -> dataOf type c = None.
Proof.
  intros E c I.
  assert (V : isValid type c = false).
  { destruct (isValid type c) eqn:V; [|reflexivity].
    assert (I' : In c (filter (isValid type) chunks))
      by (apply filter_In; split; assumption).
    rewrite E in I'. destruct I'. }
  unfold isValid in V. destruct (dataOf type c); [discriminate | reflexivity].
Qed.

End SourceLinks.

(** X21.  GroundingSources renders nothing exactly when no chunk carries
    data of the requested kind.  Otherwise it renders the heading of the
    kind and one link for each chunk that carries such data, in the order
    of the chunks, to the address of the chunk; no link has an empty
    label. *)
Theorem one_link_for_each_chunk_of_the_kind
        (chunks : list Types.GroundingChunk) (type : Sources.SourceType) :
  match Sources.GroundingSources chunks type with
  | None => forall c, In c chunks -> Sources.dataOf type c = None
  | Some (heading, links) =>
      heading = match type with
                | Sources.web_ => u "Verified Sources"
                | Sources.map_ => u "Location Data"
                end /\
      links <> [] /\
      map Sources.href links
      = flat_map (fun c => match Sources.dataOf type c with
                           | Some (uri, _) => [uri]
                           | None => []
                           end) chunks /\
      Forall (fun l => Sources.label l <> []) links
  end.
Proof.
  unfold Sources.GroundingSources.
  destruct chunks as [|c0 chunks0]; [intros c []|].
  set (chunks := c0 :: chunks0).
  destruct (filter (Sources.isValid type) chunks) as [|v vs] eqn:F.
  - apply filter_nil_none. exact F.
  - rewrite <- F.
    split; [reflexivity|]. split; [|split].
    + rewrite F. cbn [flat_map].
      assert (V : Sources.isValid type v = true).
      { assert (I : In v (filter (Sources.isValid type) chunks))
          by (rewrite F; left; reflexivity).
        apply filter_In in I. apply I. }
      unfold Sources.isValid in V.
      destruct (Sources.dataOf type v) as [[uri title]|]; discriminate.
    + rewrite links_of_filter.
      * clear F. induction chunks as [|c chunks IH]; [reflexivity|].
        cbn [flat_map]. rewrite map_app, IH. f_equal.
        destruct (Sources.dataOf type c) as [[uri title]|]; reflexivity.
      * intros c V. unfold Sources.isValid in V.
        destruct (Sources.dataOf type c) as [[uri title]|];
          [discriminate | reflexivity].
    + apply Forall_forall. intros l I. apply in_flat_map in I.
      destruct I as [c [_ I]].
      destruct (Sources.dataOf type c) as [[uri title]|]; [|destruct I].
      destruct I as [<-|[]]. cbn [Sources.label].
      apply orString_never_empty. discriminate.
Qed.

(* ================================================================== *)
(** * More about the file names *)
(* ================================================================== *)

Section FileNames.
Import ReportGenerator.

Lemma digits_inj d d' : digits d = digits d' -> d = d'.
Proof.
  revert d'. induction d; destruct d'; cbn [digits]; intros H;
    try discriminate; try reflexivity;
    inversion H; f_equal; auto.
Qed.

Lemma digits_no_dash d t : digits d <> 45 :: t.
Proof. destruct d; cbn [digits]; discriminate. Qed.

Lemma timeToString_inj t1 t2 : timeToString t1 = timeToString t2 -> t1 = t2.
Proof.
  unfold timeToString.
  destruct t1 as [|p1|p1], t2 as [|p2|p2]; cbn [Z.to_int]; intros H;
    try reflexivity;
    try (symmetry in H; apply digits_no_dash in H; destruct H);
    try (apply digits_no_dash in H; destruct H).
  - apply digits_inj in H. symmetry in H.
    apply DecimalPos.Unsigned.to_uint_nonzero in H. destruct H.
  - apply digits_inj in H.
    apply DecimalPos.Unsigned.to_uint_nonzero in H. destruct H.
  - apply digits_inj, DecimalPos.Unsigned.to_uint_inj in H. congruence.
  - inversion H as [H']. apply digits_inj, DecimalPos.Unsigned.to_uint_inj in H'.
    congruence.
Qed.

End FileNames.

(** X22.  The file name tells the instant and the kind of the report: two
    reports on the same product made at different instants get different
    names, and a Word report never gets the name of a PDF report, whatever
    the instants and the products. *)
Theorem file_names_tell_instant_and_kind
        (now1 now2 : Z) (product other ext : jsstring) :
  (now1 <> now2 ->
   ReportGenerator.getFileName now1 product ext
   <> ReportGenerator.getFileName now2 product ext) /\
  ReportGenerator.wordFileName now1 product
  <> ReportGenerator.pdfFileName now2 other.
Proof.
  split.
  - intros N. unfold ReportGenerator.getFileName. intros E.
    apply app_inv_head, app_inv_head, app_inv_head in E.
    apply app_inv_tail in E. apply N, timeToString_inj, E.
  - unfold ReportGenerator.wordFileName, ReportGenerator.pdfFileName,
      ReportGenerator.getFileName. intros E.
    assert (X : forall a b c d : jsstring,
               a ++ b ++ c ++ d ++ u "." ++ u "docx"
               = (a ++ b ++ c ++ d ++ u ".doc") ++ [120]).
    { intros. repeat rewrite <- app_assoc. reflexivity. }
    assert (Y : forall a b c d : jsstring,
               a ++ b ++ c ++ d ++ u "." ++ u "pdf"
               = (a ++ b ++ c ++ d ++ u ".pd") ++ [102]).
    { intros. repeat rewrite <- app_assoc. reflexivity. }
    rewrite X, Y in E. apply app_inj_tail in E. destruct E as [_ E].
    discriminate.
Qed.

Lemma file_names_tell_instant_and_kind_witness :
  ReportGenerator.getFileName 1700000000000 (u "basmati rice") (u "pdf")
  <> ReportGenerator.getFileName 1700000000001 (u "basmati rice") (u "pdf") /\
  ReportGenerator.wordFileName 1700000000000 (u "basmati rice")
  <> ReportGenerator.pdfFileName 1700000000000 (u "basmati rice").
Proof.
  split.
  - exact (proj1 (file_names_tell_instant_and_kind
                    1700000000000 1700000000001 (u "basmati rice")
                    (u "basmati rice") (u "pdf"))
                 ltac:(discriminate)).
  - exact (proj2 (file_names_tell_instant_and_kind
                    1700000000000 1700000000000 (u "basmati rice")
                    (u "basmati rice") (u "pdf"))).
Defined.

(* ================================================================== *)
(** * More about the replies and what is made of them *)
(* ================================================================== *)

Section Replies.
Import Types GeminiService Shapes Props.

Lemma blank_before_delimiter ws x :
  Blank ws ->
  forall i, (i < length ws)%nat ->
            startsWith delimiter (skipn i (ws ++ x)) = false.
Proof.
  intros B. induction B as [|c ws W B IH]; intros i Hi; [simpl in Hi; lia|].
  destruct i as [|i].
  - cbn [skipn app].
    destruct (startsWith delimiter (c :: ws ++ x)) eqn:S; [|reflexivity].
    apply startsWith_iff in S. destruct S as [t S]. inversion S; subst.
    discriminate.
  - cbn [skipn app]. apply IH. simpl in Hi. lia.
Qed.

Lemma split_after_blank ws rest :
  Blank ws ->
  exists jsonPart,
    splitResponse (ws ++ delimiter ++ rest) = Normal ([], jsonPart).
Proof.
  intros B.
  assert (B1 : breakOn delimiter (ws ++ delimiter ++ rest) = Some (ws, rest)).
  { apply breakOn_FirstAt. split; [exists rest; reflexivity|].
    apply blank_before_delimiter. exact B. }
  rewrite <- (trim_Blank ws B).
  destruct (breakOn delimiter rest) as [[b rest']|] eqn:B2.
  - eexists. eapply splitResponse_two; eassumption.
  - eexists. eapply splitResponse_one_delimiter; eassumption.
Qed.

End Replies.

(** X23.  The venue lookup is made whether or not the browser gives a
    position.  Without geolocation, after a refusal or a timeout, and with
    a position of which a coordinate is zero or not a number, the handler
    makes the same request and the same state changes: the one without
    coordinates. *)
Theorem venue_lookup_without_usable_position
        (ai : GeminiService.Service) (today eventName : jsstring)
        (st : App.State) (g : App.Geolocation) :
  match g with
  | App.geoPosition la lo =>
      GeminiService.truthy (Some la) && GeminiService.truthy (Some lo) = false
  | App.geoUnavailable | App.geoRejected => True
  end ->
  App.handleMapSearch {| App.ai := ai; App.today := today; App.geolocation := g |}
                      eventName st
  = App.handleMapSearch {| App.ai := ai; App.today := today;
                           App.geolocation := App.geoUnavailable |}
                        eventName st.
Proof.
  destruct g as [| |la lo]; intros H; [reflexivity | reflexivity |].
  unfold App.handleMapSearch. cbn [App.geolocation App.ai].
  unfold GeminiService.findEventLocation, GeminiService.locationConfig.
  rewrite H. reflexivity.
Qed.

Lemma venue_lookup_without_usable_position_witness :
  App.handleMapSearch Examples.envDown (u "Anuga") Examples.session
  = App.handleMapSearch
      {| App.ai := Examples.failing; App.today := u "November 2, 2026";
         App.geolocation := App.geoUnavailable |}
      (u "Anuga") Examples.session.
Proof.
  exact (venue_lookup_without_usable_position
           Examples.failing (u "November 2, 2026") (u "Anuga") Examples.session
           (App.geoPosition Examples.zero Examples.thirtyTwo) eq_refl).
Defined.

(** X24.  An analysis and a venue that the service functions return never
    carry an empty text: a reply without text, or with an empty one, is
    replaced by a fixed sentence. *)
Theorem analysis_and_venue_texts_are_never_empty
        (ai : GeminiService.Service)
        (eventsText userProfile eventName : jsstring)
        (userLat userLng : option GeminiService.number)
        (analysis : Types.AnalysisResult) (venue : Types.MapResult) :
  GeminiService.analyzeStrategicFit ai eventsText userProfile = Normal analysis ->
  GeminiService.findEventLocation ai eventName userLat userLng = Normal venue ->
  Types.ar_text analysis <> [] /\ Types.mr_text venue <> [].
Proof.
  unfold GeminiService.analyzeStrategicFit, GeminiService.findEventLocation.
  intros Ha Hv. split.
  - destruct (ai _) as [response|e] in Ha; cbn in Ha; [|discriminate].
    inversion Ha. cbn [Types.ar_text].
    apply orString_never_empty. discriminate.
  - destruct (ai _) as [response|e] in Hv; cbn in Hv; [|discriminate].
    inversion Hv. cbn [Types.mr_text].
    apply orString_never_empty. discriminate.
Qed.

Lemma analysis_and_venue_texts_are_never_empty_witness :
  u "Could not generate analysis." <> [] /\ u "Location not found." <> [].
Proof.
  exact (analysis_and_venue_texts_are_never_empty
           (fun _ => Normal {| GeminiService.text := Some [];
                               GeminiService.groundingChunks := None |})
           (u "1. Anuga") (u "First-time exporter") (u "Anuga") None None
           {| Types.ar_text := u "Could not generate analysis." |}
           {| Types.mr_text := u "Location not found.";
              Types.mr_groundingChunks := [] |}
           eq_refl eq_refl).
Defined.

(** X25.  The narrative of a search can be empty: a reply that opens with
    the delimiter, after white space at most, gives the empty narrative,
    whatever follows the delimiter. *)
Theorem narrative_is_empty_when_the_reply_opens_with_the_delimiter
        (ws rest : jsstring) (chunks : option (list Types.GroundingChunk)) :
  Shapes.Blank ws ->
  exists events,
    GeminiService.processResponse
      {| GeminiService.text := Some (ws ++ GeminiService.delimiter ++ rest);
         GeminiService.groundingChunks := chunks |}
    = Normal {| Types.sr_text := [];
                Types.structuredEvents := events;
                Types.sr_groundingChunks := GeminiService.orArray chunks |}.
Proof.
  intros B. unfold GeminiService.processResponse.
  cbn [GeminiService.text GeminiService.groundingChunks].
  rewrite orString_nonempty
    by (destruct ws; discriminate).
  destruct (split_after_blank ws rest B) as [jsonPart E].
  rewrite E. cbn [JS.bind].
  destruct (extractEvents_total jsonPart
              (ws ++ GeminiService.delimiter ++ rest)) as [v E'].
  rewrite E'. cbn [JS.bind]. exists v. reflexivity.
Qed.

Lemma narrative_is_empty_when_the_reply_opens_with_the_delimiter_witness :
  exists events,
    GeminiService.processResponse
      {| GeminiService.text :=
           Some (u " " ++ GeminiService.delimiter ++ u "[{}]");
         GeminiService.groundingChunks := None |}
    = Normal {| Types.sr_text := [];
                Types.structuredEvents := events;
                Types.sr_groundingChunks := [] |}.
Proof.
  exact (narrative_is_empty_when_the_reply_opens_with_the_delimiter
           (u " ") (u "[{}]") None ltac:(repeat constructor)).
Defined.


